(** * mini-govuk: the search index engine and the reverse-proxy router

    A shallow embedding of the search API (the enhanced [search-api]
    service with its inverted index) and of the router (both revisions of
    [router/index.js]) together with the properties their specification
    states about them.

    Modelling conventions.
    - A JavaScript string is a [string] whose characters are code units
      0..255 read as ISO-8859-1 (the first 256 Unicode code points);
      [toLowerCase], [\w] and [\s] are given on that range.
    - A plain JavaScript object used as a dictionary is the [gmap] of its
      own properties; reading a key that is not an own property finds the
      members every object inherits from [Object.prototype].
    - A JavaScript [Set] is a duplicate-free list in insertion order, which
      is also its iteration order.
    - A number is a double. The doubles met here have integer values, are
      infinite or are [NaN]; lengths and counts are in [Z].
    - An [async] function or a request handler takes the outcome of each
      outbound HTTP call as an argument and returns the new state.
    - The message of an error that the engine raises is given in brief; its
      wording differs between engines, and the code only logs it. *)

From Stdlib Require Import ZArith Ascii String List Bool Lia Sorted Permutation.
From stdpp Require Import base option list gmap strings fin_maps.

Import ListNotations.
Open Scope string_scope.

(** ** JavaScript primitives *)

Module JS.

(** *** Characters *)

Definition code (c : ascii) : N := N_of_ascii c.

Definition is_upper (c : ascii) : bool :=
  let n := code c in
  ((65 <=? n) && (n <=? 90))%N
  || ((192 <=? n) && (n <=? 222) && negb (n =? 215))%N.

Definition lower_char (c : ascii) : ascii :=
  if is_upper c then ascii_of_N (code c + 32) else c.

(** [\w] is [[A-Za-z0-9_]]. *)
Definition is_word_char (c : ascii) : bool :=
  let n := code c in
  ((48 <=? n) && (n <=? 57))%N
  || ((65 <=? n) && (n <=? 90))%N
  || (n =? 95)%N
  || ((97 <=? n) && (n <=? 122))%N.

(** [\s]: tab, line feed, vertical tab, form feed, carriage return, space
    and the no-break space. *)
Definition is_space_char (c : ascii) : bool :=
  let n := code c in
  ((9 <=? n) && (n <=? 13))%N || (n =? 32)%N || (n =? 160)%N.

(** *** Strings *)

Fixpoint map_string (f : ascii -> ascii) (s : string) : string :=
  match s with
  | EmptyString => EmptyString
  | String c s' => String (f c) (map_string f s')
  end.

(** [s.toLowerCase()] *)
Definition toLowerCase (s : string) : string := map_string lower_char s.

(** [s.replace(/[^\w\s]/g, ' ')] *)
Definition replace_nonword_char (c : ascii) : ascii :=
  if is_word_char c || is_space_char c then c else " "%char.

Definition replace_nonword (s : string) : string :=
  map_string replace_nonword_char s.

Definition starts_with_space (s : string) : bool :=
  match s with
  | EmptyString => false
  | String c _ => is_space_char c
  end.

Definition cons_head (c : ascii) (r : list string) : list string :=
  match r with
  | [] => [String c EmptyString]
  | h :: t => String c h :: t
  end.

(** [s.split(/\s+/)]: the pieces between maximal runs of whitespace; a
    leading or trailing run leaves an empty piece, and the empty string
    splits into one empty piece. *)
Fixpoint split_ws (s : string) : list string :=
  match s with
  | EmptyString => [EmptyString]
  | String c s' =>
      if is_space_char c then
        if starts_with_space s' then split_ws s'
        else EmptyString :: split_ws s'
      else cons_head c (split_ws s')
  end.

(** [s.startsWith(t)] *)
Fixpoint startsWith (s t : string) {struct t} : bool :=
  match t, s with
  | EmptyString, _ => true
  | String _ _, EmptyString => false
  | String b t', String a s' => if Ascii.eqb a b then startsWith s' t' else false
  end.

(** [s.includes(t)] *)
Fixpoint includes (s t : string) : bool :=
  startsWith s t ||
  match s with
  | EmptyString => false
  | String _ s' => includes s' t
  end.

(** [s.indexOf(t)], [-1] when [t] does not occur. *)
Fixpoint indexOf (s t : string) : Z :=
  if startsWith s t then 0%Z
  else match s with
       | EmptyString => (-1)%Z
       | String _ s' =>
           let i := indexOf s' t in
           if (i =? -1)%Z then (-1)%Z else (i + 1)%Z
       end.

(** [s.substring(a, b)] for [0 <= a <= b]. *)
Definition substring (s : string) (a b : nat) : string :=
  String.substring a (b - a) s.

(** [s[i]], [None] for [undefined]. *)
Definition charAt (s : string) (i : nat) : option ascii := String.get i s.

(** *** Numbers *)

(** A double with an integer value, an infinity or [NaN]. The sign of a
    zero is not kept: nothing below tells [-0] from [0]. *)
Inductive Number :=
  | NaN
  | Infinity (negative : bool)
  | Integer (value : Z).

(** The magnitude of the double nearest to a natural number: 53
    significant bits, ties to the even significand. *)
Definition round_magnitude (a : Z) : Z :=
  if (a <? 2 ^ 53)%Z then a
  else
    let unit := (2 ^ (Z.log2 a - 52))%Z in
    let m := (a / unit)%Z in
    let r := (a mod unit)%Z in
    let m := if (unit <? 2 * r)%Z || ((2 * r =? unit)%Z && Z.odd m)
             then (m + 1)%Z else m in
    (m * unit)%Z.

(** The double nearest to an integer; from [2^1024] on it is infinite. *)
Definition to_double (z : Z) : Number :=
  let a := round_magnitude (Z.abs z) in
  if (2 ^ 1024 <=? a)%Z then Infinity (z <? 0)%Z else Integer (Z.sgn z * a).

(** [x + y] *)
Definition number_add (x y : Number) : Number :=
  match x, y with
  | NaN, _ | _, NaN => NaN
  | Infinity a, Infinity b => if Bool.eqb a b then Infinity a else NaN
  | Infinity a, Integer _ => Infinity a
  | Integer _, Infinity b => Infinity b
  | Integer a, Integer b => to_double (a + b)
  end.

(** [x * y] *)
Definition number_mul (x y : Number) : Number :=
  match x, y with
  | NaN, _ | _, NaN => NaN
  | Infinity a, Infinity b => Infinity (xorb a b)
  | Infinity a, Integer b => if (b =? 0)%Z then NaN else Infinity (xorb a (b <? 0)%Z)
  | Integer a, Infinity b => if (a =? 0)%Z then NaN else Infinity (xorb (a <? 0)%Z b)
  | Integer a, Integer b => to_double (a * b)
  end.

(** The ceiling of the quotient of two integers, [b <> 0]. *)
Definition ceil_div (a b : Z) : Z := (- ((- a) / b))%Z.

(** [Math.ceil(a / y)] for the length [a] of an array. The quotient of a
    length, which is below [2^32], by a double never rounds to an integer
    from above it, so the ceiling is the exact one. *)
Definition ceil_quotient (a : Z) (y : Number) : Number :=
  match y with
  | NaN => NaN
  | Infinity _ => Integer 0
  | Integer b =>
      if (b =? 0)%Z then (if (a =? 0)%Z then NaN else Infinity false)
      else Integer (ceil_div a b)
  end.

(** [n || d] for a number [n]: [NaN] and zero are falsy. *)
Definition number_or (n d : Number) : Number :=
  match n with
  | NaN => d
  | Infinity _ => n
  | Integer v => if (v =? 0)%Z then d else n
  end.

(** *** Arrays *)

(** The relative index of [Array.prototype.slice]: [NaN] counts as zero, a
    negative index counts from the end, and both ends are clamped to the
    array. *)
Definition relative_index (len : Z) (k : Number) : Z :=
  match k with
  | NaN => 0%Z
  | Infinity negative => if negative then 0%Z else len
  | Integer k => if (k <? 0)%Z then Z.max (len + k) 0 else Z.min k len
  end.

(** [a.slice(start, end)] *)
Definition slice {A} (a : list A) (start stop : Number) : list A :=
  let len := Z.of_nat (List.length a) in
  let k := relative_index len start in
  let final := relative_index len stop in
  firstn (Z.to_nat (final - k)) (skipn (Z.to_nat k) a).

(** [parseInt(s)] in radix 10, or 16 after a [0x] prefix: the double
    nearest to the integer the leading digits denote, [NaN] without a
    digit. *)
Definition digit_value (radix : Z) (c : ascii) : option Z :=
  let n := Z.of_N (code c) in
  let v := if ((48 <=? n) && (n <=? 57))%Z then (n - 48)%Z
           else if ((97 <=? n) && (n <=? 122))%Z then (n - 87)%Z
           else if ((65 <=? n) && (n <=? 90))%Z then (n - 55)%Z
           else 36%Z in
  if (v <? radix)%Z then Some v else None.

Fixpoint parse_digits (radix : Z) (s : string) (acc : option Z) : option Z :=
  match s with
  | EmptyString => acc
  | String c s' =>
      match digit_value radix c with
      | Some v => parse_digits radix s' (Some (radix * default 0%Z acc + v)%Z)
      | None => acc
      end
  end.

Fixpoint trim_start (s : string) : string :=
  match s with
  | EmptyString => EmptyString
  | String c s' => if is_space_char c then trim_start s' else s
  end.

Definition parseInt (s : string) : Number :=
  let s := trim_start s in
  let '(sign, s) :=
    match s with
    | String "-"%char s' => ((-1)%Z, s')
    | String "+"%char s' => (1%Z, s')
    | _ => (1%Z, s)
    end in
  let '(radix, s) :=
    match s with
    | String "0"%char (String x s') =>
        if (Ascii.eqb x "x" || Ascii.eqb x "X")%char then (16%Z, s') else (10%Z, s)
    | _ => (10%Z, s)
    end in
  match parse_digits radix s None with
  | Some v => to_double (sign * v)
  | None => NaN
  end.

(** [encodeURIComponent(s)]: every character that is not a letter, a digit
    or one of the marks listed in [is_unreserved] becomes the
    percent-escapes of its UTF-8 bytes. *)
Definition hex_digit (n : N) : ascii :=
  ascii_of_N (if (n <? 10)%N then 48 + n else 55 + n).

Definition percent (byte : N) : string :=
  String "%" (String (hex_digit (byte / 16)) (String (hex_digit (byte mod 16)) EmptyString)).

Definition is_unreserved (c : ascii) : bool :=
  is_word_char c || includes "-.!~*'()" (String c EmptyString).

Definition encode_char (c : ascii) : string :=
  if is_unreserved c then String c EmptyString
  else
    let n := code c in
    if (n <? 128)%N then percent n
    else percent (192 + n / 64) ++ percent (128 + n mod 64).

Fixpoint encodeURIComponent (s : string) : string :=
  match s with
  | EmptyString => EmptyString
  | String c s' => encode_char c ++ encodeURIComponent s'
  end.

(** *** Completions *)

(** How a call ends: it returns a value or throws an error with a
    message. *)
Inductive Completion (A : Type) : Type :=
  | Normal (a : A)
  | Throw (message : string).
Arguments Normal {A} a.
Arguments Throw {A} message.

(** What an outbound [axios] call settles to. *)
Inductive Settled (A : Type) : Type :=
  | Resolved (data : A)
  | Rejected (message : string).
Arguments Resolved {A} data.
Arguments Rejected {A} message.

(** *** Effects: module state and exceptions *)

(** A computation over the variables [S] of a module: it ends normally or
    by a throw, and what it wrote before a throw stays written. *)
Definition Eff (S A : Type) : Type := S -> Completion A * S.

#[export] Instance Eff_ret {S} : MRet (Eff S) := fun A a st => (Normal a, st).
#[export] Instance Eff_bind {S} : MBind (Eff S) := fun A B f m st =>
  match m st with
  | (Normal a, st') => f a st'
  | (Throw e, st') => (Throw e, st')
  end.

(** [try { m } catch (error) { handler(error.message) }] *)
Definition try_catch {S A} (m : Eff S A) (handler : string -> Eff S A) : Eff S A :=
  fun st =>
    match m st with
    | (Normal a, st') => (Normal a, st')
    | (Throw e, st') => handler e st'
    end.

Definition get_state {S} : Eff S S := fun st => (Normal st, st).

Definition modify {S} (f : S -> S) : Eff S unit := fun st => (Normal tt, f st).

(** [await promise]: a rejected promise throws at the [await]. *)
Definition await {S A} (r : Settled A) : Eff S A := fun st =>
  match r with
  | Resolved data => (Normal data, st)
  | Rejected message => (Throw message, st)
  end.

Definition throw {S A} (message : string) : Eff S A := fun st => (Throw message, st).

(** [a.forEach(callback)]: a throw in the callback ends the loop. *)
Fixpoint forEach {S A} (callback : A -> Eff S unit) (a : list A) : Eff S unit :=
  match a with
  | [] => mret tt
  | x :: a' => callback x;; forEach callback a'
  end.

(** *** Sets, in insertion order *)

Definition has (s : list string) (x : string) : bool :=
  existsb (String.eqb x) s.

Definition add (x : string) (s : list string) : list string :=
  if has s x then s else s ++ [x].

Definition remove (x : string) (s : list string) : list string :=
  List.filter (fun y => negb (String.eqb y x)) s.

(** [new Set(a)] *)
Definition Set_of (a : list string) : list string :=
  fold_left (fun s x => add x s) a [].

(** *** Plain objects used as dictionaries *)

(** The names of the members of [Object.prototype]. *)
Definition object_prototype : list string :=
  ["constructor"; "__defineGetter__"; "__defineSetter__"; "hasOwnProperty";
   "__lookupGetter__"; "__lookupSetter__"; "isPrototypeOf"; "propertyIsEnumerable";
   "toString"; "valueOf"; "__proto__"; "toLocaleString"].

Definition inherited (key : string) : bool := has object_prototype key.

(** What [obj[key]] finds in an object made by [{}]: the value of an own
    property, else a member inherited from [Object.prototype] (a function,
    or the prototype itself for [__proto__]: truthy, and not a value the
    dictionary was given), else [undefined]. *)
Inductive Property (V : Type) : Type :=
  | Own (value : V)
  | Inherited
  | Undefined.
Arguments Own {V} value.
Arguments Inherited {V}.
Arguments Undefined {V}.

Definition get_property {V} (obj : gmap string V) (key : string) : Property V :=
  match obj !! key with
  | Some value => Own value
  | None => if inherited key then Inherited else Undefined
  end.

(** *** Values of a parsed query string *)

(** A value of [req.query]: a string, an array for a repeated or bracketed
    key, an object for keyed brackets. *)
#[local] Unset Elimination Schemes.
Inductive QueryValue :=
  | Text (s : string)
  | Items (items : list QueryValue)
  | Fields (fields : list (string * QueryValue)).
#[local] Set Elimination Schemes.

(** [String(v)] *)
Fixpoint to_text (v : QueryValue) : string :=
  match v with
  | Text s => s
  | Items items => String.concat "," (List.map to_text items)
  | Fields _ => "[object Object]"
  end.

(** Only the empty string is falsy. *)
Definition truthy (v : QueryValue) : bool :=
  match v with
  | Text s => negb (String.eqb s "")
  | _ => true
  end.

(** [parseInt(v)] for a value of the query, [undefined] when absent. *)
Definition parseInt_of (v : option QueryValue) : Number :=
  match v with
  | Some v => parseInt (to_text v)
  | None => NaN
  end.

End JS.

(** ** What the publishing API serves *)

Module Publishing.

Record Part := { part_title : string; part_body : string }.

(** A content item of a [contents] listing; [updatedAt] is the instant the
    date string denotes, in milliseconds. *)
Record Content := {
  _id : string;
  path : string;
  title : string;
  document_type : string;
  body : string;
  introduction : string;
  parts : list Part;
  state : string;
  updatedAt : Z
}.

End Publishing.

(** ** The search index engine *)

Module SearchApi.

Import JS Publishing.

(** *** Data *)

Record IndexedDocument := {
  doc_id : string;
  doc_path : string;
  doc_title : string;
  doc_type : string;
  doc_text : string;
  doc_updatedAt : Z
}.

Record SearchIndex := {
  documents : gmap string IndexedDocument;
  tokenizedIndex : gmap string (list string)
}.

Inductive LogEntry :=
  | LogBuilding
  | LogBuilt (count : nat)
  | LogBuildFailed (message : string)
  | LogIncremental
  | LogNothingNew
  | LogUpdating (count : nat)
  | LogUpdated
  | LogUpdateFailed (message : string).

(** The module's variables, with the console as the list of lines written
    so far. *)
Record State := {
  searchIndex : SearchIndex;
  lastIndexedTime : option Z;
  console : list LogEntry
}.

Definition initial : State :=
  {| searchIndex := {| documents := ∅; tokenizedIndex := ∅ |};
     lastIndexedTime := None;
     console := [] |}.

(** *** Tokens and snippets *)

(** [tokenizeText(text)] *)
Definition tokenizeText (text : string) : list string :=
  List.filter (fun token => (1 <? String.length token)%nat)
    (split_ws (replace_nonword (toLowerCase text))).

Definition bestPosition_step (lowerText : string) (bestPosition : Z) (token : string) : Z :=
  let position := indexOf lowerText token in
  if negb (position =? -1)%Z && ((bestPosition =? -1)%Z || (position <? bestPosition)%Z)
  then position else bestPosition.

(** [while (startPos > 0 && text[startPos] !== ' ') startPos--] *)
Fixpoint startPos_loop (text : string) (startPos : nat) : nat :=
  match startPos with
  | O => O
  | S p =>
      if bool_decide (charAt text startPos = Some " "%char) then startPos
      else startPos_loop text p
  end.

(** [while (endPos < text.length && text[endPos] !== ' ') endPos++]; the
    first argument bounds the iterations by the distance to the end. *)
Fixpoint endPos_loop (steps : nat) (text : string) (endPos : nat) : nat :=
  match steps with
  | O => endPos
  | S k =>
      if (endPos <? String.length text)%nat
         && negb (bool_decide (charAt text endPos = Some " "%char))
      then endPos_loop k text (S endPos) else endPos
  end.

(** [generateSnippet(text, queryTokens)] with the default [maxLength]. *)
Definition generateSnippet (text : string) (queryTokens : list string) : string :=
  let maxLength := 160%nat in
  if String.eqb text "" || (List.length queryTokens =? 0)%nat then
    substring text 0 maxLength ++ "..."
  else
    let lowerText := toLowerCase text in
    let bestPosition := fold_left (bestPosition_step lowerText) queryTokens (-1)%Z in
    if (bestPosition =? -1)%Z then substring text 0 maxLength ++ "..."
    else
      let startPos0 := Z.to_nat (Z.max 0 (bestPosition - 60)) in
      let endPos0 := Nat.min (String.length text) (startPos0 + maxLength) in
      let startPos := startPos_loop text startPos0 in
      let endPos := endPos_loop (String.length text - endPos0) text endPos0 in
      let snippet := substring text startPos endPos in
      let snippet := if (0 <? startPos)%nat then "..." ++ snippet else snippet in
      if (endPos <? String.length text)%nat then snippet ++ "..." else snippet.

(** *** Indexing *)

Definition searchableText (content : Content) : string :=
  let searchableText := title content ++ " " in
  if String.eqb (document_type content) "simple-page" then
    searchableText ++ body content
  else if String.eqb (document_type content) "guide" then
    fold_left
      (fun text part => text ++ part_title part ++ " " ++ part_body part ++ " ")
      (parts content)
      (searchableText ++ introduction content ++ " ")
  else searchableText.

Definition set_tokenizedIndex (index : gmap string (list string)) : Eff SearchIndex unit :=
  modify (fun idx => {| documents := documents idx; tokenizedIndex := index |}).

Definition set_document (id : string) (doc : IndexedDocument) : Eff SearchIndex unit :=
  modify (fun idx =>
    {| documents := <[id := doc]> (documents idx); tokenizedIndex := tokenizedIndex idx |}).

(** The body of [oldTokens.forEach]: take the id out of the token's set and
    drop the entry once the set is empty. A token that names an inherited
    member passes the guard, and calling its [delete] throws. *)
Definition removeToken (id token : string) : Eff SearchIndex unit :=
  idx ← get_state;
  match get_property (tokenizedIndex idx) token with
  | Own ids =>
      let ids := remove id ids in
      if (List.length ids =? 0)%nat then
        set_tokenizedIndex (delete token (tokenizedIndex idx))
      else set_tokenizedIndex (<[token := ids]> (tokenizedIndex idx))
  | Inherited => throw "searchIndex.tokenizedIndex[token].delete is not a function"
  | Undefined => mret tt
  end.

(** The body of [uniqueTokens.forEach]. For a token that names an
    inherited member no set is made, and calling its [add] throws. *)
Definition addToken (id token : string) : Eff SearchIndex unit :=
  idx ← get_state;
  match get_property (tokenizedIndex idx) token with
  | Own ids => set_tokenizedIndex (<[token := add id ids]> (tokenizedIndex idx))
  | Inherited => throw "searchIndex.tokenizedIndex[token].add is not a function"
  | Undefined => set_tokenizedIndex (<[token := add id []]> (tokenizedIndex idx))
  end.

(** [indexDocument(content)]. An id that names an inherited member and has
    no document passes the guard with a member that has no [text], and
    [tokenizeText(undefined)] throws. *)
Definition indexDocument (content : Content) : Eff SearchIndex unit :=
  let text := searchableText content in
  idx ← get_state;
  match get_property (documents idx) (_id content) with
  | Own old => forEach (removeToken (_id content)) (tokenizeText (doc_text old))
  | Inherited => throw "Cannot read property 'toLowerCase' of undefined"
  | Undefined => mret tt
  end;;
  set_document (_id content)
    {| doc_id := _id content;
       doc_path := path content;
       doc_title := title content;
       doc_type := document_type content;
       doc_text := toLowerCase text;
       doc_updatedAt := updatedAt content |};;
  let tokens := tokenizeText text in
  let uniqueTokens := Set_of tokens in
  forEach (addToken (_id content)) uniqueTokens.

(** [contents.forEach(content => indexDocument(content))] *)
Definition indexAll (contents : list Content) : Eff SearchIndex unit :=
  forEach indexDocument contents.

(** *** The module's variables *)

Definition log (entry : LogEntry) : Eff State unit :=
  modify (fun st =>
    {| searchIndex := searchIndex st;
       lastIndexedTime := lastIndexedTime st;
       console := console st ++ [entry] |}).

Definition set_searchIndex (idx : SearchIndex) : Eff State unit :=
  modify (fun st =>
    {| searchIndex := idx;
       lastIndexedTime := lastIndexedTime st;
       console := console st |}).

Definition set_lastIndexedTime (t : option Z) : Eff State unit :=
  modify (fun st =>
    {| searchIndex := searchIndex st;
       lastIndexedTime := t;
       console := console st |}).

(** A computation on [searchIndex] among the module's variables. *)
Definition on_searchIndex {A} (m : Eff SearchIndex A) : Eff State A := fun st =>
  let '(completion, idx) := m (searchIndex st) in
  (completion,
   {| searchIndex := idx;
      lastIndexedTime := lastIndexedTime st;
      console := console st |}).

(** What the publishing API answers during one run, and the clock. *)
Record World := {
  published_content : Settled (list Content);
  all_content : Settled (list Content);
  now : Z
}.

(** [buildSearchIndex()] *)
Definition buildSearchIndex (w : World) : Eff State unit :=
  try_catch
    (log LogBuilding;;
     contents ← await (published_content w);
     set_searchIndex {| documents := ∅; tokenizedIndex := ∅ |};;
     on_searchIndex (indexAll contents);;
     set_lastIndexedTime (Some (now w));;
     st ← get_state;
     log (LogBuilt (size (documents (searchIndex st)))))
    (fun message => log (LogBuildFailed message)).

Definition changed_since (lastIndexedTime : Z) (content : Content) : bool :=
  (lastIndexedTime <? updatedAt content)%Z && String.eqb (state content) "published".

(** [incrementalIndexUpdate()] *)
Definition incrementalIndexUpdate (w : World) : Eff State unit :=
  try_catch
    (st ← get_state;
     match lastIndexedTime st with
     | None => buildSearchIndex w
     | Some last =>
         log LogIncremental;;
         allContent ← await (all_content w);
         let updatedContents := List.filter (changed_since last) allContent in
         if (List.length updatedContents =? 0)%nat then log LogNothingNew
         else
           log (LogUpdating (List.length updatedContents));;
           on_searchIndex (indexAll updatedContents);;
           set_lastIndexedTime (Some (now w));;
           log LogUpdated
     end)
    (fun message => log (LogUpdateFailed message)).

(** *** Searching *)

(** [req.query]; [None] is [undefined]. *)
Record SearchQuery := {
  q : option QueryValue;
  page : option QueryValue;
  pageSize : option QueryValue;
  type : option QueryValue
}.

Record ResultItem := {
  res_id : string;
  res_title : string;
  res_path : string;
  res_type : string;
  snippet : string;
  res_updatedAt : Z;
  relevance : Z
}.

Record SearchResponse := {
  results : list ResultItem;
  total : Z;
  resp_page : Number;
  resp_pageSize : Number;
  totalPages : Number
}.

(** The body of [queryTokens.forEach] over the variables [isFirstToken]
    and [matchingIds]. For a token that names an inherited member
    [matchingDocsForToken] is that member: [new Set] of it throws, and so
    does the call of its [has] for the first id to filter. *)
Definition set_matchingIds (ids : list string) : Eff (bool * list string) unit :=
  modify (fun _ => (false, ids)).

Definition matching_step (index : gmap string (list string)) (token : string)
  : Eff (bool * list string) unit :=
  vars ← get_state;
  match get_property index token with
  | Own matchingDocsForToken =>
      if (fst vars : bool) then set_matchingIds matchingDocsForToken
      else set_matchingIds (List.filter (fun id => has matchingDocsForToken id) (snd vars))
  | Undefined =>
      if (fst vars : bool) then set_matchingIds []
      else set_matchingIds (List.filter (fun id => has [] id) (snd vars))
  | Inherited =>
      if (fst vars : bool) then throw "object is not iterable"
      else
        match snd vars with
        | [] => set_matchingIds []
        | _ :: _ => throw "matchingDocsForToken.has is not a function"
        end
  end.

Definition matchingIds (index : gmap string (list string)) (queryTokens : list string)
  : Completion (list string) :=
  match forEach (matching_step index) queryTokens (true, []) with
  | (Normal _, (_, matchingIds)) => Normal matchingIds
  | (Throw e, _) => Throw e
  end.

(** The body of the scoring [queryTokens.forEach]. *)
Definition relevance_step (titleText text : string) (relevance : Z) (token : string) : Z :=
  let relevance :=
    if includes titleText token then
      let relevance := (relevance + 3)%Z in
      if startsWith titleText token then (relevance + 2)%Z else relevance
    else relevance in
  if includes text token then (relevance + 1)%Z else relevance.

Definition relevance_of (doc : IndexedDocument) (queryTokens : list string) : Z :=
  fold_left (relevance_step (toLowerCase (doc_title doc)) (doc_text doc)) queryTokens 0%Z.

(** The object a kept candidate is mapped to. *)
Definition result_item (doc : IndexedDocument) (queryTokens : list string) (relevance : Z)
  : ResultItem :=
  {| res_id := doc_id doc;
     res_title := doc_title doc;
     res_path := doc_path doc;
     res_type := doc_type doc;
     snippet := generateSnippet (doc_text doc) queryTokens;
     res_updatedAt := doc_updatedAt doc;
     relevance := relevance |}.

(** Whether the type filter lets a document through: [type] is null or
    strictly equal to the document's type, which is a string. *)
Definition type_matches (type : option QueryValue) (doc : IndexedDocument) : bool :=
  match type with
  | Some (Text t) => String.eqb (doc_type doc) t
  | Some _ => false
  | None => true
  end.

(** The callback of [.map] over the matching ids; [None] is [null].
    Reading a field of [undefined] throws; an inherited member has no
    [type], so the filter skips it, and no [title]. *)
Definition scoreCandidate (idx : SearchIndex) (type : option QueryValue)
    (queryTokens : list string) (id : string) : Completion (option ResultItem) :=
  match get_property (documents idx) id with
  | Undefined => Throw "Cannot read property of undefined"
  | Inherited =>
      match type with
      | Some _ => Normal None
      | None => Throw "Cannot read property 'toLowerCase' of undefined"
      end
  | Own doc =>
      if negb (type_matches type doc) then Normal None
      else
        let relevance := relevance_of doc queryTokens in
        if (relevance =? 0)%Z then Normal None
        else
          Normal (Some (result_item doc queryTokens relevance))
  end.

Fixpoint map_throwing {A B} (f : A -> Completion B) (l : list A) : Completion (list B) :=
  match l with
  | [] => Normal []
  | x :: l' =>
      match f x with
      | Throw e => Throw e
      | Normal y =>
          match map_throwing f l' with
          | Throw e => Throw e
          | Normal ys => Normal (y :: ys)
          end
      end
  end.

(** [.sort((a, b) => b.relevance - a.relevance)]: the sort is stable, so
    an item stays behind the items of equal relevance that preceded it. *)
Fixpoint insert_by_relevance (x : ResultItem) (l : list ResultItem) : list ResultItem :=
  match l with
  | [] => [x]
  | y :: l' =>
      if (relevance x <? relevance y)%Z then y :: insert_by_relevance x l'
      else x :: y :: l'
  end.

Definition sort_by_relevance (l : list ResultItem) : list ResultItem :=
  fold_right insert_by_relevance [] l.

(** The array [results] before pagination. *)
Definition rankedResults (idx : SearchIndex) (type : option QueryValue)
    (queryTokens : list string) : Completion (list ResultItem) :=
  match matchingIds (tokenizedIndex idx) queryTokens with
  | Throw e => Throw e
  | Normal ids =>
      match map_throwing (scoreCandidate idx type queryTokens) ids with
      | Throw e => Throw e
      | Normal items => Normal (sort_by_relevance (omap (fun item => item) items))
      end
  end.

Definition paginate (results : list ResultItem) (page pageSize : Number) : SearchResponse :=
  let total := Z.of_nat (List.length results) in
  let startIndex := number_mul (number_add page (Integer (-1))) pageSize in
  {| results := slice results startIndex (number_add startIndex pageSize);
     total := total;
     resp_page := page;
     resp_pageSize := pageSize;
     totalPages := ceil_quotient total pageSize |}.

Definition empty_response (page pageSize : Number) : SearchResponse :=
  {| results := []; total := 0; resp_page := page; resp_pageSize := pageSize;
     totalPages := Integer 0 |}.

(** [parseInt(req.query.page) || 1] *)
Definition page_of (req : SearchQuery) : Number :=
  number_or (parseInt_of (page req)) (Integer 1).

(** [parseInt(req.query.pageSize) || 10] *)
Definition pageSize_of (req : SearchQuery) : Number :=
  number_or (parseInt_of (pageSize req)) (Integer 10).

(** [req.query.type || null] *)
Definition type_of (req : SearchQuery) : option QueryValue :=
  match type req with
  | Some t => if truthy t then Some t else None
  | None => None
  end.

(** [(req.query.q || '').toLowerCase()]: an array or an object has no
    [toLowerCase]. *)
Definition query_of (req : SearchQuery) : Completion string :=
  match q req with
  | Some (Text s) => Normal (toLowerCase s)
  | Some _ => Throw "(req.query.q || '').toLowerCase is not a function"
  | None => Normal ""
  end.

(** The tokens of the query, none when the query is not a string. *)
Definition queryTokens_of (req : SearchQuery) : list string :=
  match query_of req with
  | Normal query => tokenizeText query
  | Throw _ => []
  end.

(** The handler of [GET /search]: the JSON it answers with, or the error
    it throws. *)
Definition search (idx : SearchIndex) (req : SearchQuery) : Completion SearchResponse :=
  match query_of req with
  | Throw e => Throw e
  | Normal query =>
      let page := page_of req in
      let pageSize := pageSize_of req in
      let type := type_of req in
      if String.eqb query "" then Normal (empty_response page pageSize)
      else
        let queryTokens := tokenizeText query in
        if (List.length queryTokens =? 0)%nat then Normal (empty_response page pageSize)
        else
          match rankedResults idx type queryTokens with
          | Throw e => Throw e
          | Normal results => Normal (paginate results page pageSize)
          end
  end.

End SearchApi.
(** ** HTTP as the router sees it *)

Module Http.

Import JS.

(** A value of a parsed request body: one string, or an array of them for
    a repeated form field. *)
Inductive FieldValue :=
  | One (value : string)
  | Many (values : list string).

(** What [axios] is given to send: nothing, the parsed body as it is, or
    [URLSearchParams]. *)
Inductive Payload :=
  | NoPayload
  | Parsed (fields : list (string * FieldValue))
  | SearchParams (pairs : list (string * string)).

Record Outbound := {
  out_method : string;
  out_url : string;
  out_headers : gmap string string;
  out_payload : Payload
}.

Record UpstreamResponse := {
  status : Z;
  headers : gmap string string;
  data : string
}.

(** The frontend either cannot be reached or answers. *)
Inductive Exchange :=
  | Unreachable (message : string)
  | Answered (response : UpstreamResponse).

Definition Upstream := Outbound -> Exchange.

(** [axios] rejects when there is no answer and when [validateStatus]
    refuses the answer's status. *)
Definition axios (validateStatus : Z -> bool) (x : Exchange) : Settled UpstreamResponse :=
  match x with
  | Unreachable message => Rejected message
  | Answered response =>
      if validateStatus (status response) then Resolved response
      else Rejected "Request failed with status code"
  end.

Definition default_validateStatus (status : Z) : bool :=
  (200 <=? status)%Z && (status <? 300)%Z.

(** The incoming request, after the body parsers. *)
Record Request := {
  method : string;
  originalUrl : string;
  url : string;
  params_path : option string;
  query_q : option QueryValue;
  req_headers : gmap string string;
  req_body : list (string * FieldValue)
}.

(** Express's [res]: the status and headers set so far and, once the
    response is finished, whether a body was written. *)
Record ServerResponse := {
  statusCode : Z;
  sent_headers : gmap string string;
  sent_body : option string;
  finished : bool
}.

Definition res_status (code : Z) : Eff ServerResponse unit :=
  modify (fun res =>
    {| statusCode := code; sent_headers := sent_headers res;
       sent_body := sent_body res; finished := finished res |}).

Definition res_setHeader (key value : string) : Eff ServerResponse unit :=
  modify (fun res =>
    {| statusCode := statusCode res; sent_headers := <[key := value]> (sent_headers res);
       sent_body := sent_body res; finished := finished res |}).

Definition res_send (body : string) : Eff ServerResponse unit :=
  modify (fun res =>
    {| statusCode := statusCode res; sent_headers := sent_headers res;
       sent_body := Some body; finished := true |}).

Definition res_end : Eff ServerResponse unit :=
  modify (fun res =>
    {| statusCode := statusCode res; sent_headers := sent_headers res;
       sent_body := None; finished := true |}).

(** [Object.entries(headers).forEach(([key, value]) => res.setHeader(key, value))] *)
Fixpoint res_setHeaders (entries : list (string * string)) : Eff ServerResponse unit :=
  match entries with
  | [] => mret tt
  | (key, value) :: rest => res_setHeader key value;; res_setHeaders rest
  end.

(** A response nothing has been written to yet. *)
Definition fresh : ServerResponse :=
  {| statusCode := 200; sent_headers := ∅; sent_body := None; finished := false |}.

End Http.

(** ** The route cache

    [routeCache] and [refreshRoutes] read the same in both revisions of the
    router. *)

Module RouteCache.

Import JS Publishing.

Record Route := { contentId : string; documentType : string }.

(** The object [routeCache]: its own properties, and the route object an
    assignment to [__proto__] made its prototype, [None] while the
    prototype is [Object.prototype]. *)
Record Cache := {
  entries : gmap string Route;
  prototype : option Route
}.

#[export] Instance Cache_empty : Empty Cache := {| entries := ∅; prototype := None |}.

Inductive LogEntry :=
  | LogAttempt
  | LogRefreshed (count : nat)
  | LogRefreshFailed (message : string).

Record State := {
  routeCache : Cache;
  console : list LogEntry
}.

Definition log (entry : LogEntry) : Eff State unit :=
  modify (fun st =>
    {| routeCache := routeCache st; console := console st ++ [entry] |}).

Definition set_routeCache (cache : Cache) : Eff State unit :=
  modify (fun st => {| routeCache := cache; console := console st |}).

(** [Object.keys(routeCache).forEach(key => delete routeCache[key])]: the
    own properties go, the prototype stays. *)
Definition clear (cache : Cache) : Cache :=
  {| entries :=
       fold_left (fun entries key => delete key entries)
         (map fst (map_to_list (entries cache))) (entries cache);
     prototype := prototype cache |}.

(** [routeCache[path] = route]: an own property, except that assigning to
    [__proto__], when it is not an own property, replaces the prototype. *)
Definition assign (path : string) (route : Route) (cache : Cache) : Cache :=
  if String.eqb path "__proto__" && negb (bool_decide (is_Some (entries cache !! path)))
  then {| entries := entries cache; prototype := Some route |}
  else {| entries := <[path := route]> (entries cache); prototype := prototype cache |}.

(** Whether [routeCache[path]] is truthy: an own property is; else what
    the prototype chain gives, which is a non-empty field of the route
    object put there by an assignment to [__proto__], or a member of
    [Object.prototype]. *)
Definition found (cache : Cache) (path : string) : bool :=
  match entries cache !! path with
  | Some _ => true
  | None =>
      match prototype cache with
      | Some route =>
          if String.eqb path "contentId" then negb (String.eqb (contentId route) "")
          else if String.eqb path "documentType" then
            negb (String.eqb (documentType route) "")
          else inherited path
      | None => inherited path
      end
  end.

Definition populate (contents : list Content) (cache : Cache) : Cache :=
  fold_left
    (fun cache content =>
       assign (path content)
         {| contentId := _id content; documentType := document_type content |} cache)
    contents cache.

(** [refreshRoutes()], given what the publishing API answers. *)
Definition refreshRoutes (published_content : Settled (list Content)) : Eff State unit :=
  log LogAttempt;;
  try_catch
    (contents ← await published_content;
     st ← get_state;
     set_routeCache (clear (routeCache st));;
     st ← get_state;
     set_routeCache (populate contents (routeCache st));;
     st ← get_state;
     log (LogRefreshed (size (entries (routeCache st)))))
    (fun message => log (LogRefreshFailed message)).

End RouteCache.

(** ** The router, [router/index.js] *)

Module Router.

Import JS Http RouteCache.

Definition admin_validateStatus (status : Z) : bool :=
  (200 <=? status)%Z && (status <? 500)%Z.

(** The admin branch of the first middleware. *)
Definition admin_proxy (frontend : Upstream) (req : Request) : Eff ServerResponse unit :=
  try_catch
    (let targetUrl := "http://frontend:3001" ++ originalUrl req in
     let config_headers := <["host" := "frontend:3001"]> (req_headers req) in
     response ←
       (if String.eqb (method req) "GET" then
          await (axios admin_validateStatus
                   (frontend {| out_method := "GET"; out_url := targetUrl;
                                out_headers := config_headers;
                                out_payload := NoPayload |}))
        else if String.eqb (method req) "POST" then
          await (axios admin_validateStatus
                   (frontend {| out_method := "POST"; out_url := targetUrl;
                                out_headers := config_headers;
                                out_payload := Parsed (req_body req) |}))
        else throw "Cannot read properties of undefined (reading 'status')");
     res_status (status response);;
     res_setHeaders (map_to_list (headers response));;
     if (status response =? 304)%Z then res_end
     else res_send (data response))
    (fun _ => res_status 500;; res_send "Error processing admin request").

Definition get_plain (frontend : Upstream) (target : string) : Settled UpstreamResponse :=
  axios default_validateStatus
    (frontend {| out_method := "GET"; out_url := target; out_headers := ∅;
                 out_payload := NoPayload |}).

(** The handler of the wildcard [GET] route. *)
Definition get_path (frontend : Upstream) (routeCache : Cache) (req : Request)
  : Eff ServerResponse unit :=
  let path := default "" (params_path req) in
  if startsWith path "search" then
    try_catch
      (let query :=
         match query_q req with
         | Some q => if truthy q then "?q=" ++ encodeURIComponent (to_text q) else ""
         | None => ""
         end in
       response ← await (get_plain frontend ("http://frontend:3001/search" ++ query));
       res_send (data response))
      (fun _ => res_status 500;; res_send "Error processing search request")
  else if String.eqb path "" then
    try_catch
      (response ← await (get_plain frontend "http://frontend:3001/");
       res_send (data response))
      (fun _ => res_status 500;; res_send "Error processing homepage request")
  else
    if negb (found routeCache path) then
      try_catch
        (response ← await (get_plain frontend "http://frontend:3001/404");
         res_status 404;; res_send (data response))
        (fun _ => res_status 404;; res_send "Page not found")
    else
      try_catch
        (response ← await (get_plain frontend ("http://frontend:3001/" ++ path));
         res_send (data response))
        (fun _ => res_status 500;; res_send "Error processing content request").

(** Express's answer when no handler of the application takes the
    request. *)
Definition unhandled (req : Request) : Eff ServerResponse unit :=
  res_status 404;; res_send ("Cannot " ++ method req ++ " " ++ originalUrl req).

(** The application: the admin middleware first, then the [GET] route
    (which Express also gives [HEAD] requests). *)
Definition app (frontend : Upstream) (routeCache : Cache) (req : Request)
  : Eff ServerResponse unit :=
  if startsWith (originalUrl req) "/admin" then admin_proxy frontend req
  else if String.eqb (method req) "GET" || String.eqb (method req) "HEAD" then
    get_path frontend routeCache req
  else unhandled req.

End Router.

(** ** The router, revised draft

    The second revision of the router keeps the route cache and the admin
    middleware, re-encodes form posts, and replaces the [GET] handler by
    one that forwards every path. *)

Module Router2.

Import JS Http RouteCache.

Definition admin_validateStatus (status : Z) : bool :=
  (200 <=? status)%Z && (status <? 500)%Z.

(** [params.append(key, item)] for every value of every field. *)
Definition form_pairs (fields : list (string * FieldValue)) : list (string * string) :=
  flat_map
    (fun '(key, value) =>
       match value with
       | Many items => List.map (fun item => (key, item)) items
       | One v => [(key, v)]
       end)
    fields.

Definition admin_proxy (frontend : Upstream) (req : Request) : Eff ServerResponse unit :=
  try_catch
    (let targetUrl := "http://frontend:3001" ++ originalUrl req in
     let config_headers := <["host" := "frontend:3001"]> (req_headers req) in
     response ←
       (if String.eqb (method req) "GET" then
          await (axios admin_validateStatus
                   (frontend {| out_method := "GET"; out_url := targetUrl;
                                out_headers := config_headers;
                                out_payload := NoPayload |}))
        else if String.eqb (method req) "POST" then
          let contentType := default "" (req_headers req !! "content-type") in
          if includes contentType "application/x-www-form-urlencoded" then
            await (axios admin_validateStatus
                     (frontend {| out_method := "POST"; out_url := targetUrl;
                                  out_headers := config_headers;
                                  out_payload := SearchParams (form_pairs (req_body req)) |}))
          else
            await (axios admin_validateStatus
                     (frontend {| out_method := "POST"; out_url := targetUrl;
                                  out_headers := config_headers;
                                  out_payload := Parsed (req_body req) |}))
        else throw "Cannot read properties of undefined (reading 'status')");
     res_status (status response);;
     res_setHeaders (map_to_list (headers response));;
     if (status response =? 304)%Z then res_end
     else res_send (data response))
    (fun _ => res_status 500;; res_send "Error processing admin request").

Definition targetUrl_of (req : Request) : string :=
  let path := default "" (params_path req) in
  if String.eqb path "" then "http://frontend:3001/"
  else if startsWith path "search" then
    let queryString :=
      if includes (url req) "?" then
        substring (url req) (Z.to_nat (indexOf (url req) "?")) (String.length (url req))
      else "" in
    "http://frontend:3001/search" ++ queryString
  else "http://frontend:3001/" ++ path.

(** The handler of the wildcard [GET] route; it does not read
    [routeCache]. *)
Definition get_path (frontend : Upstream) (req : Request) : Eff ServerResponse unit :=
  let targetUrl := targetUrl_of req in
  try_catch
    (response ←
       await (axios (fun _ => true)
                (frontend {| out_method := "GET"; out_url := targetUrl;
                             out_headers := ∅; out_payload := NoPayload |}));
     res_status (status response);;
     match headers response !! "content-type" with
     | Some value =>
         if String.eqb value "" then mret tt else res_setHeader "Content-Type" value
     | None => mret tt
     end;;
     res_send (data response))
    (fun _ => res_status 500;; res_send "Service communication error").

Definition app (frontend : Upstream) (routeCache : Cache) (req : Request)
  : Eff ServerResponse unit :=
  if startsWith (originalUrl req) "/admin" then admin_proxy frontend req
  else if String.eqb (method req) "GET" || String.eqb (method req) "HEAD" then
    get_path frontend req
  else Router.unhandled req.

End Router2.

(** ** Tokens as runs of word characters

    A second reading of the tokenizer, to compare [tokenizeText] with: cut
    the lower-cased text at every character that is not a word character
    and keep the pieces longer than one character. *)

Module Runs.

Import JS.

Fixpoint pieces (sep : ascii -> bool) (s : string) : list string :=
  match s with
  | EmptyString => [EmptyString]
  | String c s' =>
      if sep c then EmptyString :: pieces sep s'
      else cons_head c (pieces sep s')
  end.

Definition long (piece : string) : bool := (1 <? String.length piece)%nat.

Definition word_runs (text : string) : list string :=
  List.filter long (pieces (fun c => negb (is_word_char c)) (toLowerCase text)).

Definition chars (s : string) : list ascii := list_ascii_of_string s.

(** A token character: a lower-case letter, a digit or the underscore. *)
Definition is_token_char (c : ascii) : bool :=
  is_word_char c && negb (is_upper c).

End Runs.

(** ** The index and its documents *)

Module Invariants.

Import JS Publishing SearchApi.

Definition empty_index : SearchIndex := {| documents := ∅; tokenizedIndex := ∅ |}.

(** The set of ids listed under a token, empty when the token has no
    entry of its own. *)
Definition postings (index : gmap string (list string)) (token : string) : list string :=
  default [] (index !! token).

(** No entry holds an empty set, and no set lists an id twice. *)
Definition well_formed (index : gmap string (list string)) : Prop :=
  forall token ids, index !! token = Some ids -> ids <> [] /\ List.NoDup ids.

(** The index agrees with the stored documents. *)
Record consistent (idx : SearchIndex) : Prop := {
  stored_lower :
    forall id doc, documents idx !! id = Some doc ->
      toLowerCase (doc_text doc) = doc_text doc /\ doc_id doc = id;
  posted_iff :
    forall token id,
      In id (postings (tokenizedIndex idx) token) <->
      exists doc, documents idx !! id = Some doc /\ In token (tokenizeText (doc_text doc));
  index_well_formed : well_formed (tokenizedIndex idx)
}.

(** The half of [consistent] that an indexing run keeps also when a throw
    cuts it short: a listed id has a document whose text has the token. *)
Record sound (idx : SearchIndex) : Prop := {
  sound_lower :
    forall id doc, documents idx !! id = Some doc ->
      toLowerCase (doc_text doc) = doc_text doc /\ doc_id doc = id;
  sound_posted :
    forall token id,
      In id (postings (tokenizedIndex idx) token) ->
      exists doc, documents idx !! id = Some doc /\ In token (tokenizeText (doc_text doc));
  sound_well_formed : well_formed (tokenizedIndex idx)
}.

(** Neither dictionary has an own property named like an inherited
    member. *)
Definition no_inherited_keys (idx : SearchIndex) : Prop :=
  forall key, inherited key = true ->
    documents idx !! key = None /\ tokenizedIndex idx !! key = None.

(** A content item whose id and tokens name no inherited member. *)
Definition plain (content : Content) : bool :=
  negb (inherited (_id content))
  && forallb (fun token => negb (inherited token)) (tokenizeText (searchableText content)).

(** The states the service can be in: it starts with an empty index, and
    only the two timer jobs write to it. *)
Inductive reachable : State -> Prop :=
  | reachable_initial : reachable initial
  | reachable_build w st :
      reachable st -> reachable (snd (buildSearchIndex w st))
  | reachable_update w st :
      reachable st -> reachable (snd (incrementalIndexUpdate w st)).

(** What one query token adds to the relevance of a document with the
    given lower-cased title and text. *)
Definition token_score (titleText text token : string) : Z :=
  ((if includes titleText token
    then 3 + (if startsWith titleText token then 2 else 0)
    else 0)
   + (if includes text token then 1 else 0))%Z.

Definition sum_Z (l : list Z) : Z := fold_right Z.add 0%Z l.


End Invariants.

(** ** Indexing on the finite maps

    What the loops of [indexDocument] compute when no lookup meets an
    inherited member, as functions on the own properties. *)

Module IndexMaps.

Import JS Publishing SearchApi.

(** An entry without an id, dropped when nothing remains. *)
Definition prune_token (id : string) (index : gmap string (list string)) (token : string)
  : gmap string (list string) :=
  match index !! token with
  | Some ids =>
      let ids := remove id ids in
      if (List.length ids =? 0)%nat then delete token index
      else <[token := ids]> index
  | None => index
  end.

(** An entry with an id added, made when there was none. *)
Definition list_token (id : string) (index : gmap string (list string)) (token : string)
  : gmap string (list string) :=
  <[token := add id (default [] (index !! token))]> index.

Definition indexed (content : Content) (idx : SearchIndex) : SearchIndex :=
  let text := searchableText content in
  let tokenized :=
    match documents idx !! _id content with
    | Some old =>
        fold_left (prune_token (_id content)) (tokenizeText (doc_text old))
          (tokenizedIndex idx)
    | None => tokenizedIndex idx
    end in
  {| documents :=
       <[_id content :=
           {| doc_id := _id content;
              doc_path := path content;
              doc_title := title content;
              doc_type := document_type content;
              doc_text := toLowerCase text;
              doc_updatedAt := updatedAt content |}]> (documents idx);
     tokenizedIndex :=
       fold_left (list_token (_id content)) (Set_of (tokenizeText text)) tokenized |}.

Definition indexed_all (contents : list Content) (idx : SearchIndex) : SearchIndex :=
  fold_left (fun idx content => indexed content idx) contents idx.

End IndexMaps.

(** ** Integers as doubles *)

Module Doubles.

Import JS.

(** [x] is what double arithmetic makes of the integer [z]: [z] itself
    while its magnitude is below [2^53], and beyond that a double, maybe an
    infinite one, that lies at least [2^53] from zero on the same side. *)
Definition near (x : Number) (z : Z) : Prop :=
  ((Z.abs z < 2 ^ 53)%Z /\ x = Integer z)
  \/ ((2 ^ 53 <= z)%Z /\
      (x = Infinity false \/ exists v, x = Integer v /\ (2 ^ 53 <= v)%Z))
  \/ ((z <= - 2 ^ 53)%Z /\
      (x = Infinity true \/ exists v, x = Integer v /\ (v <= - 2 ^ 53)%Z)).

End Doubles.

(** ** What the router sends and answers *)

Module Relay.

Import JS Http RouteCache.

(** The request a [GET] handler sends to the frontend. *)
Definition get_request (target : string) : Outbound :=
  {| out_method := "GET"; out_url := target; out_headers := ∅; out_payload := NoPayload |}.

Definition proxied_headers (req : Request) : gmap string string :=
  <["host" := "frontend:3001"]> (req_headers req).

(** The request the admin branch of [router/index.js] sends, if any. *)
Definition admin_request (req : Request) : option Outbound :=
  if String.eqb (method req) "GET" then
    Some {| out_method := "GET"; out_url := "http://frontend:3001" ++ originalUrl req;
            out_headers := proxied_headers req; out_payload := NoPayload |}
  else if String.eqb (method req) "POST" then
    Some {| out_method := "POST"; out_url := "http://frontend:3001" ++ originalUrl req;
            out_headers := proxied_headers req; out_payload := Parsed (req_body req) |}
  else None.

(** The request the admin branch of the revised router sends, if any. *)
Definition admin_request2 (req : Request) : option Outbound :=
  if String.eqb (method req) "GET" then
    Some {| out_method := "GET"; out_url := "http://frontend:3001" ++ originalUrl req;
            out_headers := proxied_headers req; out_payload := NoPayload |}
  else if String.eqb (method req) "POST" then
    if includes (default "" (req_headers req !! "content-type"))
         "application/x-www-form-urlencoded"
    then
      Some {| out_method := "POST"; out_url := "http://frontend:3001" ++ originalUrl req;
              out_headers := proxied_headers req;
              out_payload := SearchParams (Router2.form_pairs (req_body req)) |}
    else
      Some {| out_method := "POST"; out_url := "http://frontend:3001" ++ originalUrl req;
              out_headers := proxied_headers req; out_payload := Parsed (req_body req) |}
  else None.

(** The headers after one [setHeader] per entry. *)
Definition set_all (entries : list (string * string)) (h : gmap string string)
  : gmap string string :=
  fold_left (fun h entry => <[fst entry := snd entry]> h) entries h.

(** The response the admin branch leaves when the frontend's answer is
    accepted. *)
Definition relayed (response : UpstreamResponse) (res : ServerResponse) : ServerResponse :=
  {| statusCode := status response;
     sent_headers := set_all (map_to_list (headers response)) (sent_headers res);
     sent_body := if (status response =? 304)%Z then None else Some (data response);
     finished := true |}.

Definition sent (code : Z) (body : string) (res : ServerResponse) : ServerResponse :=
  {| statusCode := code; sent_headers := sent_headers res; sent_body := Some body;
     finished := true |}.

(** The response the revised [GET] handler leaves for an answer of the
    frontend. *)
Definition forwarded (response : UpstreamResponse) (res : ServerResponse) : ServerResponse :=
  {| statusCode := status response;
     sent_headers :=
       match headers response !! "content-type" with
       | Some value =>
           if String.eqb value "" then sent_headers res
           else <["Content-Type" := value]> (sent_headers res)
       | None => sent_headers res
       end;
     sent_body := Some (data response);
     finished := true |}.

End Relay.

(** ** Worked inputs *)

Module Examples.

Import JS Publishing SearchApi Invariants.

(** A published simple page; its searchable text is the title, a space
    and the body. *)
Definition simple_page (id title body : string) : Content :=
  {| _id := id; path := id; title := title; document_type := "simple-page";
     body := body; introduction := ""; parts := []; state := "published";
     updatedAt := 0 |}.

Definition query (text : string) : SearchQuery :=
  {| q := Some (Text text); page := None; pageSize := None; type := None |}.

(** The ids of the results of a response, in order. *)
Definition hit_ids (c : Completion SearchResponse) : Completion (list string) :=
  match c with
  | Normal resp => Normal (List.map res_id (results resp))
  | Throw e => Throw e
  end.

Definition alpha_beta : Content := simple_page "D" "alpha" "beta".
Definition gamma : Content := simple_page "D" "gamma" "".

(** A page whose title is a word that names a member every object
    inherits. *)
Definition constructor_notes : Content := simple_page "D" "constructor" "notes".

Definition apple_pie : Content := simple_page "D1" "apple" "pie".
Definition apple_sauce : Content := simple_page "D2" "apple" "sauce".
Definition apples : SearchIndex := snd (indexAll [apple_pie; apple_sauce] empty_index).





(** One document with the query word in its title and one with the word
    in its body only, the latter indexed first. *)
Definition crumble : Content := simple_page "B" "Dessert" "apple crumble".
Definition tart : Content := simple_page "A" "Apple tart" "recipe".
Definition desserts : SearchIndex := snd (indexAll [crumble; tart] empty_index).

Definition stored (content : Content) : IndexedDocument :=
  {| doc_id := _id content; doc_path := path content; doc_title := title content;
     doc_type := document_type content;
     doc_text := toLowerCase (searchableText content);
     doc_updatedAt := updatedAt content |}.

(** The service after one full build at time 100, and a later run at time
    200 in which the publishing API lists one document that has not
    changed since and one newer draft. *)
Definition first_world : World :=
  {| published_content := Resolved [apple_pie; apple_sauce];
     all_content := Resolved [apple_pie; apple_sauce];
     now := 100 |}.

Definition built : State := snd (buildSearchIndex first_world initial).

Definition draft : Content :=
  {| _id := "D3"; path := "D3"; title := "plum"; document_type := "simple-page";
     body := "jam"; introduction := ""; parts := []; state := "draft";
     updatedAt := 150 |}.

Definition quiet_world : World :=
  {| published_content := Resolved [apple_pie; apple_sauce];
     all_content := Resolved [apple_pie; apple_sauce; draft];
     now := 200 |}.

Definition fresh_pie : Content :=
  {| _id := "D1"; path := "D1"; title := "apple"; document_type := "simple-page";
     body := "strudel"; introduction := ""; parts := []; state := "published";
     updatedAt := 150 |}.

Definition busy_world : World :=
  {| published_content := Resolved [fresh_pie; apple_sauce];
     all_content := Resolved [fresh_pie; apple_sauce; draft];
     now := 200 |}.

End Examples.

Module RouterExamples.

Import JS Http RouteCache.

(** A frontend that gives every request the same answer. *)
Definition answers (status : Z) (headers : gmap string string) (data : string) : Upstream :=
  fun _ => Answered {| status := status; headers := headers; data := data |}.

(** [GET /about] *)
Definition get_about : Request :=
  {| method := "GET"; originalUrl := "/about"; url := "/about";
     params_path := Some "about"; query_q := None; req_headers := ∅; req_body := [] |}.

(** [GET /admin] *)
Definition get_admin : Request :=
  {| method := "GET"; originalUrl := "/admin"; url := "/admin";
     params_path := None; query_q := None; req_headers := ∅; req_body := [] |}.

Definition about_cached : Cache :=
  {| entries := {["about" := {| contentId := "c1"; documentType := "simple-page" |}]};
     prototype := None |}.

Definition etag : gmap string string := {["etag" := "W/abc"]}.

End RouterExamples.

(** ** The searchable fields of a content item *)

Module Fields.

Import JS Publishing SearchApi.

(** The tokens of one part of a guide. *)
Definition part_tokens (part : Part) : list string :=
  (tokenizeText (part_title part) ++ tokenizeText (part_body part))%list.

(** The tokens of the fields that [indexDocument] reads for the document
    type, after those of the title. *)
Definition field_tokens (content : Content) : list string :=
  if String.eqb (document_type content) "simple-page" then tokenizeText (body content)
  else if String.eqb (document_type content) "guide" then
    (tokenizeText (introduction content) ++ flat_map part_tokens (parts content))%list
  else [].

(** An entry of the token index after an id is taken out of it: the
    remaining set, or no entry when nothing remains. *)
Definition pruned (id : string) (entry : option (list string)) : option (list string) :=
  match entry with
  | Some ids =>
      if (List.length (remove id ids) =? 0)%nat then None else Some (remove id ids)
  | None => None
  end.

(** The document [indexDocument] stores for a content item. *)
Definition document_of (content : Content) : IndexedDocument :=
  {| doc_id := _id content; doc_path := path content; doc_title := title content;
     doc_type := document_type content;
     doc_text := toLowerCase (searchableText content);
     doc_updatedAt := updatedAt content |}.

(** The last item of a listing that carries the given id. *)
Definition latest (id : string) (contents : list Content) : option Content :=
  List.find (fun content => String.eqb (_id content) id) (rev contents).

End Fields.

(** ** More requests *)

Module MoreRequests.

Import JS Publishing Http RouteCache Relay.

(** A form post to [/admin/save/guide] with two part titles. *)
Definition save_guide : Request :=
  {| method := "POST"; originalUrl := "/admin/save/guide"; url := "/admin/save/guide";
     params_path := None; query_q := None;
     req_headers := {["content-type" := "application/x-www-form-urlencoded"]};
     req_body := [("title", One "Tax"); ("partTitles", Many ["Rates"; "Dates"])] |}.

(** [DELETE /admin/old] *)
Definition delete_admin : Request :=
  {| method := "DELETE"; originalUrl := "/admin/old"; url := "/admin/old";
     params_path := None; query_q := None; req_headers := ∅; req_body := [] |}.

(** [GET /search?q=tax&page=2] *)
Definition get_search : Request :=
  {| method := "GET"; originalUrl := "/search?q=tax&page=2"; url := "/search?q=tax&page=2";
     params_path := Some "search"; query_q := Some (Text "tax"); req_headers := ∅;
     req_body := [] |}.

(** A frontend that cannot be reached. *)
Definition down : Upstream := fun _ => Unreachable "connect ECONNREFUSED".

(** A frontend that answers with the URL it was asked for. *)
Definition echo : Upstream :=
  fun out => Answered {| status := 200; headers := ∅; data := out_url out |}.

Definition old_cache : RouteCache.State :=
  {| routeCache :=
       {| entries := {["gone" := {| contentId := "c0"; documentType := "guide" |}]};
          prototype := None |};
     console := [] |}.

(** The route the last item of a listing with the given path stands
    for. *)
Definition route_of (content : Content) : Route :=
  {| contentId := _id content; documentType := document_type content |}.

Definition listed_route (path : string) (contents : list Content) : option Route :=
  route_of <$>
  List.find (fun content => String.eqb (Publishing.path content) path) (rev contents).

Definition listed (id path : string) : Content :=
  {| _id := id; Publishing.path := path; title := "t"; document_type := "simple-page";
     body := "b"; introduction := ""; parts := []; state := "published"; updatedAt := 0 |}.

End MoreRequests.

(** ** What the admin branch makes of an exchange *)

Module Forwarding.

Import JS Http Relay.

(** The response for what the frontend did with the forwarded request. *)
Definition admin_outcome (x : Exchange) (res : ServerResponse) : ServerResponse :=
  match x with
  | Answered response =>
      if Router.admin_validateStatus (status response) then relayed response res
      else sent 500 "Error processing admin request" res
  | Unreachable _ => sent 500 "Error processing admin request" res
  end.

(** The values a parsed field carries. *)
Definition values_of (value : FieldValue) : list string :=
  match value with
  | One v => [v]
  | Many items => items
  end.

(** The values the fields give for one key, in order. *)
Definition values_for (key : string) (fields : list (string * FieldValue)) : list string :=
  flat_map (fun '(k, value) => if String.eqb k key then values_of value else []) fields.

(** The values the pairs give for one key, in order. *)
Definition pairs_for (key : string) (pairs : list (string * string)) : list string :=
  List.map snd (List.filter (fun '(k, _) => String.eqb k key) pairs).

End Forwarding.

(** * Properties *)

(** ** Characters and strings *)

Section StringFacts.

Import JS.

Local Ltac by_cases_on c :=
  destruct c as [[] [] [] [] [] [] [] []]; vm_compute; try reflexivity; try discriminate.

Lemma lower_char_idem c : lower_char (lower_char c) = lower_char c.
Proof. by_cases_on c. Qed.

Lemma toLowerCase_idem s : toLowerCase (toLowerCase s) = toLowerCase s.
Proof.
  unfold toLowerCase. induction s as [|c s IH]; simpl; [reflexivity|].
  now rewrite lower_char_idem, IH.
Qed.

Lemma space_after_replace c :
  is_space_char (replace_nonword_char c) = negb (is_word_char c).
Proof. by_cases_on c. Qed.

Lemma replace_word_char c : is_word_char c = true -> replace_nonword_char c = c.
Proof. by_cases_on c. Qed.

Lemma word_char_lower_not_upper c :
  is_word_char (lower_char c) = true -> is_upper (lower_char c) = false.
Proof. by_cases_on c. Qed.

Lemma append_cons c (s t : string) : String c s ++ t = String c (s ++ t).
Proof. reflexivity. Qed.

Lemma append_nil (t : string) : EmptyString ++ t = t.
Proof. reflexivity. Qed.

Lemma map_string_app f s t :
  map_string f (s ++ t) = map_string f s ++ map_string f t.
Proof.
  induction s as [|c s IH]; [reflexivity|].
  rewrite append_cons. simpl. rewrite append_cons. f_equal. exact IH.
Qed.

Lemma toLowerCase_app s t : toLowerCase (s ++ t) = toLowerCase s ++ toLowerCase t.
Proof. apply map_string_app. Qed.

Lemma string_app_assoc (s t u : string) : (s ++ t) ++ u = s ++ (t ++ u).
Proof.
  induction s as [|c s IH]; [reflexivity|].
  rewrite !append_cons. f_equal. exact IH.
Qed.

Lemma startsWith_app t b : startsWith (t ++ b) t = true.
Proof.
  induction t as [|c t IH]; [reflexivity|].
  rewrite append_cons. simpl. now rewrite Ascii.eqb_refl.
Qed.

Lemma startsWith_inv s t : startsWith s t = true -> exists b, s = t ++ b.
Proof.
  revert s. induction t as [|c t IH]; intros s H.
  - exists s. reflexivity.
  - destruct s as [|a s]; simpl in H; [discriminate|].
    destruct (Ascii.eqb a c) eqn:E; [|discriminate].
    apply Ascii.eqb_eq in E. subst a.
    destruct (IH _ H) as [b ->]. exists b. reflexivity.
Qed.

Lemma startsWith_includes s t : startsWith s t = true -> includes s t = true.
Proof. intros H. destruct s; simpl; rewrite H; reflexivity. Qed.

Lemma includes_app a t b : includes (a ++ t ++ b) t = true.
Proof.
  induction a as [|c a IH].
  - rewrite append_nil. apply startsWith_includes, startsWith_app.
  - rewrite append_cons. simpl. rewrite IH. apply orb_true_r.
Qed.

Lemma includes_inv s t : includes s t = true -> exists a b, s = a ++ t ++ b.
Proof.
  induction s as [|c s IH]; simpl; intros H.
  - rewrite orb_false_r in H. destruct (startsWith_inv _ _ H) as [b Hb].
    exists EmptyString, b. exact Hb.
  - apply orb_true_iff in H as [H|H].
    + destruct (startsWith_inv _ _ H) as [b Hb]. exists EmptyString, b. exact Hb.
    + destruct (IH H) as (a & b & ->). exists (String c a), b. reflexivity.
Qed.

(** [includes] is the substring test. *)
Lemma includes_iff s t : includes s t = true <-> exists a b, s = a ++ t ++ b.
Proof.
  split; [apply includes_inv|]. intros (a & b & ->). apply includes_app.
Qed.

End StringFacts.

(** ** The tokenizer *)

Section TokenizerFacts.

Import JS Runs SearchApi.

Lemma split_ws_head_space s :
  starts_with_space s = true -> exists t, split_ws s = EmptyString :: t.
Proof.
  induction s as [|c s IH]; simpl; [discriminate|].
  intros ->. destruct (starts_with_space s) eqn:E.
  - apply IH. reflexivity.
  - eexists. reflexivity.
Qed.

Lemma split_ws_replace_pieces s :
  exists h t1 t2,
    split_ws (replace_nonword s) = h :: t1 /\
    pieces (fun c => negb (is_word_char c)) s = h :: t2 /\
    List.filter long t1 = List.filter long t2.
Proof.
  induction s as [|c s (h & t1 & t2 & H1 & H2 & H3)]; simpl.
  - exists EmptyString, [], []. repeat split.
  - rewrite space_after_replace. destruct (is_word_char c) eqn:Ew; simpl.
    + rewrite (replace_word_char c Ew).
      fold (replace_nonword s). rewrite H1, H2. simpl.
      exists (String c h), t1, t2. repeat split. exact H3.
    + fold (replace_nonword s). rewrite H2.
      destruct (starts_with_space (replace_nonword s)) eqn:Es.
      * destruct (split_ws_head_space _ Es) as [t Ht].
        rewrite H1 in Ht. injection Ht as -> ->.
        exists EmptyString, t, (EmptyString :: t2). repeat split; [exact H1|].
        simpl. exact H3.
      * rewrite H1. exists EmptyString, (h :: t1), (h :: t2). repeat split.
        simpl. rewrite H3. reflexivity.
Qed.

(** The tokens are the runs of word characters of the lower-cased text
    that are longer than one character. *)
Lemma tokenizeText_word_runs text : tokenizeText text = word_runs text.
Proof.
  unfold tokenizeText, word_runs.
  destruct (split_ws_replace_pieces (toLowerCase text)) as (h & t1 & t2 & -> & -> & H).
  simpl. fold long. rewrite H. reflexivity.
Qed.

Lemma tokenizeText_toLowerCase text :
  tokenizeText (toLowerCase text) = tokenizeText text.
Proof. unfold tokenizeText. rewrite toLowerCase_idem. reflexivity. Qed.

Lemma pieces_shape sep s :
  exists h t, pieces sep s = h :: t /\
    (exists b, s = h ++ b) /\
    (forall x, In x t -> exists a b, s = a ++ x ++ b).
Proof.
  induction s as [|c s (h & t & E & [b Hb] & Ht)]; simpl.
  - exists EmptyString, []. split; [reflexivity|]. split; [exists EmptyString; reflexivity|].
    intros x [].
  - destruct (sep c).
    + exists EmptyString, (pieces sep s). split; [reflexivity|].
      split; [eexists; reflexivity|].
      intros x Hx. rewrite E in Hx. destruct Hx as [<-|Hx].
      * exists (String c EmptyString), b. rewrite Hb at 1. reflexivity.
      * destruct (Ht x Hx) as (a & b' & Hs). exists (String c a), b'.
        rewrite append_cons. f_equal. exact Hs.
    + rewrite E. simpl. exists (String c h), t. split; [reflexivity|].
      split.
      * exists b. rewrite append_cons. f_equal. exact Hb.
      * intros x Hx. destruct (Ht x Hx) as (a & b' & Hs). exists (String c a), b'.
        rewrite append_cons. f_equal. exact Hs.
Qed.

Lemma pieces_substring sep s x : In x (pieces sep s) -> includes s x = true.
Proof.
  destruct (pieces_shape sep s) as (h & t & -> & [b Hb] & Ht).
  intros [<-|Hx]; apply includes_iff.
  - exists EmptyString, b. exact Hb.
  - apply Ht, Hx.
Qed.

Lemma pieces_chars (P : ascii -> Prop) sep s x :
  Forall P (chars s) -> In x (pieces sep s) ->
  Forall (fun c => P c /\ sep c = false) (chars x).
Proof.
  revert x. induction s as [|c s IH]; simpl; intros x HP Hx.
  - destruct Hx as [<-|[]]. constructor.
  - inversion HP as [|? ? Hc Hs]; subst.
    destruct (sep c) eqn:Ec.
    + destruct Hx as [<-|Hx]; [constructor|]. apply IH; assumption.
    + destruct (pieces sep s) as [|h t] eqn:E; simpl in Hx.
      * destruct Hx as [<-|[]]. repeat constructor; assumption.
      * destruct Hx as [<-|Hx].
        -- simpl. constructor; [split; assumption|]. apply IH; [assumption|now left].
        -- apply IH; [assumption|now right].
Qed.

Lemma chars_toLowerCase s :
  Forall (fun c => exists c0, c = lower_char c0) (chars (toLowerCase s)).
Proof.
  induction s as [|c s IH]; simpl; constructor; [eexists; reflexivity|exact IH].
Qed.

Lemma token_in_runs text token :
  In token (tokenizeText text) <->
  In token (pieces (fun c => negb (is_word_char c)) (toLowerCase text)) /\
  (2 <= String.length token)%nat.
Proof.
  rewrite tokenizeText_word_runs. unfold word_runs, long. rewrite filter_In.
  rewrite Nat.ltb_lt. reflexivity.
Qed.

(** A token occurs in the lower-cased text it was cut from. *)
Lemma token_includes text token :
  In token (tokenizeText text) -> includes (toLowerCase text) token = true.
Proof.
  intros H. apply token_in_runs in H as [H _]. eapply pieces_substring, H.
Qed.

Lemma token_length text token :
  In token (tokenizeText text) -> (2 <= String.length token)%nat.
Proof. intros H. apply token_in_runs in H as [_ H]. exact H. Qed.

Lemma token_chars text token :
  In token (tokenizeText text) ->
  Forall (fun c => is_token_char c = true) (chars token).
Proof.
  intros H. apply token_in_runs in H as [H _].
  eapply pieces_chars in H; [|apply chars_toLowerCase].
  eapply List.Forall_impl; [|exact H]. simpl.
  intros c [[c0 ->] Hw]. unfold is_token_char.
  apply negb_false_iff in Hw. rewrite Hw.
  rewrite (word_char_lower_not_upper _ Hw). reflexivity.
Qed.

End TokenizerFacts.

(** ** Sets in insertion order *)

Section SetFacts.

Import JS.

Lemma has_In s x : has s x = true <-> In x s.
Proof.
  unfold has. rewrite existsb_exists. split.
  - intros (y & Hy & E). apply String.eqb_eq in E. now subst.
  - intros H. exists x. split; [exact H|apply String.eqb_refl].
Qed.

Lemma In_add x s y : In y (add x s) <-> y = x \/ In y s.
Proof.
  unfold add. destruct (has s x) eqn:E.
  - apply has_In in E. split; [now right|]. intros [->|H]; assumption.
  - rewrite in_app_iff. simpl. intuition.
Qed.

Lemma In_remove x s y : In y (remove x s) <-> In y s /\ y <> x.
Proof.
  unfold remove. rewrite filter_In, negb_true_iff, String.eqb_neq. reflexivity.
Qed.

Lemma NoDup_add x s : List.NoDup s -> List.NoDup (add x s).
Proof.
  intros H. unfold add. destruct (has s x) eqn:E; [exact H|].
  assert (~ In x s) as Hx by (rewrite <- has_In, E; discriminate).
  clear E. induction H as [|y s Hy Hs IH]; simpl.
  - constructor; [intros []|constructor].
  - constructor.
    + rewrite in_app_iff. simpl. intros [H|[->|[]]]; [tauto|]. apply Hx. now left.
    + apply IH. intros H. apply Hx. now right.
Qed.

Lemma NoDup_remove x s : List.NoDup s -> List.NoDup (remove x s).
Proof. apply List.NoDup_filter. Qed.

Lemma add_not_nil x s : add x s <> [].
Proof.
  unfold add. destruct (has s x) eqn:E.
  - apply has_In in E. destruct s; [destruct E|discriminate].
  - destruct s; discriminate.
Qed.

Lemma Set_of_spec a :
  List.NoDup (Set_of a) /\ forall y, In y (Set_of a) <-> In y a.
Proof.
  unfold Set_of.
  assert (forall s, List.NoDup s ->
            List.NoDup (fold_left (fun s x => add x s) a s) /\
            forall y, In y (fold_left (fun s x => add x s) a s) <-> In y s \/ In y a) as H.
  { induction a as [|x a IH]; simpl; intros s Hs.
    - split; [exact Hs|]. intros y. tauto.
    - destruct (IH (add x s) (NoDup_add x s Hs)) as [H1 H2]. split; [exact H1|].
      intros y. rewrite H2, In_add. intuition. }
  destruct (H [] (List.NoDup_nil _)) as [H1 H2]. split; [exact H1|].
  intros y. rewrite H2. simpl. tauto.
Qed.

End SetFacts.

(** ** The inverted index *)

Section IndexFacts.

Import JS Publishing SearchApi Invariants IndexMaps.

Implicit Types (index : gmap string (list string)) (idx : SearchIndex).

Lemma postings_prune_token id index t token id' :
  In id' (postings (prune_token id index t) token) <->
  In id' (postings index token) /\ ~ (id' = id /\ token = t).
Proof.
  unfold prune_token, postings.
  destruct (index !! t) as [ids|] eqn:E.
  - destruct (List.length (remove id ids) =? 0)%nat eqn:El.
    + apply Nat.eqb_eq, length_zero_iff_nil in El.
      destruct (decide (t = token)) as [->|Hne].
      * rewrite lookup_delete_eq, E. simpl. split; [intros []|].
        intros [Hin Hn]. assert (In id' (remove id ids)) as H.
        { apply In_remove. split; [exact Hin|]. intros ->. apply Hn. now split. }
        rewrite El in H. destruct H.
      * rewrite lookup_delete_ne by exact Hne. split; [|tauto].
        intros H. split; [exact H|]. intros [_ ->]. now apply Hne.
    + destruct (decide (t = token)) as [->|Hne].
      * rewrite lookup_insert_eq, E. simpl. rewrite In_remove. tauto.
      * rewrite lookup_insert_ne by exact Hne. split; [|tauto].
        intros H. split; [exact H|]. intros [_ ->]. now apply Hne.
  - split; [|tauto]. intros H. split; [exact H|]. intros [_ ->].
    rewrite E in H. destruct H.
Qed.

Lemma postings_prune_tokens id toks index token id' :
  In id' (postings (fold_left (prune_token id) toks index) token) <->
  In id' (postings index token) /\ ~ (id' = id /\ In token toks).
Proof.
  revert index. induction toks as [|t toks IH]; simpl; intros index.
  - tauto.
  - rewrite IH, postings_prune_token. intuition congruence.
Qed.

Lemma postings_list_token id index t token id' :
  In id' (postings (list_token id index t) token) <->
  In id' (postings index token) \/ (id' = id /\ token = t).
Proof.
  unfold list_token, postings.
  destruct (decide (t = token)) as [->|Hne].
  - rewrite lookup_insert_eq. simpl. rewrite In_add. tauto.
  - rewrite lookup_insert_ne by exact Hne. split; [tauto|].
    intros [H|[_ ->]]; [exact H|]. now contradiction Hne.
Qed.

Lemma postings_list_tokens id toks index token id' :
  In id' (postings (fold_left (list_token id) toks index) token) <->
  In id' (postings index token) \/ (id' = id /\ In token toks).
Proof.
  revert index. induction toks as [|t toks IH]; simpl; intros index.
  - tauto.
  - rewrite IH, postings_list_token. intuition congruence.
Qed.

Lemma well_formed_prune_token id index t :
  well_formed index -> well_formed (prune_token id index t).
Proof.
  intros Hwf token ids. unfold prune_token.
  destruct (index !! t) as [old|] eqn:E; [|apply Hwf].
  destruct (List.length (remove id old) =? 0)%nat eqn:El.
  - intros H. apply lookup_delete_Some in H as [_ H]. apply (Hwf _ _ H).
  - intros H. apply lookup_insert_Some in H as [[_ <-]|[_ H]]; [|apply (Hwf _ _ H)].
    split.
    + intros Hnil. rewrite Hnil in El. discriminate.
    + apply NoDup_remove. apply (Hwf _ _ E).
Qed.

Lemma well_formed_list_token id index t :
  well_formed index -> well_formed (list_token id index t).
Proof.
  intros Hwf token ids. unfold list_token. intros H.
  apply lookup_insert_Some in H as [[_ <-]|[_ H]]; [|apply (Hwf _ _ H)].
  split; [apply add_not_nil|]. apply NoDup_add.
  destruct (index !! t) as [old|] eqn:E; simpl; [apply (Hwf _ _ E)|constructor].
Qed.

Lemma well_formed_fold (f : gmap string (list string) -> string -> gmap string (list string))
    toks index :
  (forall index t, well_formed index -> well_formed (f index t)) ->
  well_formed index -> well_formed (fold_left f toks index).
Proof.
  intros Hf. revert index. induction toks as [|t toks IH]; simpl; intros index H.
  - exact H.
  - apply IH, Hf, H.
Qed.

Lemma consistent_empty : consistent {| documents := ∅; tokenizedIndex := ∅ |}.
Proof.
  split; simpl.
  - intros id doc H. rewrite lookup_empty in H. discriminate.
  - intros token id. unfold postings. rewrite lookup_empty. simpl.
    split; [intros []|]. intros (doc & H & _). rewrite lookup_empty in H. discriminate.
  - intros token ids H. rewrite lookup_empty in H. discriminate.
Qed.

Lemma consistent_sound idx : consistent idx -> sound idx.
Proof.
  intros [Hl Hp Hwf]. split; [exact Hl| |exact Hwf].
  intros token id H. apply Hp, H.
Qed.

(** Right after a content item is indexed, its id is listed under exactly
    the tokens of its searchable text. *)
Lemma indexed_postings content idx token :
  sound idx ->
  In (_id content) (postings (tokenizedIndex (indexed content idx)) token) <->
  In token (tokenizeText (searchableText content)).
Proof.
  intros [Hl Hp Hwf]. unfold indexed. simpl.
  rewrite postings_list_tokens.
  destruct (Set_of_spec (tokenizeText (searchableText content))) as [_ HS].
  rewrite HS. split; [|now right].
  intros [H|[_ H]]; [|exact H]. exfalso.
  destruct (documents idx !! _id content) as [old|] eqn:E.
  - apply postings_prune_tokens in H as [H Hn]. apply Hn. split; [reflexivity|].
    apply Hp in H as (doc & Hd & Ht). rewrite E in Hd. injection Hd as <-. exact Ht.
  - apply Hp in H as (doc & Hd & _). rewrite E in Hd. discriminate.
Qed.

Lemma indexed_postings_other content idx token id :
  id <> _id content ->
  In id (postings (tokenizedIndex (indexed content idx)) token) <->
  In id (postings (tokenizedIndex idx) token).
Proof.
  intros Hne. unfold indexed. simpl. rewrite postings_list_tokens.
  destruct (documents idx !! _id content) as [old|].
  - rewrite postings_prune_tokens. tauto.
  - tauto.
Qed.

Lemma indexed_consistent content idx :
  consistent idx -> consistent (indexed content idx).
Proof.
  intros Hc. pose proof Hc as [Hl Hp Hwf]. split.
  - intros id doc. unfold indexed. simpl. intros H.
    apply lookup_insert_Some in H as [[<- <-]|[_ H]]; [|apply (Hl _ _ H)].
    simpl. split; [apply toLowerCase_idem|reflexivity].
  - intros token id. destruct (decide (id = _id content)) as [->|Hne].
    + rewrite (indexed_postings content idx token (consistent_sound _ Hc)).
      unfold indexed. simpl. rewrite lookup_insert_eq. split.
      * intros H. eexists. split; [reflexivity|]. simpl.
        rewrite tokenizeText_toLowerCase. exact H.
      * intros (doc & Hd & H). injection Hd as <-. simpl in H.
        rewrite tokenizeText_toLowerCase in H. exact H.
    + rewrite (indexed_postings_other content idx token id Hne), Hp.
      unfold indexed. simpl. rewrite lookup_insert_ne by congruence. reflexivity.
  - unfold indexed. simpl.
    apply well_formed_fold; [intros; now apply well_formed_list_token|].
    destruct (documents idx !! _id content); [|exact Hwf].
    apply well_formed_fold; [intros; now apply well_formed_prune_token|exact Hwf].
Qed.

Lemma indexed_all_consistent contents idx :
  consistent idx -> consistent (indexed_all contents idx).
Proof.
  unfold indexed_all. revert idx. induction contents as [|c contents IH]; simpl; intros idx H.
  - exact H.
  - apply IH, indexed_consistent, H.
Qed.

Lemma indexed_all_snoc contents content idx :
  indexed_all (contents ++ [content]) idx = indexed content (indexed_all contents idx).
Proof. unfold indexed_all. rewrite fold_left_app. reflexivity. Qed.

End IndexFacts.


(** ** Runs of the indexing loops *)

Section LoopFacts.

Import JS.

Context {S A : Type}.

Implicit Types (f : A -> Eff S unit) (l : list A) (s : S).

Lemma forEach_nil f s : forEach f [] s = (Normal tt, s).
Proof. reflexivity. Qed.

Lemma forEach_cons f x l s :
  forEach f (x :: l) s =
  match f x s with
  | (Normal _, s') => forEach f l s'
  | (Throw e, s') => (Throw e, s')
  end.
Proof. reflexivity. Qed.

(** What every call of the callback keeps, the loop keeps, however it
    ends. *)
Lemma forEach_invariant (P : S -> Prop) f l s :
  (forall x s, In x l -> P s -> P (snd (f x s))) -> P s -> P (snd (forEach f l s)).
Proof.
  revert s. induction l as [|x l IH]; intros s Hf Hs; [exact Hs|].
  rewrite forEach_cons. pose proof (Hf x s (or_introl eq_refl) Hs) as Hx.
  destruct (f x s) as [[[]|e] s']; simpl in *.
  - apply IH; [|exact Hx]. intros y t Hy. apply Hf. now right.
  - exact Hx.
Qed.

(** A loop that ends normally has run the callback on every element. *)
Lemma forEach_Normal (g : S -> A -> S) f l s s' :
  (forall x s s', f x s = (Normal tt, s') -> s' = g s x) ->
  forEach f l s = (Normal tt, s') -> s' = fold_left g l s.
Proof.
  intros Hf. revert s. induction l as [|x l IH]; intros s H.
  - rewrite forEach_nil in H. injection H as <-. reflexivity.
  - rewrite forEach_cons in H. destruct (f x s) as [[[]|e] s1] eqn:E; [|discriminate].
    simpl. rewrite <- (Hf x s s1 E). apply IH, H.
Qed.

Lemma forEach_completes (P : S -> Prop) (g : S -> A -> S) f l s :
  (forall x s, In x l -> P s -> f x s = (Normal tt, g s x) /\ P (g s x)) ->
  P s ->
  forEach f l s = (Normal tt, fold_left g l s) /\ P (fold_left g l s).
Proof.
  revert s. induction l as [|x l IH]; intros s Hf Hs.
  - split; [reflexivity|exact Hs].
  - rewrite forEach_cons. destruct (Hf x s (or_introl eq_refl) Hs) as [-> Hx]. simpl.
    apply IH; [|exact Hx]. intros y t Hy. apply Hf. now right.
Qed.

End LoopFacts.

Section TokenSteps.

Import JS Publishing SearchApi Invariants IndexMaps.

Implicit Types (index : gmap string (list string)) (idx : SearchIndex).

Lemma get_property_lookup {V} (obj : gmap string V) key v :
  obj !! key = Some v -> get_property obj key = Own v.
Proof. unfold get_property. intros ->. reflexivity. Qed.

Lemma get_property_Own {V} (obj : gmap string V) key v :
  get_property obj key = Own v <-> obj !! key = Some v.
Proof.
  unfold get_property. destruct (obj !! key) as [w|].
  - split; intros H; injection H as <-; reflexivity.
  - destruct (inherited key); split; discriminate.
Qed.

Lemma get_property_Inherited {V} (obj : gmap string V) key :
  get_property obj key = Inherited <-> obj !! key = None /\ inherited key = true.
Proof.
  unfold get_property. destruct (obj !! key) as [w|].
  - split; [discriminate|]. intros [H _]. discriminate.
  - destruct (inherited key); split; try discriminate; try tauto.
    intros [_ H]. discriminate.
Qed.

Lemma get_property_Undefined {V} (obj : gmap string V) key :
  get_property obj key = Undefined <-> obj !! key = None /\ inherited key = false.
Proof.
  unfold get_property. destruct (obj !! key) as [w|].
  - split; [discriminate|]. intros [H _]. discriminate.
  - destruct (inherited key); split; try discriminate; try tauto.
    intros [_ H]. discriminate.
Qed.

Lemma removeToken_run id token idx :
  removeToken id token idx =
  match get_property (tokenizedIndex idx) token with
  | Inherited =>
      (Throw "searchIndex.tokenizedIndex[token].delete is not a function", idx)
  | _ =>
      (Normal tt,
       {| documents := documents idx;
          tokenizedIndex := prune_token id (tokenizedIndex idx) token |})
  end.
Proof.
  destruct idx as [docs index]. unfold removeToken, prune_token, get_property. simpl.
  unfold mbind, Eff_bind, get_state. simpl.
  destruct (index !! token) as [ids|].
  - destruct (List.length (remove id ids) =? 0)%nat; reflexivity.
  - destruct (inherited token); reflexivity.
Qed.

Lemma addToken_run id token idx :
  addToken id token idx =
  match get_property (tokenizedIndex idx) token with
  | Inherited => (Throw "searchIndex.tokenizedIndex[token].add is not a function", idx)
  | _ =>
      (Normal tt,
       {| documents := documents idx;
          tokenizedIndex := list_token id (tokenizedIndex idx) token |})
  end.
Proof.
  destruct idx as [docs index]. unfold addToken, list_token, get_property. simpl.
  unfold mbind, Eff_bind, get_state. simpl.
  destruct (index !! token) as [ids|].
  - reflexivity.
  - destruct (inherited token); reflexivity.
Qed.

Lemma fold_tokens (g : gmap string (list string) -> string -> gmap string (list string))
    toks idx :
  fold_left
    (fun idx token => {| documents := documents idx; tokenizedIndex := g (tokenizedIndex idx) token |})
    toks idx =
  {| documents := documents idx; tokenizedIndex := fold_left g toks (tokenizedIndex idx) |}.
Proof.
  revert idx. induction toks as [|t toks IH]; intros [docs index]; simpl.
  - reflexivity.
  - rewrite IH. reflexivity.
Qed.

(** The removal loop, when it ends normally, has pruned every token. *)
Lemma removeTokens_Normal id toks idx idx' :
  forEach (removeToken id) toks idx = (Normal tt, idx') ->
  idx' = {| documents := documents idx;
            tokenizedIndex := fold_left (prune_token id) toks (tokenizedIndex idx) |}.
Proof.
  intros H. rewrite <- fold_tokens. revert H. apply forEach_Normal.
  intros t s s'. rewrite removeToken_run.
  destruct (get_property (tokenizedIndex s) t); intros E; inversion E; reflexivity.
Qed.

Lemma addTokens_Normal id toks idx idx' :
  forEach (addToken id) toks idx = (Normal tt, idx') ->
  idx' = {| documents := documents idx;
            tokenizedIndex := fold_left (list_token id) toks (tokenizedIndex idx) |}.
Proof.
  intros H. rewrite <- fold_tokens. revert H. apply forEach_Normal.
  intros t s s'. rewrite addToken_run.
  destruct (get_property (tokenizedIndex s) t); intros E; inversion E; reflexivity.
Qed.

End TokenSteps.

Section IndexRuns.

Import JS Publishing SearchApi Invariants IndexMaps.

Implicit Types (index : gmap string (list string)) (idx : SearchIndex).

(** [indexDocument], phase by phase. *)
Lemma indexDocument_run content idx :
  indexDocument content idx =
  let store idx :=
    {| documents :=
         <[_id content :=
             {| doc_id := _id content; doc_path := path content;
                doc_title := title content; doc_type := document_type content;
                doc_text := toLowerCase (searchableText content);
                doc_updatedAt := updatedAt content |}]> (documents idx);
       tokenizedIndex := tokenizedIndex idx |} in
  let add idx :=
    forEach (addToken (_id content)) (Set_of (tokenizeText (searchableText content)))
      (store idx) in
  match get_property (documents idx) (_id content) with
  | Own old =>
      match forEach (removeToken (_id content)) (tokenizeText (doc_text old)) idx with
      | (Normal _, idx1) => add idx1
      | (Throw e, idx1) => (Throw e, idx1)
      end
  | Inherited => (Throw "Cannot read property 'toLowerCase' of undefined", idx)
  | Undefined => add idx
  end.
Proof.
  unfold indexDocument, mbind, Eff_bind, get_state, set_document, modify, throw, mret, Eff_ret.
  cbv zeta. destruct (get_property (documents idx) (_id content)).
  - destruct (forEach _ _ idx) as [[[]|e] idx1]; reflexivity.
  - reflexivity.
  - reflexivity.
Qed.

(** A call that returns has done what [indexed] says. *)
Lemma indexDocument_Normal content idx idx' :
  indexDocument content idx = (Normal tt, idx') -> idx' = indexed content idx.
Proof.
  rewrite indexDocument_run. cbv zeta. unfold indexed.
  destruct (get_property (documents idx) (_id content)) as [old| |] eqn:Eg.
  - apply get_property_Own in Eg. rewrite Eg.
    destruct (forEach _ _ idx) as [[[]|e] idx1] eqn:Er; [|discriminate].
    apply removeTokens_Normal in Er. subst idx1. intros H.
    apply addTokens_Normal in H. exact H.
  - discriminate.
  - apply get_property_Undefined in Eg as [Eg _]. rewrite Eg. intros H.
    apply addTokens_Normal in H. exact H.
Qed.

Lemma indexAll_Normal contents idx idx' :
  indexAll contents idx = (Normal tt, idx') -> idx' = indexed_all contents idx.
Proof.
  unfold indexAll, indexed_all.
  apply (forEach_Normal (fun idx content => indexed content idx)).
  intros content s s'. apply indexDocument_Normal.
Qed.

(** *** When a run completes *)

Lemma removeTokens_plain id toks idx :
  Forall (fun token => inherited token = false) toks ->
  forEach (removeToken id) toks idx =
    (Normal tt,
     {| documents := documents idx;
        tokenizedIndex := fold_left (prune_token id) toks (tokenizedIndex idx) |}).
Proof.
  intros Hplain. rewrite <- fold_tokens.
  apply (forEach_completes (fun _ => True)); [|exact I].
  intros t s Ht _. split; [|exact I]. rewrite removeToken_run.
  rewrite List.Forall_forall in Hplain. specialize (Hplain t Ht).
  destruct (get_property (tokenizedIndex s) t) eqn:Eg; try reflexivity.
  apply get_property_Inherited in Eg as [_ Eg]. congruence.
Qed.

Lemma addTokens_plain id toks idx :
  Forall (fun token => inherited token = false) toks ->
  forEach (addToken id) toks idx =
    (Normal tt,
     {| documents := documents idx;
        tokenizedIndex := fold_left (list_token id) toks (tokenizedIndex idx) |}).
Proof.
  intros Hplain. rewrite <- fold_tokens.
  apply (forEach_completes (fun _ => True)); [|exact I].
  intros t s Ht _. split; [|exact I]. rewrite addToken_run.
  rewrite List.Forall_forall in Hplain. specialize (Hplain t Ht).
  destruct (get_property (tokenizedIndex s) t) eqn:Eg; try reflexivity.
  apply get_property_Inherited in Eg as [_ Eg]. congruence.
Qed.

Lemma plain_spec content :
  plain content = true <->
  inherited (_id content) = false /\
  Forall (fun token => inherited token = false) (tokenizeText (searchableText content)).
Proof.
  unfold plain. rewrite andb_true_iff, negb_true_iff, forallb_forall, List.Forall_forall.
  split; intros [H1 H2]; (split; [exact H1|]); intros t Ht; specialize (H2 t Ht).
  - now apply negb_true_iff.
  - now apply negb_true_iff.
Qed.

Lemma plain_unique_tokens content :
  plain content = true ->
  Forall (fun token => inherited token = false)
    (Set_of (tokenizeText (searchableText content))).
Proof.
  intros H. apply plain_spec in H as [_ H]. rewrite List.Forall_forall in *.
  intros t Ht. apply H. apply (proj2 (Set_of_spec _)), Ht.
Qed.

(** On an index that agrees with its documents and has no entry under an
    inherited name, indexing a plain content item completes. *)
Lemma indexDocument_completes content idx :
  consistent idx -> no_inherited_keys idx -> plain content = true ->
  indexDocument content idx = (Normal tt, indexed content idx).
Proof.
  intros Hc Hk Hp. rewrite indexDocument_run. cbv zeta. unfold indexed.
  pose proof (plain_unique_tokens content Hp) as Hu.
  destruct (get_property (documents idx) (_id content)) as [old| |] eqn:Eg.
  - apply get_property_Own in Eg. rewrite Eg.
    rewrite removeTokens_plain.
    + rewrite addTokens_plain by exact Hu. reflexivity.
    + apply List.Forall_forall. intros t Ht.
      assert (In (_id content) (postings (tokenizedIndex idx) t)) as Hin
        by (apply (posted_iff _ Hc); exists old; split; assumption).
      destruct (inherited t) eqn:Hi; [|reflexivity].
      destruct (Hk t Hi) as [_ Hn]. unfold postings in Hin. rewrite Hn in Hin.
      destruct Hin.
  - apply get_property_Inherited in Eg as [_ Eg]. apply plain_spec in Hp as [Hp _]. congruence.
  - apply get_property_Undefined in Eg as [Eg _]. rewrite Eg.
    rewrite addTokens_plain by exact Hu. reflexivity.
Qed.

Lemma prune_token_None id index t key :
  index !! key = None -> prune_token id index t !! key = None.
Proof.
  intros H. unfold prune_token. destruct (index !! t) as [ids|] eqn:E; [|exact H].
  destruct (List.length (remove id ids) =? 0)%nat.
  - destruct (decide (t = key)) as [->|Hne].
    + apply lookup_delete_eq.
    + rewrite lookup_delete_ne by exact Hne. exact H.
  - destruct (decide (t = key)) as [->|Hne]; [congruence|].
    rewrite lookup_insert_ne by exact Hne. exact H.
Qed.

Lemma prune_tokens_None id toks index key :
  index !! key = None -> fold_left (prune_token id) toks index !! key = None.
Proof.
  revert index. induction toks as [|t toks IH]; simpl; intros index H; [exact H|].
  apply IH, prune_token_None, H.
Qed.

Lemma list_tokens_None id toks index key :
  index !! key = None -> ~ In key toks ->
  fold_left (list_token id) toks index !! key = None.
Proof.
  revert index. induction toks as [|t toks IH]; simpl; intros index H Hn; [exact H|].
  apply IH; [|tauto]. unfold list_token. rewrite lookup_insert_ne by tauto. exact H.
Qed.

Lemma indexed_no_inherited_keys content idx :
  no_inherited_keys idx -> plain content = true -> no_inherited_keys (indexed content idx).
Proof.
  intros Hk Hp key Hi. destruct (Hk key Hi) as [Hd Ht]. unfold indexed. simpl.
  apply plain_spec in Hp as [Hid Htok]. split.
  - rewrite lookup_insert_ne by congruence. exact Hd.
  - apply list_tokens_None.
    + destruct (documents idx !! _id content); [apply prune_tokens_None|]; exact Ht.
    + intros Hin. apply (proj1 (proj2 (Set_of_spec _) key)) in Hin.
      rewrite List.Forall_forall in Htok. specialize (Htok key Hin). congruence.
Qed.

(** A listing of plain items is indexed to the end. *)
Lemma indexAll_completes contents idx :
  consistent idx -> no_inherited_keys idx ->
  forallb plain contents = true ->
  indexAll contents idx = (Normal tt, indexed_all contents idx) /\
  consistent (indexed_all contents idx) /\
  no_inherited_keys (indexed_all contents idx).
Proof.
  intros Hc Hk Hp. unfold indexAll, indexed_all.
  rewrite forallb_forall in Hp.
  destruct (forEach_completes (fun idx => consistent idx /\ no_inherited_keys idx)
              (fun idx content => indexed content idx) indexDocument contents idx)
    as (Hrun & Hc' & Hk').
  - intros content s Hin [Hcs Hks]. specialize (Hp content Hin).
    split; [apply indexDocument_completes; assumption|].
    split; [apply indexed_consistent, Hcs|apply indexed_no_inherited_keys; assumption].
  - split; assumption.
  - split; [exact Hrun|]. split; [exact Hc'|exact Hk'].
Qed.

Lemma no_inherited_keys_empty : no_inherited_keys {| documents := ∅; tokenizedIndex := ∅ |}.
Proof. intros key _. simpl. rewrite !lookup_empty. split; reflexivity. Qed.

(** A run that returns leaves an index that agrees with its documents. *)
Lemma indexAll_Normal_consistent contents idx idx' :
  consistent idx -> indexAll contents idx = (Normal tt, idx') -> consistent idx'.
Proof.
  intros Hc H. apply indexAll_Normal in H. subst idx'.
  apply indexed_all_consistent, Hc.
Qed.

End IndexRuns.

(** ** What every run keeps *)

Section RunInvariants.

Import JS Publishing SearchApi Invariants IndexMaps.

Implicit Types (index : gmap string (list string)) (idx : SearchIndex).

Lemma sound_prune docs index id t :
  sound {| documents := docs; tokenizedIndex := index |} ->
  sound {| documents := docs; tokenizedIndex := prune_token id index t |}.
Proof.
  intros [Hl Hp Hwf]. simpl in *. split; simpl.
  - exact Hl.
  - intros token id' H. apply postings_prune_token in H as [H _]. apply Hp, H.
  - apply well_formed_prune_token, Hwf.
Qed.

Lemma sound_list docs index id t doc :
  sound {| documents := docs; tokenizedIndex := index |} ->
  docs !! id = Some doc ->
  In t (tokenizeText (doc_text doc)) ->
  sound {| documents := docs; tokenizedIndex := list_token id index t |}.
Proof.
  intros [Hl Hp Hwf] Hd Ht. simpl in *. split; simpl.
  - exact Hl.
  - intros token id' H. apply postings_list_token in H as [H|[-> ->]].
    + apply Hp, H.
    + exists doc. split; assumption.
  - apply well_formed_list_token, Hwf.
Qed.

Lemma sound_store docs index id doc :
  sound {| documents := docs; tokenizedIndex := index |} ->
  (forall token, ~ In id (postings index token)) ->
  toLowerCase (doc_text doc) = doc_text doc ->
  doc_id doc = id ->
  sound {| documents := <[id := doc]> docs; tokenizedIndex := index |}.
Proof.
  intros [Hl Hp Hwf] Hno Hlow Hid. simpl in *. split; simpl.
  - intros id' doc' H. apply lookup_insert_Some in H as [[<- <-]|[_ H]].
    + split; assumption.
    + apply (Hl _ _ H).
  - intros token id' H. destruct (decide (id' = id)) as [->|Hne].
    + destruct (Hno token H).
    + rewrite lookup_insert_ne by congruence. apply Hp, H.
  - exact Hwf.
Qed.

Lemma removeToken_sound id t idx : sound idx -> sound (snd (removeToken id t idx)).
Proof.
  intros H. rewrite removeToken_run. destruct idx as [docs index].
  destruct (get_property _ t); simpl; try exact H; apply sound_prune, H.
Qed.

Lemma removeToken_documents id t idx :
  documents (snd (removeToken id t idx)) = documents idx.
Proof. rewrite removeToken_run. destruct (get_property _ t); reflexivity. Qed.

Lemma addToken_documents id t idx :
  documents (snd (addToken id t idx)) = documents idx.
Proof. rewrite addToken_run. destruct (get_property _ t); reflexivity. Qed.

Lemma addToken_sound id t idx doc :
  sound idx -> documents idx !! id = Some doc -> In t (tokenizeText (doc_text doc)) ->
  sound (snd (addToken id t idx)).
Proof.
  intros H Hd Ht. rewrite addToken_run. destruct idx as [docs index].
  destruct (get_property _ t); simpl; try exact H; eapply sound_list; eassumption.
Qed.

(** The add loop after the document is stored. *)
Lemma addTokens_sound id toks idx doc :
  sound idx -> documents idx !! id = Some doc ->
  (forall t, In t toks -> In t (tokenizeText (doc_text doc))) ->
  sound (snd (forEach (addToken id) toks idx)).
Proof.
  intros H Hd Ht.
  apply (forEach_invariant (fun s => sound s /\ documents s !! id = Some doc));
    [|split; assumption].
  intros t s Hin [Hs Hds]. split.
  - eapply addToken_sound; [exact Hs|exact Hds|apply Ht, Hin].
  - rewrite addToken_documents. exact Hds.
Qed.

Lemma sound_prunes docs index id toks :
  sound {| documents := docs; tokenizedIndex := index |} ->
  sound {| documents := docs; tokenizedIndex := fold_left (prune_token id) toks index |}.
Proof.
  revert index. induction toks as [|t toks IH]; simpl; intros index H; [exact H|].
  apply IH, sound_prune, H.
Qed.

Lemma indexDocument_sound content idx :
  sound idx -> sound (snd (indexDocument content idx)).
Proof.
  intros Hs. rewrite indexDocument_run. cbv zeta.
  assert (forall t, In t (Set_of (tokenizeText (searchableText content))) ->
            In t (tokenizeText (toLowerCase (searchableText content)))) as Htoks.
  { intros t Ht. rewrite tokenizeText_toLowerCase. apply (proj2 (Set_of_spec _)), Ht. }
  destruct (get_property (documents idx) (_id content)) as [old| |] eqn:Eg.
  - apply get_property_Own in Eg.
    destruct (forEach _ _ idx) as [[[]|e] idx1] eqn:Er.
    + apply removeTokens_Normal in Er. subst idx1. simpl.
      eapply addTokens_sound; [|simpl; apply lookup_insert_eq|exact Htoks].
      destruct idx as [docs index]. simpl in *.
      apply sound_store; [apply sound_prunes, Hs| |apply toLowerCase_idem|reflexivity].
      intros token H. apply postings_prune_tokens in H as [H Hn]. apply Hn.
      split; [reflexivity|].
      apply (sound_posted _ Hs) in H as (doc & Hd & Ht). simpl in Hd.
      rewrite Eg in Hd. injection Hd as <-. exact Ht.
    + simpl.
      change idx1 with (snd (Throw (A:=unit) e, idx1)). rewrite <- Er.
      apply forEach_invariant; [|exact Hs].
      intros t s _. apply removeToken_sound.
  - exact Hs.
  - apply get_property_Undefined in Eg as [Eg _].
    eapply addTokens_sound; [|simpl; apply lookup_insert_eq|exact Htoks].
    destruct idx as [docs index]. simpl in *.
    apply sound_store; [exact Hs| |apply toLowerCase_idem|reflexivity].
    intros token H. apply (sound_posted _ Hs) in H as (doc & Hd & _). simpl in Hd.
    congruence.
Qed.

Lemma indexAll_sound contents idx : sound idx -> sound (snd (indexAll contents idx)).
Proof.
  intros H. unfold indexAll. apply forEach_invariant; [|exact H].
  intros content s _. apply indexDocument_sound.
Qed.

(** No step makes an own property under an inherited name. *)
Lemma removeToken_no_inherited_keys id t idx :
  no_inherited_keys idx -> no_inherited_keys (snd (removeToken id t idx)).
Proof.
  intros Hk. rewrite removeToken_run.
  destruct (get_property _ t); simpl; try exact Hk;
    intros key Hi; destruct (Hk key Hi) as [Hd Ht]; simpl;
    (split; [exact Hd|apply prune_token_None, Ht]).
Qed.

Lemma addToken_no_inherited_keys id t idx :
  no_inherited_keys idx -> no_inherited_keys (snd (addToken id t idx)).
Proof.
  intros Hk. rewrite addToken_run.
  destruct (get_property _ t) eqn:Eg; simpl; try exact Hk;
    intros key Hi; destruct (Hk key Hi) as [Hd Ht]; simpl; (split; [exact Hd|]);
    unfold list_token; (destruct (decide (t = key)) as [->|Hne];
      [|rewrite lookup_insert_ne by exact Hne; exact Ht]).
  - apply get_property_Own in Eg. congruence.
  - apply get_property_Undefined in Eg as [_ Eg]. congruence.
Qed.

Lemma indexDocument_no_inherited_keys content idx :
  no_inherited_keys idx -> no_inherited_keys (snd (indexDocument content idx)).
Proof.
  intros Hk. rewrite indexDocument_run. cbv zeta.
  assert (forall s, no_inherited_keys s -> inherited (_id content) = false ->
            no_inherited_keys
              (snd (forEach (addToken (_id content))
                      (Set_of (tokenizeText (searchableText content)))
                      {| documents :=
                           <[_id content :=
                               {| doc_id := _id content; doc_path := path content;
                                  doc_title := title content;
                                  doc_type := document_type content;
                                  doc_text := toLowerCase (searchableText content);
                                  doc_updatedAt := updatedAt content |}]> (documents s);
                         tokenizedIndex := tokenizedIndex s |}))) as Hadd.
  { intros s Hs Hid. apply forEach_invariant.
    - intros t s' _. apply addToken_no_inherited_keys.
    - intros key Hi. destruct (Hs key Hi) as [Hd Ht]. simpl. split; [|exact Ht].
      rewrite lookup_insert_ne by congruence. exact Hd. }
  destruct (get_property (documents idx) (_id content)) as [old| |] eqn:Eg.
  - apply get_property_Own in Eg.
    assert (inherited (_id content) = false) as Hid.
    { destruct (inherited (_id content)) eqn:E; [|reflexivity].
      destruct (Hk _ E) as [Hd _]. congruence. }
    pose proof (forEach_invariant no_inherited_keys (removeToken (_id content))
                  (tokenizeText (doc_text old)) idx
                  (fun t s _ => removeToken_no_inherited_keys (_id content) t s) Hk) as Hrem.
    destruct (forEach _ _ idx) as [[[]|e] idx1]; simpl in Hrem.
    + apply Hadd; assumption.
    + exact Hrem.
  - exact Hk.
  - apply get_property_Undefined in Eg as [_ Eg]. apply Hadd; assumption.
Qed.

Lemma indexAll_no_inherited_keys contents idx :
  no_inherited_keys idx -> no_inherited_keys (snd (indexAll contents idx)).
Proof.
  intros H. unfold indexAll. apply forEach_invariant; [|exact H].
  intros content s _. apply indexDocument_no_inherited_keys.
Qed.

(** Indexing an item leaves the other ids as they were. *)
Lemma removeToken_elsewhere id t idx id' token :
  id' <> id ->
  In id' (postings (tokenizedIndex (snd (removeToken id t idx))) token) <->
  In id' (postings (tokenizedIndex idx) token).
Proof.
  intros Hne. rewrite removeToken_run.
  destruct (get_property _ t); simpl; try reflexivity;
    rewrite postings_prune_token; tauto.
Qed.

Lemma addToken_elsewhere id t idx id' token :
  id' <> id ->
  In id' (postings (tokenizedIndex (snd (addToken id t idx))) token) <->
  In id' (postings (tokenizedIndex idx) token).
Proof.
  intros Hne. rewrite addToken_run.
  destruct (get_property _ t); simpl; try reflexivity;
    rewrite postings_list_token; tauto.
Qed.

Lemma indexDocument_elsewhere content idx id :
  id <> _id content ->
  documents (snd (indexDocument content idx)) !! id = documents idx !! id /\
  forall token,
    In id (postings (tokenizedIndex (snd (indexDocument content idx))) token) <->
    In id (postings (tokenizedIndex idx) token).
Proof.
  intros Hne. rewrite indexDocument_run. cbv zeta.
  set (same := fun (base s : SearchIndex) =>
         documents s !! id = documents base !! id /\
         forall token,
           In id (postings (tokenizedIndex s) token) <->
           In id (postings (tokenizedIndex base) token)).
  assert (forall base s toks, same base s ->
            same base (snd (forEach (removeToken (_id content)) toks s))) as Hrem.
  { intros base s toks Hs. apply forEach_invariant; [|exact Hs].
    intros t s' _ [H1 H2]. split.
    - rewrite removeToken_documents. exact H1.
    - intros token. rewrite removeToken_elsewhere by exact Hne. apply H2. }
  assert (forall base s toks, same base s ->
            same base (snd (forEach (addToken (_id content)) toks
                              {| documents := <[_id content :=
                                   {| doc_id := _id content; doc_path := path content;
                                      doc_title := title content;
                                      doc_type := document_type content;
                                      doc_text := toLowerCase (searchableText content);
                                      doc_updatedAt := updatedAt content |}]> (documents s);
                                 tokenizedIndex := tokenizedIndex s |}))) as Hadd.
  { intros base s toks [H1 H2]. apply forEach_invariant.
    - intros t s' _ [H3 H4]. split.
      + rewrite addToken_documents. exact H3.
      + intros token. rewrite addToken_elsewhere by exact Hne. apply H4.
    - split; simpl; [|exact H2]. rewrite lookup_insert_ne by congruence. exact H1. }
  assert (same idx idx) as Hrefl by (split; [reflexivity|intros; reflexivity]).
  destruct (get_property (documents idx) (_id content)) as [old| |] eqn:Eg.
  - specialize (Hrem idx idx (tokenizeText (doc_text old)) Hrefl).
    destruct (forEach _ _ idx) as [[[]|e] idx1]; simpl in Hrem.
    + apply (Hadd idx idx1 _ Hrem).
    + exact Hrem.
  - exact Hrefl.
  - apply (Hadd idx idx _ Hrefl).
Qed.

Lemma indexAll_elsewhere contents idx id :
  (forall content, In content contents -> _id content <> id) ->
  documents (snd (indexAll contents idx)) !! id = documents idx !! id /\
  forall token,
    In id (postings (tokenizedIndex (snd (indexAll contents idx))) token) <->
    In id (postings (tokenizedIndex idx) token).
Proof.
  intros Hne. unfold indexAll.
  apply (forEach_invariant
           (fun s => documents s !! id = documents idx !! id /\
                     forall token,
                       In id (postings (tokenizedIndex s) token) <->
                       In id (postings (tokenizedIndex idx) token))).
  - intros content s Hin [H1 H2].
    destruct (indexDocument_elsewhere content s id) as [H3 H4].
    { intros ->. now apply (Hne content Hin). }
    split; [congruence|]. intros token. rewrite H4. apply H2.
  - split; [reflexivity|intros; reflexivity].
Qed.

(** Indexing never takes a document out. *)
Lemma indexDocument_keeps content idx id :
  is_Some (documents idx !! id) -> is_Some (documents (snd (indexDocument content idx)) !! id).
Proof.
  intros H. destruct (decide (id = _id content)) as [->|Hne].
  - rewrite indexDocument_run. cbv zeta.
    assert (forall s toks,
              is_Some (documents (snd (forEach (addToken (_id content)) toks
                {| documents := <[_id content :=
                     {| doc_id := _id content; doc_path := path content;
                        doc_title := title content;
                        doc_type := document_type content;
                        doc_text := toLowerCase (searchableText content);
                        doc_updatedAt := updatedAt content |}]> (documents s);
                   tokenizedIndex := tokenizedIndex s |})) !! _id content)) as Hadd.
    { intros s toks.
      apply (forEach_invariant (fun s => is_Some (documents s !! _id content))).
      - intros t s' _ Hs. rewrite addToken_documents. exact Hs.
      - simpl. rewrite lookup_insert_eq. eexists. reflexivity. }
    destruct (get_property (documents idx) (_id content)) as [old| |] eqn:Eg.
    + pose proof (forEach_invariant (fun s => is_Some (documents s !! _id content))
                    (removeToken (_id content)) (tokenizeText (doc_text old)) idx) as Hrem.
      destruct (forEach _ _ idx) as [[[]|e] idx1]; simpl in Hrem.
      * apply Hadd.
      * apply Hrem; [|exact H]. intros t s _ Hs. rewrite removeToken_documents. exact Hs.
    + exact H.
    + apply Hadd.
  - rewrite (proj1 (indexDocument_elsewhere content idx id Hne)). exact H.
Qed.

Lemma indexAll_keeps contents idx id :
  is_Some (documents idx !! id) -> is_Some (documents (snd (indexAll contents idx)) !! id).
Proof.
  intros H. unfold indexAll.
  apply (forEach_invariant (fun s => is_Some (documents s !! id))); [|exact H].
  intros content s _. apply indexDocument_keeps.
Qed.

End RunInvariants.
(** ** Building and updating the index *)

Section IndexerFacts.

Import JS Publishing SearchApi Invariants IndexMaps.

Local Ltac run :=
  unfold buildSearchIndex, incrementalIndexUpdate, try_catch, log, set_searchIndex,
    set_lastIndexedTime, on_searchIndex, get_state, modify, await, mbind, Eff_bind; simpl.

Lemma buildSearchIndex_rejected w st message :
  published_content w = Rejected message ->
  buildSearchIndex w st =
    (Normal tt,
     {| searchIndex := searchIndex st;
        lastIndexedTime := lastIndexedTime st;
        console := console st ++ [LogBuilding; LogBuildFailed message] |}).
Proof. intros H. run. rewrite H. simpl. rewrite <- app_assoc. reflexivity. Qed.

(** After a fetch that succeeds the index is cleared and the listing
    indexed; a throw while indexing lands in the catch. *)
Lemma buildSearchIndex_resolved w st contents :
  published_content w = Resolved contents ->
  buildSearchIndex w st =
    match indexAll contents empty_index with
    | (Normal _, idx) =>
        (Normal tt,
         {| searchIndex := idx;
            lastIndexedTime := Some (now w);
            console := console st ++ [LogBuilding; LogBuilt (size (documents idx))] |})
    | (Throw e, idx) =>
        (Normal tt,
         {| searchIndex := idx;
            lastIndexedTime := lastIndexedTime st;
            console := console st ++ [LogBuilding; LogBuildFailed e] |})
    end.
Proof.
  intros H. run. rewrite H. simpl. unfold empty_index.
  destruct (indexAll contents _) as [[[]|e] idx]; simpl; rewrite <- app_assoc; reflexivity.
Qed.

Lemma incremental_first_run w st :
  lastIndexedTime st = None ->
  incrementalIndexUpdate w st = buildSearchIndex w st.
Proof.
  intros H. unfold incrementalIndexUpdate, try_catch, get_state, mbind, Eff_bind.
  rewrite H.
  destruct (published_content w) as [contents|message] eqn:E.
  - rewrite (buildSearchIndex_resolved w st contents E).
    destruct (indexAll contents empty_index) as [[[]|e] idx]; reflexivity.
  - rewrite (buildSearchIndex_rejected w st message E). reflexivity.
Qed.

Lemma incremental_rejected w st last message :
  lastIndexedTime st = Some last ->
  all_content w = Rejected message ->
  incrementalIndexUpdate w st =
    (Normal tt,
     {| searchIndex := searchIndex st;
        lastIndexedTime := lastIndexedTime st;
        console := console st ++ [LogIncremental; LogUpdateFailed message] |}).
Proof.
  intros H1 H2. run. rewrite H1. simpl. rewrite H2. simpl.
  rewrite ?H1, <- ?app_assoc. reflexivity.
Qed.

Lemma incremental_nothing_new w st last allContent :
  lastIndexedTime st = Some last ->
  all_content w = Resolved allContent ->
  List.filter (changed_since last) allContent = [] ->
  incrementalIndexUpdate w st =
    (Normal tt,
     {| searchIndex := searchIndex st;
        lastIndexedTime := lastIndexedTime st;
        console := console st ++ [LogIncremental; LogNothingNew] |}).
Proof.
  intros H1 H2 H3. run. rewrite H1. simpl. rewrite H2. simpl. rewrite H3. simpl.
  rewrite ?H1, <- ?app_assoc. reflexivity.
Qed.

Lemma incremental_changed w st last allContent :
  lastIndexedTime st = Some last ->
  all_content w = Resolved allContent ->
  List.filter (changed_since last) allContent <> [] ->
  incrementalIndexUpdate w st =
    let updatedContents := List.filter (changed_since last) allContent in
    match indexAll updatedContents (searchIndex st) with
    | (Normal _, idx) =>
        (Normal tt,
         {| searchIndex := idx;
            lastIndexedTime := Some (now w);
            console := console st ++
                       [LogIncremental; LogUpdating (List.length updatedContents);
                        LogUpdated] |})
    | (Throw e, idx) =>
        (Normal tt,
         {| searchIndex := idx;
            lastIndexedTime := lastIndexedTime st;
            console := console st ++
                       [LogIncremental; LogUpdating (List.length updatedContents);
                        LogUpdateFailed e] |})
    end.
Proof.
  intros H1 H2 H3. run. rewrite H1. simpl. rewrite H2. simpl.
  destruct (List.filter (changed_since last) allContent) as [|c l] eqn:E; [congruence|].
  simpl.
  destruct (indexAll (c :: l) (searchIndex st)) as [[[]|e] idx]; simpl;
    rewrite ?H1, <- ?app_assoc; reflexivity.
Qed.

(** Neither job lets an error out. *)
Lemma buildSearchIndex_returns w st : fst (buildSearchIndex w st) = Normal tt.
Proof.
  destruct (published_content w) as [contents|message] eqn:E.
  - rewrite (buildSearchIndex_resolved w st contents E).
    destruct (indexAll contents empty_index) as [[[]|e] idx]; reflexivity.
  - rewrite (buildSearchIndex_rejected w st message E). reflexivity.
Qed.

Lemma incrementalIndexUpdate_returns w st : fst (incrementalIndexUpdate w st) = Normal tt.
Proof.
  destruct (lastIndexedTime st) as [last|] eqn:El.
  - destruct (all_content w) as [allContent|message] eqn:E.
    + destruct (List.filter (changed_since last) allContent) as [|c l] eqn:Ef.
      * rewrite (incremental_nothing_new w st last allContent El E Ef). reflexivity.
      * rewrite (incremental_changed w st last allContent El E) by (rewrite Ef; discriminate).
        cbv zeta. destruct (indexAll _ (searchIndex st)) as [[[]|e] idx]; reflexivity.
    + rewrite (incremental_rejected w st last message El E). reflexivity.
  - rewrite (incremental_first_run w st El). apply buildSearchIndex_returns.
Qed.

(** The index after a job is the one before it or the outcome of an
    indexing run, on the index before it or on the empty one. *)
Lemma buildSearchIndex_index w st :
  searchIndex (snd (buildSearchIndex w st)) = searchIndex st \/
  exists contents,
    searchIndex (snd (buildSearchIndex w st)) = snd (indexAll contents empty_index).
Proof.
  destruct (published_content w) as [contents|message] eqn:E.
  - right. exists contents. rewrite (buildSearchIndex_resolved w st contents E).
    destruct (indexAll contents empty_index) as [[[]|e] idx]; reflexivity.
  - left. rewrite (buildSearchIndex_rejected w st message E). reflexivity.
Qed.

Lemma incremental_index w st :
  searchIndex (snd (incrementalIndexUpdate w st)) = searchIndex st \/
  exists contents idx,
    (idx = searchIndex st \/ idx = empty_index) /\
    searchIndex (snd (incrementalIndexUpdate w st)) = snd (indexAll contents idx).
Proof.
  destruct (lastIndexedTime st) as [last|] eqn:El.
  - destruct (all_content w) as [allContent|message] eqn:E.
    + destruct (List.filter (changed_since last) allContent) as [|c l] eqn:Ef.
      * left. rewrite (incremental_nothing_new w st last allContent El E Ef). reflexivity.
      * right. exists (c :: l), (searchIndex st). split; [now left|].
        rewrite (incremental_changed w st last allContent El E) by (rewrite Ef; discriminate).
        cbv zeta. rewrite Ef.
        destruct (indexAll _ (searchIndex st)) as [[[]|e] idx]; reflexivity.
    + left. rewrite (incremental_rejected w st last message El E). reflexivity.
  - rewrite (incremental_first_run w st El).
    destruct (buildSearchIndex_index w st) as [H|[contents H]]; [now left|].
    right. exists contents, empty_index. split; [now right|exact H].
Qed.

(** Every state the service reaches has a sound index without keys under
    inherited names. *)
Lemma reachable_sound st :
  reachable st -> sound (searchIndex st) /\ no_inherited_keys (searchIndex st).
Proof.
  assert (sound empty_index /\ no_inherited_keys empty_index) as [He1 He2].
  { split; [apply consistent_sound, consistent_empty|apply no_inherited_keys_empty]. }
  induction 1 as [|w st _ [IH1 IH2]|w st _ [IH1 IH2]].
  - split; assumption.
  - destruct (buildSearchIndex_index w st) as [->|[contents ->]]; [split; assumption|].
    split; [apply indexAll_sound, He1|apply indexAll_no_inherited_keys, He2].
  - destruct (incremental_index w st) as [->|(contents & idx & [->| ->] & ->)].
    + split; assumption.
    + split; [apply indexAll_sound, IH1|apply indexAll_no_inherited_keys, IH2].
    + split; [apply indexAll_sound, He1|apply indexAll_no_inherited_keys, He2].
Qed.

End IndexerFacts.
(** ** Searching *)

Section SearchFacts.

Import JS Publishing SearchApi Invariants.

Lemma relevance_step_score titleText text r token :
  relevance_step titleText text r token = (r + token_score titleText text token)%Z.
Proof.
  unfold relevance_step, token_score.
  destruct (includes titleText token), (startsWith titleText token),
    (includes text token); lia.
Qed.

Lemma relevance_fold titleText text tokens r :
  fold_left (relevance_step titleText text) tokens r =
  (r + sum_Z (List.map (token_score titleText text) tokens))%Z.
Proof.
  revert r. induction tokens as [|t tokens IH]; simpl; intros r; [lia|].
  rewrite IH, relevance_step_score. lia.
Qed.

Lemma relevance_of_sum doc tokens :
  relevance_of doc tokens =
  sum_Z (List.map (token_score (toLowerCase (doc_title doc)) (doc_text doc)) tokens).
Proof. unfold relevance_of. rewrite relevance_fold. lia. Qed.

Lemma token_score_nonneg titleText text token : (0 <= token_score titleText text token)%Z.
Proof.
  unfold token_score.
  destruct (includes titleText token), (startsWith titleText token),
    (includes text token); lia.
Qed.

Lemma sum_Z_at_least (f : string -> Z) tokens :
  (forall t, In t tokens -> (1 <= f t)%Z) ->
  (Z.of_nat (List.length tokens) <= sum_Z (List.map f tokens))%Z.
Proof.
  induction tokens as [|t tokens IH]; simpl; intros H; [lia|].
  assert (1 <= f t)%Z by (apply H; now left).
  assert (Z.of_nat (List.length tokens) <= sum_Z (List.map f tokens))%Z
    by (apply IH; intros u Hu; apply H; now right).
  lia.
Qed.

(** *** Candidates *)

Lemma matching_step_run index t first ids :
  matching_step index t (first, ids) =
  match get_property index t with
  | Own docs =>
      (Normal tt, (false, if first then docs else List.filter (fun id => has docs id) ids))
  | Undefined =>
      (Normal tt, (false, if first then [] else List.filter (fun id => has [] id) ids))
  | Inherited =>
      if first then (Throw "object is not iterable", (first, ids))
      else
        match ids with
        | [] => (Normal tt, (false, []))
        | _ :: _ => (Throw "matchingDocsForToken.has is not a function", (first, ids))
        end
  end.
Proof.
  unfold matching_step, mbind, Eff_bind, get_state, set_matchingIds, modify, throw. simpl.
  destruct (get_property index t); destruct first; try reflexivity.
  destruct ids; reflexivity.
Qed.

Lemma postings_property index t :
  postings index t =
  match get_property index t with
  | Own docs => docs
  | _ => []
  end.
Proof.
  unfold postings, get_property. destruct (index !! t); [reflexivity|].
  destruct (inherited t); reflexivity.
Qed.

(** After the first token, a loop that ends normally has kept the ids
    that every further token lists. *)
Lemma matching_rest index tokens ids vars :
  forEach (matching_step index) tokens (false, ids) = (Normal tt, vars) ->
  fst vars = false /\
  forall id, In id (snd vars) <-> In id ids /\ forall t, In t tokens -> In id (postings index t).
Proof.
  revert ids. induction tokens as [|t tokens IH]; intros ids H.
  - rewrite forEach_nil in H. injection H as <-. simpl. split; [reflexivity|]. intuition.
  - rewrite forEach_cons, matching_step_run in H.
    pose proof (postings_property index t) as Hp.
    destruct (get_property index t) as [docs| |].
    + apply IH in H as [H1 H2]. split; [exact H1|]. intros id.
      rewrite H2, filter_In, has_In. split.
      * intros [[Ha Hb] Hc]. split; [exact Ha|].
        intros u [<-|Hu]; [rewrite Hp; exact Hb|apply Hc, Hu].
      * intros [Ha Hb]. split; [split; [exact Ha|]|].
        -- rewrite <- Hp. apply Hb. now left.
        -- intros u Hu. apply Hb. now right.
    + destruct ids as [|i ids]; [|discriminate].
      apply IH in H as [H1 H2]. split; [exact H1|]. intros id. rewrite H2. simpl. tauto.
    + apply IH in H as [H1 H2]. split; [exact H1|]. intros id.
      rewrite H2, filter_In. simpl. split.
      * intros [[_ Hb] _]. discriminate.
      * intros [_ Hb]. specialize (Hb t (or_introl eq_refl)). rewrite Hp in Hb. destruct Hb.
Qed.

Lemma matchingIds_nil index : matchingIds index [] = Normal [].
Proof. reflexivity. Qed.

Lemma matchingIds_In index t tokens ids :
  matchingIds index (t :: tokens) = Normal ids ->
  forall id, In id ids <-> forall u, In u (t :: tokens) -> In id (postings index u).
Proof.
  unfold matchingIds. rewrite forEach_cons, matching_step_run.
  pose proof (postings_property index t) as Hp.
  destruct (get_property index t) as [docs| |]; [| discriminate |].
  - destruct (forEach _ tokens (false, docs)) as [[[]|e] [b l]] eqn:E; [|discriminate].
    intros H. injection H as <-. apply matching_rest in E as [_ E]. simpl in E.
    intros id. rewrite E. split.
    + intros [Ha Hb] u [<-|Hu]; [rewrite Hp; exact Ha|apply Hb, Hu].
    + intros H. split; [rewrite <- Hp; apply H; now left|]. intros u Hu. apply H. now right.
  - destruct (forEach _ tokens (false, [])) as [[[]|e] [b l]] eqn:E; [|discriminate].
    intros H. injection H as <-. apply matching_rest in E as [_ E]. simpl in E.
    intros id. rewrite E. split; [intros [[] _]|].
    intros H. specialize (H t (or_introl eq_refl)). rewrite Hp in H. destruct H.
Qed.

(** The loop throws only at a token that names an inherited member. *)
Lemma matching_total index tokens vars :
  (forall u, In u tokens -> get_property index u <> Inherited) ->
  exists vars', forEach (matching_step index) tokens vars = (Normal tt, vars').
Proof.
  revert vars. induction tokens as [|t tokens IH]; intros [first ids] H.
  - eexists. reflexivity.
  - rewrite forEach_cons, matching_step_run.
    pose proof (H t (or_introl eq_refl)) as Ht.
    destruct (get_property index t); [|contradiction|];
      apply IH; intros u Hu; apply H; now right.
Qed.

Lemma matchingIds_total index tokens :
  (forall u, In u tokens -> get_property index u <> Inherited) ->
  exists ids, matchingIds index tokens = Normal ids.
Proof.
  intros H. unfold matchingIds.
  destruct (matching_total index tokens (true, []) H) as [[b ids] ->].
  eexists. reflexivity.
Qed.

(** A first token that names an inherited member makes the loop throw. *)
Lemma matchingIds_inherited index t tokens :
  get_property index t = Inherited ->
  matchingIds index (t :: tokens) = Throw "object is not iterable".
Proof.
  intros H. unfold matchingIds. rewrite forEach_cons, matching_step_run, H. reflexivity.
Qed.

(** *** Sorting *)

Lemma In_insert_by_relevance x l y :
  In y (insert_by_relevance x l) <-> y = x \/ In y l.
Proof.
  induction l as [|z l IH]; simpl; [intuition|].
  destruct (relevance x <? relevance z)%Z; simpl; rewrite ?IH; intuition.
Qed.

Lemma In_sort_by_relevance l y : In y (sort_by_relevance l) <-> In y l.
Proof.
  induction l as [|x l IH]; simpl; [reflexivity|].
  rewrite In_insert_by_relevance, IH. intuition.
Qed.



Lemma length_insert_by_relevance x l :
  List.length (insert_by_relevance x l) = S (List.length l).
Proof.
  induction l as [|z l IH]; simpl; [reflexivity|].
  destruct (relevance x <? relevance z)%Z; simpl; [rewrite IH|]; reflexivity.
Qed.

Lemma length_sort_by_relevance l : List.length (sort_by_relevance l) = List.length l.
Proof.
  induction l as [|x l IH]; simpl; [reflexivity|].
  rewrite length_insert_by_relevance, IH. reflexivity.
Qed.


Lemma In_firstn_In {A} n (l : list A) x : In x (firstn n l) -> In x l.
Proof.
  revert n. induction l as [|y l IH]; intros [|n]; simpl; try tauto.
  intros [->|H]; [now left|right; eapply IH, H].
Qed.




End SearchFacts.

Section RankingFacts.

Import JS Publishing SearchApi Invariants.

Lemma map_throwing_Normal {A B} (f : A -> Completion B) l ys :
  map_throwing f l = Normal ys -> List.Forall2 (fun x y => f x = Normal y) l ys.
Proof.
  revert ys. induction l as [|x l IH]; simpl; intros ys H.
  - injection H as <-. constructor.
  - destruct (f x) as [y|] eqn:E; [|discriminate].
    destruct (map_throwing f l) as [ys'|]; [|discriminate].
    injection H as <-. constructor; [exact E|]. apply IH. reflexivity.
Qed.

Lemma map_throwing_total {A B} (f : A -> Completion B) l :
  (forall x, In x l -> exists y, f x = Normal y) ->
  exists ys, map_throwing f l = Normal ys.
Proof.
  induction l as [|x l IH]; simpl; intros H.
  - eexists. reflexivity.
  - destruct (H x) as [y ->]; [now left|].
    destruct IH as [ys ->]; [intros z Hz; apply H; now right|].
    eexists. reflexivity.
Qed.

Lemma Forall2_In_r {A B} (R : A -> B -> Prop) l ys y :
  List.Forall2 R l ys -> In y ys -> exists x, In x l /\ R x y.
Proof.
  induction 1 as [|x y' l ys Hxy _ IH]; simpl; [intros []|].
  intros [<-|H].
  - exists x. split; [now left|exact Hxy].
  - destruct (IH H) as (x' & Hx & HR). exists x'. split; [now right|exact HR].
Qed.

Lemma Forall2_In_l {A B} (R : A -> B -> Prop) l ys x :
  List.Forall2 R l ys -> In x l -> exists y, In y ys /\ R x y.
Proof.
  induction 1 as [|x' y l ys Hxy _ IH]; simpl; [intros []|].
  intros [<-|H].
  - exists y. split; [now left|exact Hxy].
  - destruct (IH H) as (y' & Hy & HR). exists y'. split; [now right|exact HR].
Qed.

Lemma In_omap_id {A} (items : list (option A)) r :
  In r (omap (fun item => item) items) <-> In (Some r) items.
Proof.
  induction items as [|[x|] items IH]; simpl; [reflexivity| |].
  - rewrite IH. split; intros [H|H]; auto; left; congruence.
  - rewrite IH. split; [auto|]. intros [H|H]; [discriminate|exact H].
Qed.

Lemma scoreCandidate_kept idx type tokens id r :
  scoreCandidate idx type tokens id = Normal (Some r) <->
  exists doc, documents idx !! id = Some doc /\
    type_matches type doc = true /\
    relevance_of doc tokens <> 0%Z /\
    r = result_item doc tokens (relevance_of doc tokens).
Proof.
  unfold scoreCandidate, get_property. destruct (documents idx !! id) as [doc|].
  - destruct (type_matches type doc) eqn:Et; simpl.
    + destruct (relevance_of doc tokens =? 0)%Z eqn:Er.
      * apply Z.eqb_eq in Er. split; [discriminate|].
        intros (d & Hd & _ & Hn & _). injection Hd as <-. contradiction.
      * apply Z.eqb_neq in Er. split.
        -- intros H. injection H as <-. exists doc. repeat split; assumption.
        -- intros (d & Hd & _ & _ & ->). injection Hd as <-. reflexivity.
    + split; [discriminate|]. intros (d & Hd & Ht & _). injection Hd as <-. congruence.
  - split; [|intros (d & Hd & _); discriminate].
    destruct (inherited id); [destruct type|]; discriminate.
Qed.

(** A stored document is scored without a throw. *)
Lemma scoreCandidate_stored idx type tokens id doc :
  documents idx !! id = Some doc ->
  exists item, scoreCandidate idx type tokens id = Normal item.
Proof.
  intros Hd. unfold scoreCandidate. rewrite (get_property_lookup _ _ _ Hd).
  destruct (negb (type_matches type doc)); [eexists; reflexivity|].
  destruct (_ =? 0)%Z; eexists; reflexivity.
Qed.

(** What the ranked array holds: one item for every matching id whose
    document passes the type filter and scores above zero. *)
Lemma rankedResults_In idx type tokens rs :
  rankedResults idx type tokens = Normal rs ->
  exists ids,
    matchingIds (tokenizedIndex idx) tokens = Normal ids /\
    forall r,
      In r rs <->
      exists id doc,
        In id ids /\
        documents idx !! id = Some doc /\
        type_matches type doc = true /\
        relevance_of doc tokens <> 0%Z /\
        r = result_item doc tokens (relevance_of doc tokens).
Proof.
  unfold rankedResults.
  destruct (matchingIds (tokenizedIndex idx) tokens) as [ids|] eqn:Em; [|discriminate].
  destruct (map_throwing _ _) as [items|] eqn:E; [|discriminate].
  intros H. injection H as <-. apply map_throwing_Normal in E.
  exists ids. split; [reflexivity|]. intros r.
  rewrite In_sort_by_relevance, In_omap_id. split.
  - intros H. destruct (Forall2_In_r _ _ _ _ E H) as (id & Hid & Hs).
    apply scoreCandidate_kept in Hs as (doc & Hs). exists id, doc. tauto.
  - intros (id & doc & Hid & Hs).
    destruct (Forall2_In_l _ _ _ _ E Hid) as (y & Hy & Hf).
    assert (scoreCandidate idx type tokens id = Normal (Some r)) as Hk
      by (apply scoreCandidate_kept; exists doc; exact Hs).
    rewrite Hk in Hf. injection Hf as <-. exact Hy.
Qed.


(** On a sound index every matching id has its document stored, so
    ranking throws only where matching does. *)
Lemma rankedResults_total idx type tokens :
  sound idx ->
  (forall u, In u tokens -> get_property (tokenizedIndex idx) u <> Inherited) ->
  exists rs, rankedResults idx type tokens = Normal rs.
Proof.
  intros Hs Hplain. unfold rankedResults.
  destruct (matchingIds_total _ _ Hplain) as [ids Hm]. rewrite Hm.
  destruct (map_throwing_total (scoreCandidate idx type tokens) ids) as [items ->].
  - intros id Hid. destruct tokens as [|t tokens].
    + rewrite matchingIds_nil in Hm. injection Hm as <-. destruct Hid.
    + rewrite (matchingIds_In _ _ _ _ Hm) in Hid. specialize (Hid t (or_introl eq_refl)).
      apply (sound_posted _ Hs) in Hid as (doc & Hd & _).
      apply (scoreCandidate_stored _ _ _ _ _ Hd).
  - eexists. reflexivity.
Qed.

(** On a sound index a matching document holds every query token in its
    text, and so scores at least one per token. *)
Lemma matching_relevance idx tokens ids id doc :
  sound idx ->
  matchingIds (tokenizedIndex idx) tokens = Normal ids ->
  In id ids ->
  documents idx !! id = Some doc ->
  (Z.of_nat (List.length tokens) <= relevance_of doc tokens)%Z.
Proof.
  intros Hs Hm Hid Hd. rewrite relevance_of_sum. apply sum_Z_at_least.
  intros t Ht. destruct tokens as [|t0 tokens]; [destruct Ht|].
  rewrite (matchingIds_In _ _ _ _ Hm) in Hid. specialize (Hid t Ht).
  apply (sound_posted _ Hs) in Hid as (doc' & Hd' & Htok).
  rewrite Hd in Hd'. injection Hd' as <-.
  apply token_includes in Htok.
  destruct (sound_lower _ Hs _ _ Hd) as [Hlow _]. rewrite Hlow in Htok.
  unfold token_score. rewrite Htok.
  destruct (includes (toLowerCase (doc_title doc)) t),
    (startsWith (toLowerCase (doc_title doc)) t); lia.
Qed.


Lemma sum_Z_nonneg (f : string -> Z) tokens :
  (forall u, (0 <= f u)%Z) -> (0 <= sum_Z (List.map f tokens))%Z.
Proof.
  intros H. induction tokens as [|u tokens IH]; simpl; [lia|].
  specialize (H u). lia.
Qed.


End RankingFacts.

(** ** Doubles and pages *)

Section DoubleFacts.

Import JS Doubles.

Open Scope Z_scope.

Lemma round_magnitude_small a : a < 2 ^ 53 -> round_magnitude a = a.
Proof.
  intros H. unfold round_magnitude. apply Z.ltb_lt in H. rewrite H. reflexivity.
Qed.

Lemma round_magnitude_big a : 2 ^ 53 <= a -> 2 ^ 53 <= round_magnitude a.
Proof.
  intros H. unfold round_magnitude.
  destruct (a <? 2 ^ 53) eqn:E; [apply Z.ltb_lt in E; lia|]. clear E.
  assert (53 <= Z.log2 a) as Hlog.
  { change 53 with (Z.log2 (2 ^ 53)). apply Z.log2_le_mono. exact H. }
  pose proof (Z.log2_spec a ltac:(lia)) as [Hlo _].
  set (n := Z.log2 a) in *. set (unit := 2 ^ (n - 52)).
  assert (0 < unit) as Hu by (apply Z.pow_pos_nonneg; lia).
  assert (2 ^ n = 2 ^ 52 * unit) as Hn.
  { unfold unit. rewrite <- Z.pow_add_r by lia. f_equal. lia. }
  assert (2 ^ 53 <= 2 ^ n) as Hpow by (apply Z.pow_le_mono_r; lia).
  assert (2 ^ 52 <= a / unit) as Hm.
  { apply Z.div_le_lower_bound; [exact Hu|]. lia. }
  cbv zeta.
  destruct ((unit <? 2 * (a mod unit)) || ((2 * (a mod unit) =? unit) && Z.odd (a / unit)));
    nia.
Qed.

Lemma near_to_double z : near (to_double z) z.
Proof.
  unfold near, to_double.
  destruct (Z.lt_ge_cases (Z.abs z) (2 ^ 53)) as [Hs|Hb].
  - left. split; [exact Hs|]. rewrite (round_magnitude_small _ Hs).
    destruct (2 ^ 1024 <=? Z.abs z) eqn:E.
    + apply Z.leb_le in E. assert (2 ^ 53 <= 2 ^ 1024) by (apply Z.pow_le_mono_r; lia). lia.
    + f_equal. lia.
  - pose proof (round_magnitude_big _ Hb) as Hr. right.
    destruct (2 ^ 1024 <=? round_magnitude (Z.abs z)) eqn:E.
    + destruct (z <? 0) eqn:Ez.
      * apply Z.ltb_lt in Ez. right. split; [lia|now left].
      * apply Z.ltb_ge in Ez. left. split; [lia|now left].
    + destruct (Z.lt_ge_cases z 0) as [Hn|Hp].
      * right. split; [lia|]. right. eexists. split; [reflexivity|].
        rewrite Z.sgn_neg by exact Hn. lia.
      * left. split; [lia|]. right. eexists. split; [reflexivity|].
        rewrite Z.sgn_pos by lia. lia.
Qed.

Lemma near_exact z : Z.abs z < 2 ^ 53 -> to_double z = Integer z.
Proof.
  intros H. destruct (near_to_double z) as [[_ E]|[[H1 _]|[H1 _]]]; [exact E|lia|lia].
Qed.




End DoubleFacts.

Section PaginationFacts.

Import JS Publishing SearchApi Invariants Doubles.


(** A slice between integer bounds that are not negative: skip to the
    first, take up to the second. *)
Lemma slice_plain {A} (l : list A) start size :
  (0 <= start)%Z -> (0 <= size)%Z ->
  slice l (Integer start) (Integer (start + size)) =
  firstn (Z.to_nat size) (skipn (Z.to_nat start) l).
Proof.
  intros H0 Hs. unfold slice, relative_index.
  set (len := Z.of_nat (List.length l)).
  destruct (start <? 0)%Z eqn:E1; [apply Z.ltb_lt in E1; lia|].
  destruct (start + size <? 0)%Z eqn:E2; [apply Z.ltb_lt in E2; lia|].
  destruct (Z.le_gt_cases len start) as [Hge|Hlt].
  - rewrite (Z.min_r start len) by lia. rewrite (Z.min_r (start + size) len) by lia.
    rewrite !skipn_all2 by (unfold len in *; lia).
    rewrite !firstn_nil. reflexivity.
  - rewrite (Z.min_l start len) by lia.
    destruct (Z.le_gt_cases (start + size) len) as [Hle|Hgt].
    + rewrite (Z.min_l (start + size) len) by lia.
      f_equal. lia.
    + rewrite (Z.min_r (start + size) len) by lia.
      rewrite !firstn_all2; [reflexivity| |]; rewrite length_skipn; unfold len in *; lia.
Qed.



Lemma In_slice {A} (l : list A) a b x : In x (slice l a b) -> In x l.
Proof.
  unfold slice. intros H. apply In_firstn_In in H.
  revert H. generalize (Z.to_nat (relative_index (Z.of_nat (List.length l)) a)).
  intros n. revert l. induction n as [|n IH]; intros [|y l]; simpl; try tauto.
  intros H. right. apply IH, H.
Qed.

(** A slice that starts at zero and reaches the end is the whole array. *)
Lemma slice_all {A} (l : list A) size :
  (Z.of_nat (List.length l) <= size)%Z ->
  slice l (Integer 0) (Integer size) = l.
Proof.
  intros H. replace size with (0 + size)%Z by lia.
  rewrite slice_plain by lia. simpl. apply firstn_all2. lia.
Qed.



(** *** The handler's branches *)

Lemma query_of_tokens req :
  queryTokens_of req <> [] ->
  exists query, query_of req = Normal query /\ queryTokens_of req = tokenizeText query.
Proof.
  unfold queryTokens_of. destruct (query_of req) as [query|]; [|contradiction].
  intros _. exists query. split; reflexivity.
Qed.

Lemma search_not_text idx req e : query_of req = Throw e -> search idx req = Throw e.
Proof. intros H. unfold search. rewrite H. reflexivity. Qed.

Lemma search_without_tokens idx req query :
  query_of req = Normal query ->
  tokenizeText query = [] ->
  search idx req = Normal (empty_response (page_of req) (pageSize_of req)).
Proof.
  intros Hq H. unfold search. rewrite Hq.
  destruct (String.eqb _ EmptyString); [reflexivity|]. rewrite H. reflexivity.
Qed.

Lemma search_with_tokens idx req :
  queryTokens_of req <> [] ->
  search idx req =
    match rankedResults idx (type_of req) (queryTokens_of req) with
    | Throw e => Throw e
    | Normal rs => Normal (paginate rs (page_of req) (pageSize_of req))
    end.
Proof.
  intros H. destruct (query_of_tokens req H) as (query & Hq & Ht).
  rewrite Ht in *. unfold search. rewrite Hq.
  destruct (String.eqb query EmptyString) eqn:E.
  - apply String.eqb_eq in E. subst query. now contradiction H.
  - destruct (tokenizeText query); [contradiction|reflexivity].
Qed.

End PaginationFacts.
(** ** The router *)

Section RouterFacts.

Import JS Http RouteCache Relay.

Lemma res_setHeaders_run entries res :
  res_setHeaders entries res =
  (Normal tt,
   {| statusCode := statusCode res;
      sent_headers := set_all entries (sent_headers res);
      sent_body := sent_body res;
      finished := finished res |}).
Proof.
  revert res. induction entries as [|[k v] entries IH]; intros res.
  - destruct res. reflexivity.
  - simpl. unfold mbind, Eff_bind, res_setHeader, modify. rewrite IH. reflexivity.
Qed.

Lemma set_all_other entries (h : gmap string string) k :
  k ∉ entries.*1 -> set_all entries h !! k = h !! k.
Proof.
  revert h. induction entries as [|[k0 v0] entries IH]; simpl; intros h Hk; [reflexivity|].
  apply not_elem_of_cons in Hk as [Hne Hk]. unfold set_all in *. simpl.
  rewrite IH by exact Hk. apply lookup_insert_ne. congruence.
Qed.

Lemma set_all_entry entries (h : gmap string string) k v :
  NoDup entries.*1 -> (k, v) ∈ entries -> set_all entries h !! k = Some v.
Proof.
  revert h. induction entries as [|[k0 v0] entries IH]; simpl; intros h Hnd Hin.
  - inversion Hin.
  - apply NoDup_cons in Hnd as [Hk0 Hnd]. unfold set_all in *. simpl.
    apply elem_of_cons in Hin as [Heq|Hin].
    + injection Heq as -> ->. fold (set_all entries (<[k0:=v0]> h)).
      rewrite set_all_other by exact Hk0. apply lookup_insert_eq.
    + apply IH; assumption.
Qed.

(** Every header of the upstream answer is on the response, and no other
    header is touched. *)
Lemma relayed_headers response res k :
  sent_headers (relayed response res) !! k =
  match headers response !! k with
  | Some v => Some v
  | None => sent_headers res !! k
  end.
Proof.
  simpl. destruct (headers response !! k) as [v|] eqn:E.
  - apply set_all_entry; [apply NoDup_fst_map_to_list|].
    apply elem_of_map_to_list. exact E.
  - apply set_all_other. intros H. apply list_elem_of_fmap in H as ([k' v] & -> & H).
    apply elem_of_map_to_list in H. simpl in E. congruence.
Qed.

Local Ltac run :=
  unfold try_catch, await, axios, throw, res_status, res_send, res_end, modify,
    mbind, Eff_bind; simpl.

Lemma admin_proxy_answered frontend req res out response :
  admin_request req = Some out ->
  frontend out = Answered response ->
  Router.admin_proxy frontend req res =
    if Router.admin_validateStatus (status response)
    then (Normal tt, relayed response res)
    else (Normal tt, sent 500 "Error processing admin request" res).
Proof.
  unfold admin_request, Router.admin_proxy, proxied_headers. intros Hout Hans.
  destruct (String.eqb (method req) "GET");
    [|destruct (String.eqb (method req) "POST"); [|discriminate]];
    injection Hout as <-; run; rewrite Hans; simpl;
    destruct (Router.admin_validateStatus (status response)); simpl; try reflexivity;
    rewrite res_setHeaders_run; unfold relayed; simpl;
    destruct (status response =? 304)%Z; reflexivity.
Qed.

Lemma admin_proxy2_answered frontend req res out response :
  admin_request2 req = Some out ->
  frontend out = Answered response ->
  Router2.admin_proxy frontend req res =
    if Router2.admin_validateStatus (status response)
    then (Normal tt, relayed response res)
    else (Normal tt, sent 500 "Error processing admin request" res).
Proof.
  unfold admin_request2, Router2.admin_proxy, proxied_headers. intros Hout Hans.
  destruct (String.eqb (method req) "GET");
    [|destruct (String.eqb (method req) "POST"); [|discriminate];
      destruct (includes _ "application/x-www-form-urlencoded")];
    injection Hout as <-; run; rewrite Hans; simpl;
    destruct (Router2.admin_validateStatus (status response)); simpl; try reflexivity;
    rewrite res_setHeaders_run; unfold relayed; simpl;
    destruct (status response =? 304)%Z; reflexivity.
Qed.

Lemma app_get frontend routeCache req :
  startsWith (originalUrl req) "/admin" = false ->
  method req = "GET" ->
  Router.app frontend routeCache req = Router.get_path frontend routeCache req.
Proof. intros H1 H2. unfold Router.app. rewrite H1, H2. reflexivity. Qed.

Lemma app2_get frontend routeCache req :
  startsWith (originalUrl req) "/admin" = false ->
  method req = "GET" ->
  Router2.app frontend routeCache req = Router2.get_path frontend req.
Proof. intros H1 H2. unfold Router2.app. rewrite H1, H2. reflexivity. Qed.

Lemma get_path_miss frontend routeCache req res path :
  params_path req = Some path ->
  path <> "" ->
  startsWith path "search" = false ->
  found routeCache path = false ->
  Router.get_path frontend routeCache req res =
    match Router.get_plain frontend "http://frontend:3001/404" with
    | Resolved response => (Normal tt, sent 404 (data response) res)
    | Rejected _ => (Normal tt, sent 404 "Page not found" res)
    end.
Proof.
  intros Hp Hne Hs Hc. unfold Router.get_path. rewrite Hp.
  change (default "" (Some path)) with path. cbv zeta. rewrite Hs.
  apply String.eqb_neq in Hne. rewrite Hne, Hc. run.
  destruct (Router.get_plain frontend "http://frontend:3001/404"); reflexivity.
Qed.

Lemma get_path_hit frontend routeCache req res path :
  params_path req = Some path ->
  path <> "" ->
  startsWith path "search" = false ->
  found routeCache path = true ->
  Router.get_path frontend routeCache req res =
    match Router.get_plain frontend ("http://frontend:3001/" ++ path) with
    | Resolved response =>
        (Normal tt,
         {| statusCode := statusCode res; sent_headers := sent_headers res;
            sent_body := Some (data response); finished := true |})
    | Rejected _ => (Normal tt, sent 500 "Error processing content request" res)
    end.
Proof.
  intros Hp Hne Hs Hc. unfold Router.get_path. rewrite Hp.
  change (default "" (Some path)) with path. cbv zeta. rewrite Hs.
  apply String.eqb_neq in Hne. rewrite Hne, Hc. run.
  destruct (Router.get_plain frontend _); reflexivity.
Qed.

Lemma get_path2_answered frontend req res path response :
  params_path req = Some path ->
  path <> "" ->
  startsWith path "search" = false ->
  frontend (get_request ("http://frontend:3001/" ++ path)) = Answered response ->
  Router2.get_path frontend req res = (Normal tt, forwarded response res).
Proof.
  intros Hp Hne Hs Hans. unfold Router2.get_path, Router2.targetUrl_of.
  rewrite Hp. change (default "" (Some path)) with path. cbv zeta.
  rewrite Hs. apply String.eqb_neq in Hne. rewrite Hne.
  fold (get_request ("http://frontend:3001/" ++ path)).
  unfold try_catch, await, axios, mbind, Eff_bind. rewrite Hans.
  unfold res_status, res_send, modify. simpl.
  unfold forwarded, res_setHeader, modify.
  destruct (headers response !! "content-type") as [value|]; [|reflexivity].
  destruct (String.eqb value ""); reflexivity.
Qed.

(** The frontend of this repository serves its not-found page with status
    404; [axios] rejects that answer, and the router falls back to its own
    text. *)
Lemma get_path_miss_rejected frontend routeCache req res path response :
  params_path req = Some path ->
  path <> "" ->
  startsWith path "search" = false ->
  found routeCache path = false ->
  frontend (get_request "http://frontend:3001/404") = Answered response ->
  default_validateStatus (status response) = false ->
  Router.get_path frontend routeCache req res = (Normal tt, sent 404 "Page not found" res).
Proof.
  intros Hp Hne Hs Hc Hans Hv.
  rewrite (get_path_miss frontend routeCache req res path Hp Hne Hs Hc).
  unfold Router.get_plain. fold (get_request "http://frontend:3001/404").
  rewrite Hans. simpl. rewrite Hv. reflexivity.
Qed.

Lemma delete_all_lookup (keys : list string) (cache : gmap string Route) k :
  fold_left (fun cache key => delete key cache) keys cache !! k =
  if decide (k ∈ keys) then None else cache !! k.
Proof.
  revert cache. induction keys as [|key keys IH]; simpl; intros cache.
  - reflexivity.
  - rewrite IH. destruct (decide (k ∈ keys)) as [Hin|Hnin].
    + rewrite decide_True by (now right). reflexivity.
    + destruct (decide (k = key)) as [->|Hne].
      * rewrite decide_True by (now left). apply lookup_delete_eq.
      * rewrite decide_False by (intros H; apply elem_of_cons in H; tauto).
        apply lookup_delete_ne. congruence.
Qed.

(** Deleting every own key leaves no entry; the prototype stays. *)
Lemma clear_entries cache :
  clear cache = {| entries := ∅; prototype := prototype cache |}.
Proof.
  unfold clear. f_equal.
  apply map_eq. intros k. rewrite delete_all_lookup, lookup_empty.
  destruct (decide _) as [_|Hnin]; [reflexivity|].
  destruct (entries cache !! k) as [route|] eqn:E; [|reflexivity].
  exfalso. apply Hnin. change (k ∈ (map_to_list (entries cache)).*1).
  apply list_elem_of_fmap. exists (k, route).
  split; [reflexivity|]. apply elem_of_map_to_list. exact E.
Qed.

(** A refresh that succeeds replaces the entries by one per listed
    document. *)
Lemma refreshRoutes_resolved contents st :
  routeCache (snd (refreshRoutes (Resolved contents) st)) =
    populate contents {| entries := ∅; prototype := prototype (routeCache st) |} /\
  fst (refreshRoutes (Resolved contents) st) = Normal tt.
Proof.
  unfold refreshRoutes, try_catch, log, set_routeCache, get_state, modify, await,
    mbind, Eff_bind. simpl. rewrite clear_entries. split; reflexivity.
Qed.

(** An entry of its own is found. *)
Lemma found_entry cache path route :
  entries cache !! path = Some route -> found cache path = true.
Proof. intros H. unfold found. rewrite H. reflexivity. Qed.

(** In a cache whose prototype was never replaced, a path without an
    entry is found exactly when it names an inherited member. *)
Lemma found_inherited cache path :
  prototype cache = None -> entries cache !! path = None ->
  found cache path = inherited path.
Proof. intros H1 H2. unfold found. rewrite H1, H2. reflexivity. Qed.

End RouterFacts.
(** * The specification's claims *)

Section Claims.

Import JS Publishing SearchApi Runs Invariants IndexMaps Doubles Examples.

(** C9. [tokenizeText] lower-cases the text, puts a space for every
    character that is neither a word character nor whitespace, splits at
    the runs of whitespace and drops the pieces of length at most one. It
    is a function of the text alone. Its tokens are therefore the runs of
    word characters of the lower-cased text that are at least two long,
    each made of lower-case letters, digits and underscores; and
    [tokenizeText "Foo, bar-baz!"] is [["foo"; "bar"; "baz"]]. *)
Theorem tokenize_pipeline :
  (forall text,
     tokenizeText text =
       List.filter (fun token => (1 <? String.length token)%nat)
         (split_ws (replace_nonword (toLowerCase text))))
  /\ (forall c,
        replace_nonword_char c = if is_word_char c || is_space_char c then c else " "%char)
  /\ (forall text, tokenizeText text = word_runs text)
  /\ (forall text,
        Forall (fun token =>
                  (1 < String.length token)%nat /\
                  Forall (fun c => is_token_char c = true) (chars token))
          (tokenizeText text))
  /\ tokenizeText "Foo, bar-baz!" = ["foo"; "bar"; "baz"].
Proof.
  split; [reflexivity|]. split; [reflexivity|].
  split; [apply tokenizeText_word_runs|]. split; [|reflexivity].
  intros text. apply List.Forall_forall. intros token H. split.
  - apply token_length in H. lia.
  - apply token_chars in H. exact H.
Qed.

(** C1. On an indexing run that returns, what the claim says holds: an id
    is listed under a token exactly when the document stored under that
    id has the token among the tokens of its text, no entry holds an empty
    set, and the id of the item indexed last is listed under exactly the
    tokens of its new text; a listing of items whose ids and tokens name
    no inherited member is such a run. Indexing D with the text "alpha
    beta" and then with the title "gamma" leaves no entry for "alpha" or
    "beta" and the set of D alone under "gamma", and a search for "alpha"
    has no hits. The code breaks the claim for a text that holds the word
    "constructor": the token index is a plain object, the lookup finds the
    member every object inherits, and [indexDocument] throws after it has
    stored the document and before it lists the id under "notes", a token
    of the stored text. *)
Theorem index_consistency :
  (forall contents idx,
     indexAll contents empty_index = (Normal tt, idx) ->
     (forall token id,
        In id (postings (tokenizedIndex idx) token) <->
        exists doc,
          documents idx !! id = Some doc /\ In token (tokenizeText (doc_text doc)))
     /\ (forall token, tokenizedIndex idx !! token <> Some []))
  /\ (forall contents content idx token,
        indexAll (contents ++ [content]) empty_index = (Normal tt, idx) ->
        In (_id content) (postings (tokenizedIndex idx) token) <->
        In token (tokenizeText (searchableText content)))
  /\ (forall contents,
        forallb plain contents = true ->
        fst (indexAll contents empty_index) = Normal tt)
  /\ (indexAll [alpha_beta; gamma] empty_index =
        (Normal tt, snd (indexAll [alpha_beta; gamma] empty_index))
      /\ doc_text <$> documents (snd (indexAll [alpha_beta] empty_index)) !! "D" =
           Some "alpha beta"
      /\ tokenizedIndex (snd (indexAll [alpha_beta] empty_index)) !! "alpha" = Some ["D"]
      /\ tokenizedIndex (snd (indexAll [alpha_beta] empty_index)) !! "beta" = Some ["D"]
      /\ doc_text <$> documents (snd (indexAll [alpha_beta; gamma] empty_index)) !! "D" =
           Some "gamma "
      /\ tokenizedIndex (snd (indexAll [alpha_beta; gamma] empty_index)) !! "alpha" = None
      /\ tokenizedIndex (snd (indexAll [alpha_beta; gamma] empty_index)) !! "beta" = None
      /\ tokenizedIndex (snd (indexAll [alpha_beta; gamma] empty_index)) !! "gamma" =
           Some ["D"]
      /\ hit_ids (search (snd (indexAll [alpha_beta; gamma] empty_index)) (query "alpha")) =
           Normal [])
  /\ ((exists e, fst (indexDocument constructor_notes empty_index) = Throw e)
      /\ doc_text <$> documents (snd (indexDocument constructor_notes empty_index)) !! "D" =
           Some "constructor notes"
      /\ tokenizeText "constructor notes" = ["constructor"; "notes"]
      /\ postings (tokenizedIndex (snd (indexDocument constructor_notes empty_index)))
           "notes" = []
      /\ tokenizedIndex (snd (indexDocument constructor_notes empty_index)) = ∅).
Proof.
  split; [|split; [|split; [|split]]].
  - intros contents idx H. apply indexAll_Normal in H. subst idx.
    pose proof (indexed_all_consistent contents _ consistent_empty) as Hc. split.
    + apply (posted_iff _ Hc).
    + intros token H. apply (index_well_formed _ Hc) in H. destruct H as [H _]. now apply H.
  - intros contents content idx token H. apply indexAll_Normal in H. subst idx.
    rewrite indexed_all_snoc.
    apply indexed_postings, consistent_sound, indexed_all_consistent, consistent_empty.
  - intros contents H.
    destruct (indexAll_completes contents empty_index consistent_empty
                no_inherited_keys_empty H) as [-> _]. reflexivity.
  - repeat split; vm_compute; reflexivity.
  - split; [eexists; vm_compute; reflexivity|].
    repeat split; vm_compute; reflexivity.
Qed.

Lemma index_consistency_witness :
  indexAll [apple_pie; apple_sauce] empty_index = (Normal tt, apples)
  /\ forallb plain [apple_pie; apple_sauce] = true
  /\ (In "D2" (postings (tokenizedIndex apples) "sauce") <->
      In "sauce" (tokenizeText (searchableText apple_sauce)))
  /\ tokenizedIndex apples !! "sauce" <> Some [].
Proof.
  assert (indexAll [apple_pie; apple_sauce] empty_index = (Normal tt, apples)) as Hrun
    by (vm_compute; reflexivity).
  destruct index_consistency as (Hall & Hlast & Hplain & _).
  split; [exact Hrun|]. split; [vm_compute; reflexivity|]. split.
  - exact (Hlast [apple_pie] apple_sauce apples "sauce" Hrun).
  - destruct (Hall _ _ Hrun) as [_ Hne]. apply Hne.
Defined.

(** C4. When the loop over the query tokens returns, the candidate ids
    are exactly the ids listed under every query token, and it returns
    whenever no query token names an inherited member; a token without an
    entry then stands for the empty set, so that one such token leaves no
    candidate. With D1 "apple pie" and D2 "apple sauce" indexed, "apple
    pie" finds D1 only, "apple" finds both and "pie sauce" finds neither.
    The code breaks the claim for the query token "constructor", which is
    absent from the index: the lookup in the plain object finds the
    inherited member instead of nothing, and the handler throws, on
    [new Set] of it for a first token and on the call of its [has]
    otherwise. *)
Theorem search_and_semantics :
  (forall index t tokens ids,
     matchingIds index (t :: tokens) = Normal ids ->
     forall id, In id ids <-> forall u, In u (t :: tokens) -> In id (postings index u))
  /\ (forall index tokens,
        Forall (fun u => inherited u = false) tokens ->
        exists ids, matchingIds index tokens = Normal ids)
  /\ (forall index t tokens,
        Forall (fun u => inherited u = false) (t :: tokens) ->
        Exists (fun u => index !! u = None) (t :: tokens) ->
        matchingIds index (t :: tokens) = Normal [])
  /\ (doc_text <$> documents apples !! "D1" = Some "apple pie"
      /\ doc_text <$> documents apples !! "D2" = Some "apple sauce"
      /\ size (documents apples) = 2%nat
      /\ hit_ids (search apples (query "apple pie")) = Normal ["D1"]
      /\ hit_ids (search apples (query "apple")) = Normal ["D1"; "D2"]
      /\ hit_ids (search apples (query "pie sauce")) = Normal [])
  /\ (tokenizedIndex apples !! "constructor" = None
      /\ (exists e, search apples (query "constructor") = Throw e)
      /\ (exists e, search apples (query "apple constructor") = Throw e)).
Proof.
  assert (forall index tokens,
            Forall (fun u => inherited u = false) tokens ->
            exists ids, matchingIds index tokens = Normal ids) as Htotal.
  { intros index tokens H. apply matchingIds_total. intros u Hu Hi.
    apply get_property_Inherited in Hi as [_ Hi].
    rewrite List.Forall_forall in H. specialize (H u Hu). congruence. }
  split; [|split; [|split; [|split]]].
  - intros index t tokens ids H. apply (matchingIds_In _ _ _ _ H).
  - exact Htotal.
  - intros index t tokens Hplain H. apply List.Exists_exists in H as (u & Hu & Hnone).
    destruct (Htotal index (t :: tokens) Hplain) as [ids Hm]. rewrite Hm. f_equal.
    destruct ids as [|id l]; [reflexivity|].
    assert (In id (id :: l)) as Hid by now left.
    rewrite (matchingIds_In _ _ _ _ Hm) in Hid. specialize (Hid u Hu).
    unfold postings in Hid. rewrite Hnone in Hid. destruct Hid.
  - repeat split; vm_compute; reflexivity.
  - split; [vm_compute; reflexivity|].
    split; eexists; vm_compute; reflexivity.
Qed.

Lemma search_and_semantics_witness :
  matchingIds (tokenizedIndex apples) ["apple"; "pie"] = Normal ["D1"]
  /\ (In "D1" ["D1"] <->
      forall u, In u ["apple"; "pie"] -> In "D1" (postings (tokenizedIndex apples) u))
  /\ matchingIds (tokenizedIndex apples) ["pie"; "zebra"] = Normal [].
Proof.
  assert (matchingIds (tokenizedIndex apples) ["apple"; "pie"] = Normal ["D1"]) as Hm
    by (vm_compute; reflexivity).
  destruct search_and_semantics as (Hin & _ & Hnone & _).
  split; [exact Hm|]. split.
  - exact (Hin _ _ _ _ Hm "D1").
  - apply Hnone.
    + repeat constructor.
    + apply List.Exists_cons_tl, List.Exists_cons_hd. vm_compute. reflexivity.
Defined.








(** C2, as the code has it. A run of [incrementalIndexUpdate] whose fetch
    succeeds sets [lastIndexedTime] to the current time when at least one
    fetched document is published and newer than [lastIndexedTime] and
    the indexing of those documents returns, and likewise when no build
    has run before and the full build it hands over to fetches and
    indexes its listing. When no fetched document passes the filter the
    run returns early: index and [lastIndexedTime] stay as they were. *)
Theorem incremental_update_time w st :
  (forall last allContent idx,
     lastIndexedTime st = Some last ->
     all_content w = Resolved allContent ->
     List.filter (changed_since last) allContent <> [] ->
     indexAll (List.filter (changed_since last) allContent) (searchIndex st) =
       (Normal tt, idx) ->
     fst (incrementalIndexUpdate w st) = Normal tt /\
     lastIndexedTime (snd (incrementalIndexUpdate w st)) = Some (now w) /\
     searchIndex (snd (incrementalIndexUpdate w st)) = idx)
  /\ (forall last allContent,
        lastIndexedTime st = Some last ->
        all_content w = Resolved allContent ->
        List.filter (changed_since last) allContent = [] ->
        fst (incrementalIndexUpdate w st) = Normal tt /\
        lastIndexedTime (snd (incrementalIndexUpdate w st)) = lastIndexedTime st /\
        searchIndex (snd (incrementalIndexUpdate w st)) = searchIndex st)
  /\ (forall contents idx,
        lastIndexedTime st = None ->
        published_content w = Resolved contents ->
        indexAll contents empty_index = (Normal tt, idx) ->
        fst (incrementalIndexUpdate w st) = Normal tt /\
        lastIndexedTime (snd (incrementalIndexUpdate w st)) = Some (now w) /\
        searchIndex (snd (incrementalIndexUpdate w st)) = idx).
Proof.
  split; [|split].
  - intros last allContent idx H1 H2 H3 H4.
    rewrite (incremental_changed w st last allContent H1 H2 H3). cbv zeta.
    rewrite H4. repeat split.
  - intros last allContent H1 H2 H3.
    rewrite (incremental_nothing_new w st last allContent H1 H2 H3). repeat split.
  - intros contents idx H1 H2 H3.
    rewrite (incremental_first_run w st H1), (buildSearchIndex_resolved w st contents H2), H3.
    repeat split.
Qed.

Lemma incremental_update_time_witness :
  lastIndexedTime built = Some 100%Z /\
  lastIndexedTime (snd (incrementalIndexUpdate busy_world built)) = Some 200%Z /\
  lastIndexedTime (snd (incrementalIndexUpdate quiet_world built)) = Some 100%Z /\
  lastIndexedTime (snd (incrementalIndexUpdate first_world initial)) = Some 100%Z.
Proof.
  split; [reflexivity|].
  destruct (incremental_update_time busy_world built) as (Hbusy & _ & _).
  destruct (incremental_update_time quiet_world built) as (_ & Hquiet & _).
  destruct (incremental_update_time first_world initial) as (_ & _ & Hfirst).
  split; [|split].
  - apply (Hbusy 100%Z [fresh_pie; apple_sauce; draft]
             (snd (indexAll [fresh_pie] (searchIndex built)))).
    + reflexivity.
    + reflexivity.
    + vm_compute; discriminate.
    + vm_compute; reflexivity.
  - apply (Hquiet 100%Z [apple_pie; apple_sauce; draft]).
    + reflexivity.
    + reflexivity.
    + vm_compute; reflexivity.
  - apply (Hfirst [apple_pie; apple_sauce] apples).
    + reflexivity.
    + reflexivity.
    + vm_compute; reflexivity.
Defined.

(** C2 as stated fails: a run at time 200 that succeeds and finds nothing
    changed since the build at time 100 leaves [lastIndexedTime] at 100. *)
Lemma incremental_update_keeps_time :
  incrementalIndexUpdate quiet_world built =
    (Normal tt,
     {| searchIndex := searchIndex built;
        lastIndexedTime := Some 100%Z;
        console := console built ++ [LogIncremental; LogNothingNew] |})
  /\ now quiet_world = 200%Z
  /\ lastIndexedTime (snd (incrementalIndexUpdate quiet_world built)) <> Some (now quiet_world).
Proof.
  split; [vm_compute; reflexivity|]. split; [reflexivity|].
  vm_compute. discriminate.
Qed.

(** C7. When the fetch of the published content fails, [buildSearchIndex]
    leaves the documents, the token index and [lastIndexedTime] as they
    were, and [refreshRoutes] leaves the route cache as it was; each
    writes the failure to the console and returns normally. *)
Theorem fetch_failure_keeps_snapshot :
  (forall message all_content now st,
     buildSearchIndex
       {| published_content := Rejected message; all_content := all_content; now := now |} st =
     (Normal tt,
      {| searchIndex := searchIndex st;
         lastIndexedTime := lastIndexedTime st;
         console := console st ++ [LogBuilding; LogBuildFailed message] |}))
  /\ (forall message st,
        RouteCache.refreshRoutes (Rejected message) st =
        (Normal tt,
         {| RouteCache.routeCache := RouteCache.routeCache st;
            RouteCache.console :=
              RouteCache.console st ++
              [RouteCache.LogAttempt; RouteCache.LogRefreshFailed message] |})).
Proof.
  split.
  - intros message all_content now st. apply buildSearchIndex_rejected. reflexivity.
  - intros message st.
    unfold RouteCache.refreshRoutes, try_catch, RouteCache.log, modify, await, mbind, Eff_bind.
    simpl. rewrite <- app_assoc. reflexivity.
Qed.

End Claims.
Section RouterClaims.

Import JS Http RouteCache Relay RouterExamples.

(** C8. On the admin path of either revision, when the frontend answers
    the proxied request (a [GET] or a [POST], the methods the branch
    forwards) with a status from 200 up to but not including 500, the
    client gets that status and every header of the answer; for a 304 the
    response is ended without a body, and for any other such status, 404
    among them, the body of the answer is sent. *)
Theorem admin_status_transparency frontend routeCache req res response :
  startsWith (originalUrl req) "/admin" = true ->
  (200 <= status response < 500)%Z ->
  (forall out,
     admin_request req = Some out -> frontend out = Answered response ->
     Router.app frontend routeCache req res = (Normal tt, relayed response res))
  /\ (forall out,
        admin_request2 req = Some out -> frontend out = Answered response ->
        Router2.app frontend routeCache req res = (Normal tt, relayed response res))
  /\ statusCode (relayed response res) = status response
  /\ (forall k v,
        headers response !! k = Some v ->
        sent_headers (relayed response res) !! k = Some v)
  /\ (forall k,
        headers response !! k = None ->
        sent_headers (relayed response res) !! k = sent_headers res !! k)
  /\ (status response = 304%Z -> sent_body (relayed response res) = None)
  /\ (status response <> 304%Z -> sent_body (relayed response res) = Some (data response))
  /\ finished (relayed response res) = true.
Proof.
  intros Hadmin Hstatus.
  assert (Router.admin_validateStatus (status response) = true) as Hv.
  { unfold Router.admin_validateStatus. apply andb_true_iff.
    rewrite Z.leb_le, Z.ltb_lt. lia. }
  repeat split.
  - intros out Hout Hans. unfold Router.app. rewrite Hadmin.
    rewrite (admin_proxy_answered frontend req res out response Hout Hans), Hv.
    reflexivity.
  - intros out Hout Hans. unfold Router2.app. rewrite Hadmin.
    rewrite (admin_proxy2_answered frontend req res out response Hout Hans).
    unfold Router2.admin_validateStatus. unfold Router.admin_validateStatus in Hv.
    rewrite Hv. reflexivity.
  - intros k v H. rewrite relayed_headers, H. reflexivity.
  - intros k H. rewrite relayed_headers, H. reflexivity.
  - intros H. simpl. rewrite H. reflexivity.
  - intros H. simpl. apply Z.eqb_neq in H. rewrite H. reflexivity.
Qed.

Lemma admin_status_transparency_witness :
  Router.app (answers 304 etag "") ∅ get_admin fresh =
    (Normal tt,
     {| statusCode := 304; sent_headers := etag; sent_body := None; finished := true |})
  /\ Router2.app (answers 404 etag "no such page") ∅ get_admin fresh =
    (Normal tt,
     {| statusCode := 404; sent_headers := etag; sent_body := Some "no such page";
        finished := true |}).
Proof.
  split.
  - destruct (admin_status_transparency (answers 304 etag "") ∅ get_admin fresh
                {| status := 304; headers := etag; data := "" |}) as (H & _).
    + reflexivity.
    + simpl. lia.
    + rewrite (H _ eq_refl eq_refl). vm_compute. reflexivity.
  - destruct (admin_status_transparency (answers 404 etag "no such page") ∅ get_admin fresh
                {| status := 404; headers := etag; data := "no such page" |}) as (_ & H & _).
    + reflexivity.
    + simpl. lia.
    + rewrite (H _ eq_refl eq_refl). vm_compute. reflexivity.
Defined.

(** C3, as the code has it. For a [GET] of a path that is not under
    [/admin], not empty and not starting with [search]:
    [router/index.js] looks the path up in the route cache. When the
    lookup finds nothing, as it does for a path that has no entry and
    names neither an inherited member nor a field of a route, the
    response has status 404, with the body of the frontend's [/404] page
    when fetching it succeeds. When the path has an entry the router
    sends a [GET] for the same path to the frontend; a 2xx answer has its
    body sent on with the status of the response left as it was, and any
    other answer gives status 500 with a fixed body. The revised handler
    does not read the route cache: it sends a [GET] for the same path and
    passes on the status and the body of whatever the frontend answers. *)
Theorem content_route frontend routeCache req res path :
  startsWith (originalUrl req) "/admin" = false ->
  method req = "GET" ->
  params_path req = Some path ->
  path <> "" ->
  startsWith path "search" = false ->
  (found routeCache path = false ->
   exists body,
     Router.app frontend routeCache req res = (Normal tt, sent 404 body res) /\
     forall response,
       frontend (get_request "http://frontend:3001/404") = Answered response ->
       default_validateStatus (status response) = true ->
       body = data response)
  /\ (entries routeCache !! path = None ->
      inherited path = false ->
      path <> "contentId" -> path <> "documentType" ->
      found routeCache path = false)
  /\ (forall route response,
        entries routeCache !! path = Some route ->
        frontend (get_request ("http://frontend:3001/" ++ path)) = Answered response ->
        Router.app frontend routeCache req res =
          if default_validateStatus (status response)
          then (Normal tt,
                {| statusCode := statusCode res; sent_headers := sent_headers res;
                   sent_body := Some (data response); finished := true |})
          else (Normal tt, sent 500 "Error processing content request" res))
  /\ (forall response,
        frontend (get_request ("http://frontend:3001/" ++ path)) = Answered response ->
        Router2.app frontend routeCache req res = (Normal tt, forwarded response res) /\
        statusCode (forwarded response res) = status response /\
        sent_body (forwarded response res) = Some (data response)).
Proof.
  intros Hadmin Hget Hp Hne Hs. split; [|split; [|split]].
  - intros Hc. rewrite (app_get _ _ _ Hadmin Hget).
    rewrite (get_path_miss frontend routeCache req res path Hp Hne Hs Hc).
    unfold Router.get_plain. fold (get_request "http://frontend:3001/404").
    destruct (frontend (get_request "http://frontend:3001/404")) as [m|r] eqn:E; simpl.
    + exists "Page not found". split; [reflexivity|]. intros response H. discriminate.
    + destruct (default_validateStatus (status r)) eqn:Ev.
      * exists (data r). split; [reflexivity|]. intros response H _.
        injection H as <-. reflexivity.
      * exists "Page not found". split; [reflexivity|]. intros response H Hv.
        injection H as <-. congruence.
  - intros He Hi H1 H2. unfold found. rewrite He, Hi.
    apply String.eqb_neq in H1, H2. rewrite H1, H2.
    destruct (prototype routeCache); reflexivity.
  - intros route response Hc Hans. rewrite (app_get _ _ _ Hadmin Hget).
    rewrite (get_path_hit frontend routeCache req res path Hp Hne Hs (found_entry _ _ _ Hc)).
    unfold Router.get_plain. fold (get_request ("http://frontend:3001/" ++ path)).
    rewrite Hans. simpl. destruct (default_validateStatus (status response)); reflexivity.
  - intros response Hans. rewrite (app2_get _ _ _ Hadmin Hget).
    rewrite (get_path2_answered frontend req res path response Hp Hne Hs Hans).
    repeat split.
Qed.

Lemma content_route_witness :
  Router.app (answers 200 ∅ "not found page") ∅ get_about fresh =
    (Normal tt, sent 404 "not found page" fresh)
  /\ Router.app (answers 200 ∅ "about us") about_cached get_about fresh =
    (Normal tt,
     {| statusCode := 200; sent_headers := ∅; sent_body := Some "about us";
        finished := true |})
  /\ Router2.app (answers 404 ∅ "gone") about_cached get_about fresh =
    (Normal tt,
     {| statusCode := 404; sent_headers := ∅; sent_body := Some "gone";
        finished := true |}).
Proof.
  assert (startsWith (originalUrl get_about) "/admin" = false) as H1 by reflexivity.
  assert (method get_about = "GET") as H2 by reflexivity.
  assert (params_path get_about = Some "about") as H3 by reflexivity.
  assert ("about" <> "") as H4 by discriminate.
  assert (startsWith "about" "search" = false) as H5 by reflexivity.
  split; [|split].
  - destruct (content_route (answers 200 ∅ "not found page") ∅ get_about fresh "about"
                H1 H2 H3 H4 H5) as (Hmiss & Hnone & _).
    destruct Hmiss as (body & Happ & Hbody).
    { apply Hnone; [reflexivity|reflexivity|discriminate|discriminate]. }
    rewrite Happ, (Hbody _ eq_refl eq_refl). reflexivity.
  - destruct (content_route (answers 200 ∅ "about us") about_cached get_about fresh "about"
                H1 H2 H3 H4 H5) as (_ & _ & Hhit & _).
    rewrite (Hhit _ _ eq_refl eq_refl). reflexivity.
  - destruct (content_route (answers 404 ∅ "gone") about_cached get_about fresh "about"
                H1 H2 H3 H4 H5) as (_ & _ & _ & Hfwd).
    destruct (Hfwd _ eq_refl) as (Happ & _). rewrite Happ. reflexivity.
Defined.

(** C3 as stated fails in each revision. In [router/index.js] a cached
    path that the frontend answers with 404 is given status 500 and a
    fixed body, not the status and body of the answer. In the revised
    router a path that is absent from the cache is given whatever the
    frontend answers, here a 200. *)
Lemma content_route_not_relayed :
  Router.app (answers 404 ∅ "gone") about_cached get_about fresh =
    (Normal tt,
     {| statusCode := 500; sent_headers := ∅;
        sent_body := Some "Error processing content request"; finished := true |})
  /\ entries (∅ : Cache) !! "about" = None
  /\ found (∅ : Cache) "about" = false
  /\ Router2.app (answers 200 ∅ "draft page") ∅ get_about fresh =
    (Normal tt,
     {| statusCode := 200; sent_headers := ∅; sent_body := Some "draft page";
        finished := true |}).
Proof. repeat split. Qed.

End RouterClaims.
(** * Further properties of the search index engine *)

Section TokenFields.

Import JS Publishing SearchApi Runs Invariants Fields.

Lemma pieces_not_nil sep s : pieces sep s <> [].
Proof.
  destruct s as [|c s]; simpl; [discriminate|].
  destruct (sep c); [discriminate|]. destruct (pieces sep s); discriminate.
Qed.

Lemma pieces_app_sep sep a c b :
  sep c = true ->
  pieces sep (a ++ String c b) = (pieces sep a ++ pieces sep b)%list.
Proof.
  intros Hc. induction a as [|x a IH].
  - rewrite append_nil. simpl. rewrite Hc. reflexivity.
  - rewrite append_cons. simpl. rewrite IH. destruct (sep x); [reflexivity|].
    pose proof (pieces_not_nil sep a) as Hn.
    destruct (pieces sep a); [contradiction|reflexivity].
Qed.

Lemma word_runs_app_space a b : word_runs (a ++ " " ++ b) = (word_runs a ++ word_runs b)%list.
Proof.
  unfold word_runs. rewrite toLowerCase_app.
  change (toLowerCase (" " ++ b)) with (String " "%char (toLowerCase b)).
  rewrite pieces_app_sep by reflexivity. apply List.filter_app.
Qed.

Lemma tokenizeText_app_space a b :
  tokenizeText (a ++ " " ++ b) = (tokenizeText a ++ tokenizeText b)%list.
Proof. rewrite !tokenizeText_word_runs. apply word_runs_app_space. Qed.

Lemma tokenizeText_trailing_space a : tokenizeText (a ++ " ") = tokenizeText a.
Proof.
  change (a ++ " ") with (a ++ " " ++ EmptyString). rewrite tokenizeText_app_space.
  change (tokenizeText EmptyString) with (@nil string). apply app_nil_r.
Qed.

Lemma parts_tokens parts text0 :
  tokenizeText
    (fold_left (fun text part => text ++ part_title part ++ " " ++ part_body part ++ " ")
       parts (text0 ++ " ")) =
  (tokenizeText text0 ++ flat_map part_tokens parts)%list.
Proof.
  revert text0. induction parts as [|p parts IH]; intros text0; simpl.
  - rewrite tokenizeText_trailing_space, app_nil_r. reflexivity.
  - replace ((text0 ++ " ") ++ part_title p ++ " " ++ part_body p ++ " ")
      with ((text0 ++ " " ++ part_title p ++ " " ++ part_body p) ++ " ").
    + rewrite IH, !tokenizeText_app_space. unfold part_tokens.
      rewrite <- !app_assoc. reflexivity.
    + rewrite !string_app_assoc. reflexivity.
Qed.

(** The tokens of the searchable text are those of the title followed by
    those of the fields of the document type. *)
Lemma searchableText_tokens content :
  tokenizeText (searchableText content) =
  (tokenizeText (title content) ++ field_tokens content)%list.
Proof.
  unfold searchableText, field_tokens.
  destruct (String.eqb (document_type content) "simple-page").
  - rewrite string_app_assoc. apply tokenizeText_app_space.
  - destruct (String.eqb (document_type content) "guide").
    + replace ((title content ++ " ") ++ introduction content ++ " ")
        with ((title content ++ " " ++ introduction content) ++ " ")
        by (rewrite !string_app_assoc; reflexivity).
      rewrite parts_tokens, tokenizeText_app_space, <- app_assoc. reflexivity.
    + rewrite tokenizeText_trailing_space, app_nil_r. reflexivity.
Qed.

End TokenFields.

Section ReindexFacts.

Import JS Publishing SearchApi Invariants IndexMaps Fields.

Lemma remove_absent id l : ~ In id l -> remove id l = l.
Proof.
  unfold remove. induction l as [|x l IH]; simpl; intros H; [reflexivity|].
  destruct (String.eqb x id) eqn:E.
  - apply String.eqb_eq in E. subst x. exfalso. apply H. now left.
  - simpl. f_equal. apply IH. intros Hin. apply H. now right.
Qed.

Lemma remove_remove id l : remove id (remove id l) = remove id l.
Proof. apply remove_absent. rewrite In_remove. tauto. Qed.

Lemma remove_add id l : ~ In id l -> remove id (add id l) = l.
Proof.
  intros H. unfold add. destruct (has l id) eqn:E; [apply has_In in E; contradiction|].
  unfold remove. rewrite List.filter_app. fold (remove id l). rewrite (remove_absent id l H).
  simpl. rewrite String.eqb_refl. simpl. apply app_nil_r.
Qed.

Lemma add_add id l : add id (add id l) = add id l.
Proof.
  unfold add at 1. assert (has (add id l) id = true) as ->; [|reflexivity].
  apply has_In, In_add. now left.
Qed.

Lemma pruned_pruned id entry : pruned id (pruned id entry) = pruned id entry.
Proof.
  destruct entry as [l|]; simpl; [|reflexivity].
  destruct (List.length (remove id l) =? 0)%nat eqn:E; simpl; [reflexivity|].
  rewrite remove_remove, E. reflexivity.
Qed.

Lemma prune_token_lookup id index t0 t :
  prune_token id index t0 !! t =
  if String.eqb t t0 then pruned id (index !! t) else index !! t.
Proof.
  unfold prune_token. destruct (String.eqb t t0) eqn:E.
  - apply String.eqb_eq in E. subst t0.
    destruct (index !! t) as [l|] eqn:El; simpl; [|exact El].
    destruct (List.length (remove id l) =? 0)%nat.
    + apply lookup_delete_eq.
    + apply lookup_insert_eq.
  - apply String.eqb_neq in E.
    destruct (index !! t0) as [l|]; [|reflexivity].
    destruct (List.length (remove id l) =? 0)%nat.
    + apply lookup_delete_ne. congruence.
    + apply lookup_insert_ne. congruence.
Qed.

Lemma prune_tokens_lookup id toks index t :
  fold_left (prune_token id) toks index !! t =
  if has toks t then pruned id (index !! t) else index !! t.
Proof.
  revert index. induction toks as [|t0 toks IH]; intros index; simpl; [reflexivity|].
  rewrite IH, prune_token_lookup.
  unfold has. simpl. fold (has toks t).
  destruct (String.eqb t t0); simpl; [|reflexivity].
  destruct (has toks t); [apply pruned_pruned|reflexivity].
Qed.

Lemma list_token_lookup id index t0 t :
  list_token id index t0 !! t =
  if String.eqb t t0 then Some (add id (default [] (index !! t))) else index !! t.
Proof.
  unfold list_token. destruct (String.eqb t t0) eqn:E.
  - apply String.eqb_eq in E. subst t0. apply lookup_insert_eq.
  - apply String.eqb_neq in E. apply lookup_insert_ne. congruence.
Qed.

Lemma list_tokens_lookup id toks index t :
  fold_left (list_token id) toks index !! t =
  if has toks t then Some (add id (default [] (index !! t))) else index !! t.
Proof.
  revert index. induction toks as [|t0 toks IH]; intros index; simpl; [reflexivity|].
  rewrite IH, list_token_lookup.
  unfold has at 2. simpl. fold (has toks t).
  destruct (String.eqb t t0); simpl; [|reflexivity].
  destruct (has toks t); [|reflexivity].
  simpl. rewrite add_add. reflexivity.
Qed.

Lemma has_Set_of toks t : has (Set_of toks) t = has toks t.
Proof.
  destruct (Set_of_spec toks) as [_ H].
  destruct (has toks t) eqn:E.
  - apply has_In, H, has_In, E.
  - destruct (has (Set_of toks) t) eqn:E'; [|reflexivity].
    apply has_In, H, has_In in E'. congruence.
Qed.

(** The entry of a token before the new tokens are added. *)
Lemma indexed_lookup content idx t :
  tokenizedIndex (indexed content idx) !! t =
  let base :=
    match documents idx !! _id content with
    | Some old =>
        if has (tokenizeText (doc_text old)) t
        then pruned (_id content) (tokenizedIndex idx !! t)
        else tokenizedIndex idx !! t
    | None => tokenizedIndex idx !! t
    end in
  if has (tokenizeText (searchableText content)) t
  then Some (add (_id content) (default [] base))
  else base.
Proof.
  unfold indexed. simpl. rewrite list_tokens_lookup, has_Set_of.
  destruct (documents idx !! _id content) as [old|]; [|reflexivity].
  rewrite prune_tokens_lookup. reflexivity.
Qed.

Lemma In_pruned id entry x :
  In x (default [] (pruned id entry)) <-> In x (default [] entry) /\ x <> id.
Proof.
  destruct entry as [l|]; simpl; [|tauto].
  destruct (List.length (remove id l) =? 0)%nat eqn:E; simpl.
  - apply Nat.eqb_eq, length_zero_iff_nil in E. rewrite <- In_remove, E. reflexivity.
  - apply In_remove.
Qed.

(** Indexing the same content twice in a row changes nothing the second
    time. *)
Lemma indexed_twice content idx :
  consistent idx ->
  indexed content (indexed content idx) = indexed content idx.
Proof.
  intros Hc.
  assert (documents (indexed content (indexed content idx)) =
          documents (indexed content idx)) as Hd.
  { unfold indexed. simpl. apply insert_insert_eq. }
  assert (tokenizedIndex (indexed content (indexed content idx)) =
          tokenizedIndex (indexed content idx)) as Ht.
  { apply map_eq. intros t. rewrite (indexed_lookup content (indexed content idx)).
    assert (documents (indexed content idx) !! _id content =
            Some {| doc_id := _id content; doc_path := path content;
                    doc_title := title content; doc_type := document_type content;
                    doc_text := toLowerCase (searchableText content);
                    doc_updatedAt := updatedAt content |}) as ->
      by (unfold indexed; simpl; apply lookup_insert_eq).
    cbv zeta. simpl doc_text. rewrite tokenizeText_toLowerCase.
    destruct (has (tokenizeText (searchableText content)) t) eqn:Enew; [|reflexivity].
    rewrite (indexed_lookup content idx). cbv zeta. rewrite Enew.
    set (base := match documents idx !! _id content with
                 | Some old =>
                     if has (tokenizeText (doc_text old)) t
                     then pruned (_id content) (tokenizedIndex idx !! t)
                     else tokenizedIndex idx !! t
                 | None => tokenizedIndex idx !! t
                 end).
    assert (~ In (_id content) (default [] base)) as Hno.
    { unfold base. destruct (documents idx !! _id content) as [old|] eqn:Eo.
      - destruct (has (tokenizeText (doc_text old)) t) eqn:Eold.
        + rewrite In_pruned. tauto.
        + intros Hin. apply (posted_iff _ Hc) in Hin as (doc & Hdoc & Htok).
          rewrite Eo in Hdoc. injection Hdoc as <-. apply has_In in Htok. congruence.
      - intros Hin. apply (posted_iff _ Hc) in Hin as (doc & Hdoc & _). congruence. }
    f_equal. simpl. rewrite (remove_add _ _ Hno).
    destruct (List.length (default [] base) =? 0)%nat eqn:El; simpl; [|reflexivity].
    apply Nat.eqb_eq, length_zero_iff_nil in El. rewrite El. reflexivity. }
  destruct (indexed content (indexed content idx)) as [d1 t1].
  destruct (indexed content idx) as [d2 t2]. simpl in *. congruence.
Qed.

End ReindexFacts.

Section RebuildFacts.

Import JS Publishing SearchApi Invariants IndexMaps Fields.

Lemma indexed_documents content idx :
  documents (indexed content idx) =
  <[_id content := document_of content]> (documents idx).
Proof. reflexivity. Qed.

Lemma indexed_all_documents contents idx id :
  documents (indexed_all contents idx) !! id =
  match latest id contents with
  | Some content => Some (document_of content)
  | None => documents idx !! id
  end.
Proof.
  unfold latest. induction contents as [|c contents IH] using rev_ind; [reflexivity|].
  rewrite indexed_all_snoc, indexed_documents, rev_unit. simpl.
  destruct (String.eqb (_id c) id) eqn:E.
  - apply String.eqb_eq in E. subst id. apply lookup_insert_eq.
  - apply String.eqb_neq in E. rewrite lookup_insert_ne by exact E. exact IH.
Qed.

Lemma latest_Some id contents content :
  latest id contents = Some content -> In content contents /\ _id content = id.
Proof.
  unfold latest. intros H. apply find_some in H as [Hin E].
  apply in_rev in Hin. apply String.eqb_eq in E. tauto.
Qed.

Lemma latest_None id contents :
  latest id contents = None <-> forall content, In content contents -> _id content <> id.
Proof.
  unfold latest. split.
  - intros H c Hin. apply in_rev in Hin.
    pose proof (find_none _ _ H c Hin) as E. simpl in E. apply String.eqb_neq in E. exact E.
  - intros H. destruct (List.find _ _) as [c|] eqn:E; [|reflexivity].
    apply find_some in E as [Hin E]. apply in_rev in Hin. apply String.eqb_eq in E.
    now destruct (H c Hin).
Qed.

Lemma indexed_all_postings_other contents idx token id :
  (forall content, In content contents -> _id content <> id) ->
  In id (postings (tokenizedIndex (indexed_all contents idx)) token) <->
  In id (postings (tokenizedIndex idx) token).
Proof.
  intros H. induction contents as [|c contents IH] using rev_ind; [reflexivity|].
  rewrite indexed_all_snoc, indexed_postings_other.
  - apply IH. intros c' Hc'. apply H, in_or_app. now left.
  - intros E. apply (H c); [apply in_or_app; right; now left|]. congruence.
Qed.

End RebuildFacts.

Section SnippetFacts.

Import JS Publishing SearchApi Runs Invariants.

Lemma length_append (s t : string) :
  String.length (s ++ t) = (String.length s + String.length t)%nat.
Proof.
  induction s as [|c s IH]; [reflexivity|]. rewrite append_cons. simpl. now rewrite IH.
Qed.

Lemma indexOf_lower_bound s t : (-1 <= indexOf s t)%Z.
Proof.
  induction s as [|c s IH]; simpl; destruct (startsWith _ t); try lia.
  destruct (indexOf s t =? -1)%Z; lia.
Qed.

(** [indexOf] finds an occurrence and says how far into the string it
    starts. *)
Lemma indexOf_found s t :
  indexOf s t <> (-1)%Z ->
  exists a b, s = a ++ t ++ b /\ Z.of_nat (String.length a) = indexOf s t.
Proof.
  induction s as [|c s IH]; simpl.
  - destruct (startsWith EmptyString t) eqn:E; [|congruence]. intros _.
    destruct (startsWith_inv _ _ E) as [b Hb]. exists EmptyString, b. split; [exact Hb|reflexivity].
  - destruct (startsWith (String c s) t) eqn:E.
    + intros _. destruct (startsWith_inv _ _ E) as [b Hb].
      exists EmptyString, b. split; [exact Hb|reflexivity].
    + destruct (indexOf s t =? -1)%Z eqn:Ei; [congruence|]. intros _.
      apply Z.eqb_neq in Ei. destruct (IH Ei) as (a & b & Hs & Hl).
      exists (String c a), b. split.
      * rewrite append_cons. f_equal. exact Hs.
      * simpl String.length. lia.
Qed.

Lemma indexOf_includes s t : indexOf s t <> (-1)%Z <-> includes s t = true.
Proof.
  induction s as [|c s IH]; simpl.
  - destruct (startsWith EmptyString t); simpl; split; congruence.
  - destruct (startsWith (String c s) t); simpl; [split; congruence|].
    rewrite <- IH. pose proof (indexOf_lower_bound s t).
    destruct (indexOf s t =? -1)%Z eqn:E.
    + apply Z.eqb_eq in E. split; congruence.
    + apply Z.eqb_neq in E. split; [intros _; exact E|lia].
Qed.

Lemma substring_start_app t b n :
  (String.length t <= n)%nat ->
  String.substring 0 n (t ++ b) = t ++ String.substring 0 (n - String.length t) b.
Proof.
  revert n. induction t as [|c t IH]; intros n Hn.
  - rewrite !append_nil. simpl. now rewrite Nat.sub_0_r.
  - rewrite !append_cons. simpl in Hn. destruct n as [|n]; [lia|].
    simpl. f_equal. apply IH. lia.
Qed.

Lemma substring_includes a t b s n :
  (s <= String.length a)%nat ->
  (String.length a + String.length t <= s + n)%nat ->
  includes (String.substring s n (a ++ t ++ b)) t = true.
Proof.
  revert s n. induction a as [|c a IH]; intros s n Hs Hn.
  - simpl in Hs, Hn. assert (s = 0%nat) as -> by lia. rewrite append_nil.
    rewrite substring_start_app by lia.
    apply (includes_app EmptyString).
  - rewrite append_cons. simpl in Hs, Hn. destruct s as [|s].
    + destruct n as [|n]; [lia|]. simpl.
      rewrite (IH 0%nat n); [apply orb_true_r|lia|lia].
    + simpl. apply IH; lia.
Qed.

Lemma substring_toLowerCase s n x :
  toLowerCase (String.substring s n x) = String.substring s n (toLowerCase x).
Proof.
  revert s n. induction x as [|c x IH]; intros [|s] [|n]; simpl; try reflexivity;
    fold (toLowerCase x); try apply IH.
  change (toLowerCase (String c (String.substring 0 n x)))
    with (String (lower_char c) (toLowerCase (String.substring 0 n x))).
  f_equal. apply IH.
Qed.

Lemma length_toLowerCase s : String.length (toLowerCase s) = String.length s.
Proof.
  induction s as [|c s IH]; simpl; [reflexivity|]. f_equal. exact IH.
Qed.

Lemma get_toLowerCase i s : String.get i (toLowerCase s) = lower_char <$> String.get i s.
Proof.
  revert i. induction s as [|c s IH]; intros [|i]; simpl; try reflexivity. apply IH.
Qed.

Lemma get_middle a t b i :
  (i < String.length t)%nat ->
  String.get (String.length a + i) (a ++ t ++ b) = String.get i t.
Proof.
  intros Hi. induction a as [|c a IH].
  - rewrite append_nil. simpl. revert i Hi. induction t as [|x t IHt]; intros i Hi.
    + simpl in Hi. lia.
    + rewrite append_cons. destruct i as [|i]; [reflexivity|]. simpl. apply IHt.
      simpl in Hi. lia.
  - rewrite append_cons. simpl. exact IH.
Qed.

Lemma get_chars i t c :
  String.get i t = Some c -> In c (chars t).
Proof.
  revert i. induction t as [|x t IH]; intros [|i]; simpl; try discriminate.
  - intros H. injection H as ->. now left.
  - intros H. right. eapply IH, H.
Qed.

Lemma get_in_range i t : (i < String.length t)%nat -> exists c, String.get i t = Some c.
Proof.
  revert i. induction t as [|x t IH]; intros i Hi; simpl in Hi; [lia|].
  destruct i as [|i]; simpl; [eexists; reflexivity|]. apply IH. lia.
Qed.

(** The backward loop stops at the start or on a space. *)
Lemma startPos_loop_spec text s :
  (startPos_loop text s <= s)%nat /\
  (startPos_loop text s = 0%nat \/
   charAt text (startPos_loop text s) = Some " "%char).
Proof.
  induction s as [|s IH]; [simpl; split; [lia|now left]|].
  cbn [startPos_loop]. destruct (bool_decide _) eqn:E.
  - apply bool_decide_eq_true in E. split; [lia|now right].
  - destruct IH as [H1 H2]. split; [lia|exact H2].
Qed.

(** The forward loop stops at the end or on a space, and not before a
    position that only characters other than the space lead up to. *)
Lemma endPos_loop_spec text steps e :
  (e + steps = String.length text)%nat ->
  let r := endPos_loop steps text e in
  (e <= r <= String.length text)%nat /\
  (r = String.length text \/ charAt text r = Some " "%char) /\
  (forall q, (e <= q <= String.length text)%nat ->
     (forall i, (e <= i < q)%nat -> charAt text i <> Some " "%char) ->
     (q <= r)%nat).
Proof.
  revert e. induction steps as [|k IH]; intros e He; simpl.
  - split; [lia|]. split; [left; lia|]. intros q Hq _. lia.
  - destruct (e <? String.length text)%nat eqn:El; [|apply Nat.ltb_ge in El; lia].
    simpl. destruct (bool_decide (charAt text e = Some " "%char)) eqn:Ec; simpl.
    + apply bool_decide_eq_true in Ec. split; [lia|]. split; [now right|].
      intros q Hq Hall. destruct (Nat.eq_dec q e) as [->|Hne]; [lia|].
      exfalso. apply (Hall e); [lia|exact Ec].
    + apply bool_decide_eq_false in Ec.
      destruct (IH (S e) ltac:(lia)) as (H1 & H2 & H3).
      split; [lia|]. split; [exact H2|].
      intros q Hq Hall. destruct (Nat.eq_dec q e) as [->|Hne]; [lia|].
      apply H3; [lia|]. intros i Hi. apply Hall. lia.
Qed.

Lemma append_empty_r (s : string) : s ++ EmptyString = s.
Proof. induction s as [|c s IH]; [reflexivity|]. rewrite append_cons. f_equal. exact IH. Qed.

(** The scan over the query tokens ends on the smallest position at which
    any of them occurs, and on [-1] only when none occurs. *)
Lemma bestPosition_fold lowerText tokens b0 :
  (-1 <= b0)%Z ->
  let r := fold_left (bestPosition_step lowerText) tokens b0 in
  (r = b0 \/ exists t, In t tokens /\ indexOf lowerText t = r) /\
  (b0 <> (-1)%Z -> r <> (-1)%Z /\ (r <= b0)%Z) /\
  (forall t, In t tokens -> indexOf lowerText t <> (-1)%Z ->
     r <> (-1)%Z /\ (r <= indexOf lowerText t)%Z) /\
  (-1 <= r)%Z.
Proof.
  revert b0. induction tokens as [|t tokens IH]; intros b0 Hb0; simpl.
  - split; [now left|]. split; [intros; split; [assumption|lia]|].
    split; [intros t []|exact Hb0].
  - pose proof (indexOf_lower_bound lowerText t) as Hp.
    set (b1 := bestPosition_step lowerText b0 t).
    assert ((b1 = b0 \/ b1 = indexOf lowerText t) /\ (-1 <= b1)%Z /\
            (b0 <> (-1)%Z -> b1 <> (-1)%Z /\ (b1 <= b0)%Z) /\
            (indexOf lowerText t <> (-1)%Z ->
               b1 <> (-1)%Z /\ (b1 <= indexOf lowerText t)%Z)) as (Hb1 & Hge & Hkeep & Hmin).
    { unfold b1, bestPosition_step.
      destruct (indexOf lowerText t =? -1)%Z eqn:E1; simpl.
      - apply Z.eqb_eq in E1.
        repeat split; try lia; try (left; reflexivity); try tauto.
      - apply Z.eqb_neq in E1. destruct (b0 =? -1)%Z eqn:E2; simpl.
        + apply Z.eqb_eq in E2.
          repeat split; try lia; try (right; reflexivity).
        + apply Z.eqb_neq in E2.
          destruct (indexOf lowerText t <? b0)%Z eqn:E3;
            [apply Z.ltb_lt in E3|apply Z.ltb_ge in E3];
            repeat split; try lia; try (left; reflexivity); try (right; reflexivity). }
    destruct (IH b1 Hge) as (H1 & H2 & H3 & H4).
    split; [|split; [|split]].
    + destruct H1 as [H1|(u & Hu & H1)].
      * destruct Hb1 as [Hb1|Hb1]; [left; congruence|].
        right. exists t. split; [now left|congruence].
      * right. exists u. split; [now right|exact H1].
    + intros Hne. destruct (Hkeep Hne) as [Hk1 Hk2]. destruct (H2 Hk1). split; lia.
    + intros u [<-|Hu] Hf.
      * destruct (Hmin Hf) as [Hm1 Hm2]. destruct (H2 Hm1). split; lia.
      * apply H3; assumption.
    + exact H4.
Qed.

Lemma no_space_in_token text token :
  In token (tokenizeText text) -> Forall (fun c => c <> " "%char) (chars token).
Proof.
  intros H. apply token_chars in H. eapply List.Forall_impl; [|exact H].
  simpl. intros c Hc ->. discriminate.
Qed.

(** When a query token occurs in the text, the snippet is an excerpt that
    begins at the start of the text or on a space, ends at the end of the
    text or on a space, has an ellipsis on each side that was cut, and
    holds in full the occurrence that comes first in the text. *)
Lemma generateSnippet_found text tokens :
  text <> EmptyString ->
  Forall (fun t => Forall (fun c => c <> " "%char) (chars t)) tokens ->
  Exists (fun t => includes (toLowerCase text) t = true) tokens ->
  exists t startPos endPos,
    In t tokens /\
    includes (toLowerCase text) t = true /\
    (forall u, In u tokens -> includes (toLowerCase text) u = true ->
       (indexOf (toLowerCase text) t <= indexOf (toLowerCase text) u)%Z) /\
    (startPos <= Z.to_nat (indexOf (toLowerCase text) t))%nat /\
    (Z.to_nat (indexOf (toLowerCase text) t) + String.length t <= endPos)%nat /\
    (endPos <= String.length text)%nat /\
    (startPos = 0%nat \/ charAt text startPos = Some " "%char) /\
    (endPos = String.length text \/ charAt text endPos = Some " "%char) /\
    generateSnippet text tokens =
      (if (0 <? startPos)%nat then "..." else "") ++
      substring text startPos endPos ++
      (if (endPos <? String.length text)%nat then "..." else "") /\
    includes (toLowerCase (substring text startPos endPos)) t = true.
Proof.
  intros Htext Hclean Hex.
  apply List.Exists_exists in Hex as (t0 & Ht0 & Hinc0).
  set (lowerText := toLowerCase text).
  pose proof (bestPosition_fold lowerText tokens (-1)%Z ltac:(lia)) as Hfold.
  cbv zeta in Hfold. set (best := fold_left (bestPosition_step lowerText) tokens (-1)%Z) in *.
  destruct Hfold as (Hsrc & _ & Hmin & Hge).
  assert (best <> (-1)%Z) as Hbest.
  { apply (Hmin t0 Ht0). apply indexOf_includes. exact Hinc0. }
  destruct Hsrc as [Hsrc|(t & Ht & Hpos)]; [congruence|].
  assert (indexOf lowerText t <> (-1)%Z) as Hfound by congruence.
  destruct (indexOf_found lowerText t Hfound) as (a & b & Hsplit & Hlen).
  assert (String.length text = (String.length a + String.length t + String.length b)%nat) as Htotal.
  { rewrite <- (length_toLowerCase text). fold lowerText. rewrite Hsplit, !length_append. lia. }
  set (p := Z.to_nat best).
  assert (String.length a = p) as Hp by (unfold p; lia).
  set (startPos0 := Z.to_nat (Z.max 0 (best - 60))).
  set (endPos0 := Nat.min (String.length text) (startPos0 + 160)).
  assert (startPos0 <= p)%nat as Hs0 by (unfold startPos0, p; lia).
  assert (p <= endPos0 <= String.length text)%nat as He0 by (unfold endPos0, startPos0, p; lia).
  destruct (startPos_loop_spec text startPos0) as [Hs1 Hs2].
  destruct (endPos_loop_spec text (String.length text - endPos0) endPos0 ltac:(lia))
    as (He1 & He2 & He3).
  set (startPos := startPos_loop text startPos0) in *.
  set (endPos := endPos_loop (String.length text - endPos0) text endPos0) in *.
  assert (p + String.length t <= endPos)%nat as Hcover.
  { destruct (Nat.le_gt_cases (p + String.length t) endPos0) as [Hle|Hgt]; [lia|].
    apply He3; [lia|]. intros i Hi Hspace.
    assert (String.get i lowerText = Some " "%char) as Hl.
    { unfold lowerText. rewrite get_toLowerCase. unfold charAt in Hspace.
      rewrite Hspace. reflexivity. }
    rewrite Hsplit in Hl. replace i with (String.length a + (i - p))%nat in Hl by lia.
    rewrite get_middle in Hl by lia. apply get_chars in Hl.
    rewrite List.Forall_forall in Hclean. specialize (Hclean t Ht).
    rewrite List.Forall_forall in Hclean. now apply (Hclean _ Hl). }
  exists t, startPos, endPos.
  split; [exact Ht|]. split; [apply indexOf_includes; exact Hfound|].
  fold lowerText. rewrite Hpos. fold p.
  split.
  { intros u Hu Hincu. apply (Hmin u Hu). apply indexOf_includes. exact Hincu. }
  split; [lia|]. split; [exact Hcover|]. split; [lia|].
  split; [exact Hs2|]. split; [exact He2|]. split.
  - unfold generateSnippet. apply String.eqb_neq in Htext. rewrite Htext.
    destruct tokens as [|x tokens]; [destruct Ht|]. cbn [List.length Nat.eqb orb].
    cbv zeta. fold lowerText. fold best.
    apply Z.eqb_neq in Hbest. rewrite Hbest.
    fold startPos0. fold endPos0. fold startPos. fold endPos.
    destruct (0 <? startPos)%nat, (endPos <? String.length text)%nat;
      rewrite ?append_nil, ?append_empty_r, ?string_app_assoc; reflexivity.
  - unfold substring. rewrite substring_toLowerCase. fold lowerText. rewrite Hsplit.
    apply substring_includes; lia.
Qed.

End SnippetFacts.

Section ResultFacts.

Import JS Publishing SearchApi Runs Invariants.







(** On a sound index every ranked result is made from a stored document
    that passes the type filter and has every query token among the
    tokens of its text. *)
Lemma ranked_sound idx type t tokens rs r :
  sound idx ->
  rankedResults idx type (t :: tokens) = Normal rs ->
  In r rs ->
  exists id doc,
    documents idx !! id = Some doc /\
    type_matches type doc = true /\
    (forall u, In u (t :: tokens) -> In u (tokenizeText (doc_text doc))) /\
    r = result_item doc (t :: tokens) (relevance_of doc (t :: tokens)).
Proof.
  intros Hs Hr Hin. pose proof (rankedResults_In _ _ _ _ Hr) as (ids & Hm & Hiff).
  apply Hiff in Hin. destruct Hin as (id & doc & Hid & Hd & Ht & _ & Hreq).
  exists id, doc. repeat split; try assumption.
  intros u Hu. rewrite (matchingIds_In _ _ _ _ Hm) in Hid. specialize (Hid u Hu).
  apply (sound_posted _ Hs) in Hid as (doc' & Hd' & Htok).
  rewrite Hd in Hd'. injection Hd' as <-. exact Htok.
Qed.

(** On a consistent index the ranked results are, one for each, the
    stored documents that pass the type filter and have every query token
    among the tokens of their text. *)
Lemma rankedResults_documents idx type t tokens rs r :
  consistent idx ->
  rankedResults idx type (t :: tokens) = Normal rs ->
  In r rs <->
  exists id doc,
    documents idx !! id = Some doc /\
    type_matches type doc = true /\
    (forall u, In u (t :: tokens) -> In u (tokenizeText (doc_text doc))) /\
    r = result_item doc (t :: tokens) (relevance_of doc (t :: tokens)).
Proof.
  intros Hc Hr. split; [apply (ranked_sound _ _ _ _ _ _ (consistent_sound _ Hc) Hr)|].
  pose proof (rankedResults_In _ _ _ _ Hr) as (ids & Hm & Hiff).
  intros (id & doc & Hd & Ht & Hall & ->). apply Hiff. exists id, doc.
  assert (In id ids) as Hid.
  { apply (matchingIds_In _ _ _ _ Hm). intros u Hu. apply (posted_iff _ Hc).
    exists doc. split; [exact Hd|apply Hall, Hu]. }
  repeat split; try assumption.
  pose proof (matching_relevance _ _ _ _ _ (consistent_sound _ Hc) Hm Hid Hd) as Hge.
  simpl in Hge. lia.
Qed.

Lemma includes_inside pre x post t :
  includes x t = true -> includes (pre ++ x ++ post) t = true.
Proof.
  intros H. apply includes_iff in H as (a & b & ->). apply includes_iff.
  exists (pre ++ a), (b ++ post). rewrite !string_app_assoc. reflexivity.
Qed.

(** On a sound index the snippet of a ranked result holds one of the query
    tokens. *)
Lemma ranked_snippet idx type text r rs :
  sound idx ->
  tokenizeText text <> [] ->
  rankedResults idx type (tokenizeText text) = Normal rs ->
  In r rs ->
  Exists (fun t => includes (snippet r) t = true) (tokenizeText text).
Proof.
  intros Hc Hne Hr Hin. destruct (tokenizeText text) as [|t0 tokens] eqn:Etok; [contradiction|].
  apply (ranked_sound _ _ _ _ _ r Hc Hr) in Hin
    as (id & doc & Hd & _ & Hall & ->).
  destruct (sound_lower _ Hc _ _ Hd) as [Hlow _]. simpl.
  assert (includes (toLowerCase (doc_text doc)) t0 = true) as Hinc0.
  { apply token_includes, Hall. now left. }
  destruct (generateSnippet_found (doc_text doc) (t0 :: tokens)) as
    (t & s & e & Ht & _ & _ & _ & _ & _ & _ & _ & Hsn & Hex).
  - intros Hempty. rewrite Hempty in Hinc0. rewrite <- Etok in Hne.
    assert (In t0 (tokenizeText text)) as Hin0 by (rewrite Etok; now left).
    apply token_length in Hin0. destruct t0; simpl in *; [lia|discriminate].
  - apply List.Forall_forall. intros u Hu. apply (no_space_in_token text).
    rewrite Etok. exact Hu.
  - apply List.Exists_exists. exists t0. split; [now left|exact Hinc0].
  - apply List.Exists_exists. exists t. split; [exact Ht|].
    rewrite Hsn. apply includes_inside.
    unfold substring in *. rewrite substring_toLowerCase, Hlow in Hex. exact Hex.
Qed.

End ResultFacts.

Section IndexExtras.

Import JS Publishing SearchApi Runs Invariants IndexMaps Fields Examples.

(** X1. Tokenizing two texts joined by a space gives the tokens of the
    first followed by the tokens of the second, and a space at the end
    adds no token. *)
Theorem tokens_of_joined_texts a b :
  tokenizeText (a ++ " " ++ b) = (tokenizeText a ++ tokenizeText b)%list /\
  tokenizeText (a ++ " ") = tokenizeText a.
Proof. split; [apply tokenizeText_app_space|apply tokenizeText_trailing_space]. Qed.

(** X2. The tokens of the searchable text of a content item are those of
    its title followed by those of its body for a simple page, by those
    of its introduction and of the title and body of each part for a
    guide, and by nothing for any other type. Whenever [indexDocument]
    returns for the item, on an index in which every listed id has a
    document with the token, as in every state the service reaches, the
    id of the item is listed under exactly these tokens. *)
Theorem searchable_fields :
  (forall content,
     tokenizeText (searchableText content) =
     (tokenizeText (title content) ++ field_tokens content)%list)
  /\ (forall content idx idx' token,
        sound idx ->
        indexDocument content idx = (Normal tt, idx') ->
        In (_id content) (postings (tokenizedIndex idx') token) <->
        In token (tokenizeText (title content)) \/ In token (field_tokens content))
  /\ (forall st, reachable st -> sound (searchIndex st)).
Proof.
  split; [apply searchableText_tokens|]. split.
  - intros content idx idx' token Hs H. apply indexDocument_Normal in H. subst idx'.
    rewrite (indexed_postings content idx token Hs).
    rewrite searchableText_tokens. apply in_app_iff.
  - intros st H. apply reachable_sound, H.
Qed.

Lemma searchable_fields_witness :
  sound apples
  /\ indexDocument fresh_pie apples = (Normal tt, snd (indexDocument fresh_pie apples))
  /\ (In "D1" (postings (tokenizedIndex (snd (indexDocument fresh_pie apples))) "strudel") <->
      In "strudel" (tokenizeText (title fresh_pie)) \/ In "strudel" (field_tokens fresh_pie)).
Proof.
  assert (sound apples) as Hs by apply indexAll_sound, consistent_sound, consistent_empty.
  assert (indexDocument fresh_pie apples = (Normal tt, snd (indexDocument fresh_pie apples)))
    as Hrun by (vm_compute; reflexivity).
  split; [exact Hs|]. split; [exact Hrun|].
  exact (proj1 (proj2 searchable_fields) fresh_pie apples _ "strudel" Hs Hrun).
Defined.

(** X3. On an index that agrees with its documents and has no key under
    an inherited name, indexing a content item whose id and tokens name
    no inherited member returns, and indexing it a second time returns
    and leaves documents and token index exactly as the first time left
    them. *)
Theorem reindex_idempotent content idx :
  consistent idx ->
  no_inherited_keys idx ->
  plain content = true ->
  exists idx',
    indexDocument content idx = (Normal tt, idx') /\
    indexDocument content idx' = (Normal tt, idx').
Proof.
  intros Hc Hk Hp. exists (indexed content idx).
  split; [apply indexDocument_completes; assumption|].
  rewrite indexDocument_completes.
  - rewrite indexed_twice by exact Hc. reflexivity.
  - apply indexed_consistent, Hc.
  - apply indexed_no_inherited_keys; assumption.
  - exact Hp.
Qed.

Lemma reindex_idempotent_witness :
  consistent apples /\
  no_inherited_keys apples /\
  plain apple_pie = true /\
  exists idx',
    indexDocument apple_pie apples = (Normal tt, idx') /\
    indexDocument apple_pie idx' = (Normal tt, idx').
Proof.
  assert (consistent apples) as Hc.
  { apply (indexAll_Normal_consistent [apple_pie; apple_sauce] empty_index);
      [apply consistent_empty|vm_compute; reflexivity]. }
  assert (no_inherited_keys apples) as Hk
    by apply indexAll_no_inherited_keys, no_inherited_keys_empty.
  assert (plain apple_pie = true) as Hp by (vm_compute; reflexivity).
  split; [exact Hc|]. split; [exact Hk|]. split; [exact Hp|].
  exact (reindex_idempotent apple_pie apples Hc Hk Hp).
Defined.

(** X4. After an indexing run that returns, the document stored under an
    id is the one made from the last item of the listing with that id,
    and where the listing has no such item it is the document that was
    stored before. However a run ends, it leaves a stored document in
    place, and leaves the document of an id that no item of the listing
    carries as it was: indexing never takes a document out. *)
Theorem stored_documents contents idx id :
  (forall idx',
     indexAll contents idx = (Normal tt, idx') ->
     documents idx' !! id =
       match latest id contents with
       | Some content => Some (document_of content)
       | None => documents idx !! id
       end)
  /\ (is_Some (documents idx !! id) ->
      is_Some (documents (snd (indexAll contents idx)) !! id))
  /\ (latest id contents = None ->
      documents (snd (indexAll contents idx)) !! id = documents idx !! id).
Proof.
  split; [|split].
  - intros idx' H. apply indexAll_Normal in H. subst idx'. apply indexed_all_documents.
  - apply indexAll_keeps.
  - intros H. apply indexAll_elsewhere, latest_None, H.
Qed.

Lemma stored_documents_witness :
  is_Some (documents apples !! "D2") /\
  is_Some (documents (snd (indexAll [fresh_pie] apples)) !! "D2") /\
  documents (snd (indexAll [fresh_pie] apples)) !! "D1" = Some (document_of fresh_pie).
Proof.
  assert (is_Some (documents apples !! "D2")) as H by (vm_compute; eexists; reflexivity).
  destruct (stored_documents [fresh_pie] apples "D2") as (_ & Hkeep & _).
  destruct (stored_documents [fresh_pie] apples "D1") as (Hlast & _).
  split; [exact H|]. split; [exact (Hkeep H)|].
  apply Hlast. vm_compute. reflexivity.
Defined.

(** X5. A full build whose fetch succeeds returns normally. When the
    indexing of the listing returns, the build has replaced the index
    whatever it held: the document under an id is the one made from the
    last listed item with that id and is absent when no listed item has
    the id; an id is listed under a token exactly when that document has
    the token; [lastIndexedTime] is the current time. When the indexing
    throws, the index is what the run had made of the empty index by
    then, [lastIndexedTime] is as before and the failure is on the
    console. The indexing returns for a listing of items whose ids and
    tokens name no inherited member. *)
Theorem full_rebuild contents everything time st :
  let w := {| published_content := Resolved contents; all_content := everything;
              now := time |} in
  let st' := snd (buildSearchIndex w st) in
  fst (buildSearchIndex w st) = Normal tt
  /\ (forall idx,
        indexAll contents empty_index = (Normal tt, idx) ->
        searchIndex st' = idx
        /\ (forall id,
              documents (searchIndex st') !! id = document_of <$> latest id contents)
        /\ (forall id token,
              In id (postings (tokenizedIndex (searchIndex st')) token) <->
              exists content,
                latest id contents = Some content /\
                In token (tokenizeText (searchableText content)))
        /\ lastIndexedTime st' = Some time
        /\ console st' =
             (console st ++ [LogBuilding; LogBuilt (size (documents (searchIndex st')))])%list)
  /\ (forall e idx,
        indexAll contents empty_index = (Throw e, idx) ->
        st' = {| searchIndex := idx;
                 lastIndexedTime := lastIndexedTime st;
                 console := console st ++ [LogBuilding; LogBuildFailed e] |})
  /\ (forallb plain contents = true ->
      fst (indexAll contents empty_index) = Normal tt).
Proof.
  cbv zeta.
  rewrite (buildSearchIndex_resolved
             {| published_content := Resolved contents; all_content := everything;
                now := time |} st contents eq_refl). simpl.
  split; [destruct (indexAll contents empty_index) as [[[]|e] idx]; reflexivity|].
  split; [|split].
  - intros idx H. rewrite H. simpl. apply indexAll_Normal in H. subst idx.
    assert (forall id, documents (indexed_all contents empty_index) !! id =
                       document_of <$> latest id contents) as Hdocs.
    { intros id. rewrite indexed_all_documents. simpl. rewrite lookup_empty.
      destruct (latest id contents); reflexivity. }
    split; [reflexivity|]. split; [exact Hdocs|]. split; [|split; reflexivity].
    intros id token. split.
    + intros H.
      apply (posted_iff _ (indexed_all_consistent contents _ consistent_empty)) in H
        as (doc & Hd & Htok).
      rewrite Hdocs in Hd. destruct (latest id contents) as [content|]; [|discriminate].
      injection Hd as <-. simpl in Htok. rewrite tokenizeText_toLowerCase in Htok.
      exists content. split; [reflexivity|exact Htok].
    + intros (content & Hl & Htok).
      apply (posted_iff _ (indexed_all_consistent contents _ consistent_empty)).
      exists (document_of content). rewrite Hdocs, Hl. split; [reflexivity|].
      simpl. rewrite tokenizeText_toLowerCase. exact Htok.
  - intros e idx H. rewrite H. reflexivity.
  - intros H.
    destruct (indexAll_completes contents empty_index consistent_empty
                no_inherited_keys_empty H) as [-> _]. reflexivity.
Qed.

Lemma full_rebuild_witness :
  indexAll [apple_pie; apple_sauce] empty_index = (Normal tt, apples)
  /\ searchIndex built = apples
  /\ lastIndexedTime built = Some 100%Z
  /\ documents (searchIndex built) !! "D2" = Some (document_of apple_sauce)
  /\ (exists e,
        snd (buildSearchIndex
               {| published_content := Resolved [constructor_notes; apple_pie];
                  all_content := Resolved []; now := 300%Z |} built) =
        {| searchIndex := snd (indexAll [constructor_notes; apple_pie] empty_index);
           lastIndexedTime := Some 100%Z;
           console := console built ++ [LogBuilding; LogBuildFailed e] |})
  /\ documents (snd (indexAll [constructor_notes; apple_pie] empty_index)) !! "D1" = None.
Proof.
  assert (indexAll [apple_pie; apple_sauce] empty_index = (Normal tt, apples)) as Hrun
    by (vm_compute; reflexivity).
  destruct (full_rebuild [apple_pie; apple_sauce] (Resolved [apple_pie; apple_sauce])
              100%Z initial) as (_ & Hdone & _).
  destruct (Hdone apples Hrun) as (Hidx & Hdocs & _ & Htime & _).
  destruct (full_rebuild [constructor_notes; apple_pie] (Resolved []) 300%Z built)
    as (_ & _ & Hthrow & _).
  split; [exact Hrun|]. split; [exact Hidx|]. split; [exact Htime|].
  split; [exact (Hdocs "D2")|]. split.
  - eexists. apply Hthrow. vm_compute. reflexivity.
  - vm_compute. reflexivity.
Defined.

(** X6. An incremental update after an earlier build touches only the
    ids of the fetched items that are published and newer than
    [lastIndexedTime]: for any other id the stored document and the
    tokens it is listed under stay as they were, whether the item is
    unchanged, unpublished or no longer listed, and however the run ends.
    For an id of a changed item, when the indexing of the changed items
    returns, the stored document becomes the one made from the last such
    item. *)
Theorem incremental_update_scope w st last allContent id :
  lastIndexedTime st = Some last ->
  all_content w = Resolved allContent ->
  let st' := snd (incrementalIndexUpdate w st) in
  (latest id (List.filter (changed_since last) allContent) = None ->
   documents (searchIndex st') !! id = documents (searchIndex st) !! id /\
   forall token,
     In id (postings (tokenizedIndex (searchIndex st')) token) <->
     In id (postings (tokenizedIndex (searchIndex st)) token))
  /\ (forall content idx,
        latest id (List.filter (changed_since last) allContent) = Some content ->
        indexAll (List.filter (changed_since last) allContent) (searchIndex st) =
          (Normal tt, idx) ->
        documents (searchIndex st') !! id = Some (document_of content) /\
        In content allContent /\ changed_since last content = true).
Proof.
  intros Hlast Hall. cbv zeta.
  destruct (List.filter (changed_since last) allContent) as [|c l] eqn:Ef.
  - rewrite (incremental_nothing_new w st last allContent Hlast Hall Ef). simpl.
    split; [intros _; split; [reflexivity|intros; reflexivity]|].
    intros content idx H. discriminate.
  - rewrite (incremental_changed w st last allContent Hlast Hall) by (rewrite Ef; discriminate).
    cbv zeta. rewrite Ef. split.
    + intros Hnone. pose proof (proj1 (latest_None _ _) Hnone) as Hne.
      pose proof (indexAll_elsewhere (c :: l) (searchIndex st) id Hne) as Hsame.
      destruct (indexAll (c :: l) (searchIndex st)) as [[[]|e] idx]; exact Hsame.
    + intros content idx Hl Hrun. rewrite Hrun. simpl.
      apply indexAll_Normal in Hrun. subst idx.
      split; [rewrite indexed_all_documents, Hl; reflexivity|].
      apply latest_Some in Hl as [Hin _]. rewrite <- Ef in Hin.
      apply filter_In in Hin. exact Hin.
Qed.

Lemma incremental_update_scope_witness :
  documents (searchIndex (snd (incrementalIndexUpdate busy_world built))) !! "D2" =
    documents (searchIndex built) !! "D2"
  /\ documents (searchIndex (snd (incrementalIndexUpdate busy_world built))) !! "D3" = None
  /\ documents (searchIndex (snd (incrementalIndexUpdate busy_world built))) !! "D1" =
       Some (document_of fresh_pie).
Proof.
  split; [|split].
  - destruct (incremental_update_scope busy_world built 100%Z [fresh_pie; apple_sauce; draft]
                "D2" eq_refl eq_refl) as [H _].
    destruct H as [H _]; [vm_compute; reflexivity|]. exact H.
  - destruct (incremental_update_scope busy_world built 100%Z [fresh_pie; apple_sauce; draft]
                "D3" eq_refl eq_refl) as [H _].
    destruct H as [H _]; [vm_compute; reflexivity|]. rewrite H. vm_compute. reflexivity.
  - destruct (incremental_update_scope busy_world built 100%Z [fresh_pie; apple_sauce; draft]
                "D1" eq_refl eq_refl) as [_ H].
    destruct (H fresh_pie (snd (indexAll [fresh_pie] (searchIndex built)))) as [H1 _];
      [vm_compute; reflexivity|vm_compute; reflexivity|]. exact H1.
Defined.

End IndexExtras.

Section SearchExtras.

Import JS Publishing SearchApi Runs Invariants IndexMaps Fields Examples.

(** X7. On an index that agrees with its documents, the ranked results
    of a query with at least one token are exactly the items made from
    the stored documents that pass the type filter and have every query
    token among the tokens of their text. *)
Theorem search_finds_exactly idx type t tokens rs r :
  consistent idx ->
  rankedResults idx type (t :: tokens) = Normal rs ->
  In r rs <->
  exists id doc,
    documents idx !! id = Some doc /\
    type_matches type doc = true /\
    (forall u, In u (t :: tokens) -> In u (tokenizeText (doc_text doc))) /\
    r = result_item doc (t :: tokens) (relevance_of doc (t :: tokens)).
Proof. intros Hc Hr. apply rankedResults_documents; assumption. Qed.

Lemma search_finds_exactly_witness :
  consistent apples /\
  In (result_item (stored apple_pie) ["apple"; "pie"] 7)
     [result_item (stored apple_pie) ["apple"; "pie"] 7].
Proof.
  assert (consistent apples) as Hc.
  { apply (indexAll_Normal_consistent [apple_pie; apple_sauce] empty_index);
      [apply consistent_empty|vm_compute; reflexivity]. }
  split; [exact Hc|].
  apply (search_finds_exactly apples None "apple" ["pie"] _ _ Hc).
  - vm_compute. reflexivity.
  - exists "D1", (stored apple_pie). repeat split.
    intros u [<-|[<-|[]]]; vm_compute; tauto.
Defined.



(** X9. When one of the query tokens occurs in the lower-cased text, and
    no token holds a space, [generateSnippet] returns an excerpt of the
    text that begins at the start of the text or on a space and ends at
    the end of the text or on a space, with an ellipsis in front when it
    does not begin at the start and one behind when it does not reach the
    end; the excerpt holds in full the occurrence of a query token that
    comes first in the text. *)
Theorem snippet_structure text tokens :
  text <> EmptyString ->
  Forall (fun t => Forall (fun c => c <> " "%char) (chars t)) tokens ->
  Exists (fun t => includes (toLowerCase text) t = true) tokens ->
  exists t startPos endPos,
    In t tokens /\
    includes (toLowerCase text) t = true /\
    (forall u, In u tokens -> includes (toLowerCase text) u = true ->
       (indexOf (toLowerCase text) t <= indexOf (toLowerCase text) u)%Z) /\
    (startPos <= Z.to_nat (indexOf (toLowerCase text) t))%nat /\
    (Z.to_nat (indexOf (toLowerCase text) t) + String.length t <= endPos)%nat /\
    (endPos <= String.length text)%nat /\
    (startPos = 0%nat \/ charAt text startPos = Some " "%char) /\
    (endPos = String.length text \/ charAt text endPos = Some " "%char) /\
    generateSnippet text tokens =
      (if (0 <? startPos)%nat then "..." else "") ++
      substring text startPos endPos ++
      (if (endPos <? String.length text)%nat then "..." else "") /\
    includes (toLowerCase (substring text startPos endPos)) t = true.
Proof. intros H1 H2 H3. apply generateSnippet_found; assumption. Qed.

Lemma snippet_structure_witness :
  generateSnippet "a page about apple pie" ["pie"; "apple"] = "a page about apple pie"
  /\ exists t startPos endPos,
       In t ["pie"; "apple"] /\
       indexOf "a page about apple pie" t = 13%Z /\
       (startPos <= 13)%nat /\ (13 + String.length t <= endPos)%nat.
Proof.
  split; [vm_compute; reflexivity|].
  destruct (snippet_structure "a page about apple pie" ["pie"; "apple"])
    as (t & s & e & Ht & Hinc & Hmin & Hs & He & _).
  - discriminate.
  - repeat constructor; discriminate.
  - apply List.Exists_cons_hd. vm_compute. reflexivity.
  - assert (indexOf "a page about apple pie" t = 13%Z) as Hpos.
    { destruct Ht as [<-|[<-|[]]].
      - specialize (Hmin "apple" (or_intror (or_introl eq_refl)) eq_refl).
        vm_compute in Hmin. now contradiction Hmin.
      - vm_compute. reflexivity. }
    exists t, s, e. change (toLowerCase "a page about apple pie") with "a page about apple pie" in *.
    rewrite Hpos in *. repeat split; assumption.
Defined.

(** X10. On a sound index, as the index is in every state the service can
    reach, the snippet of each result of a search holds one of the query
    tokens: the fall-back for a text without any query token is never
    what a result shows. *)
Theorem result_snippets idx req resp :
  sound idx ->
  search idx req = Normal resp ->
  Forall (fun r => Exists (fun t => includes (snippet r) t = true) (queryTokens_of req))
    (results resp).
Proof.
  intros Hs H.
  destruct (query_of req) as [query|e] eqn:Eq.
  - destruct (tokenizeText query) as [|t0 toks] eqn:Et.
    + rewrite (search_without_tokens _ req query Eq Et) in H. injection H as <-.
      constructor.
    + assert (queryTokens_of req = tokenizeText query) as Hq
        by (unfold queryTokens_of; rewrite Eq; reflexivity).
      assert (queryTokens_of req <> []) as Hne by (rewrite Hq, Et; discriminate).
      rewrite (search_with_tokens _ req Hne) in H.
      destruct (rankedResults _ _ _) as [rs|] eqn:Hr; [|discriminate].
      injection H as <-. simpl.
      apply List.Forall_forall. intros r Hin. apply In_slice in Hin.
      rewrite Hq in *. eapply ranked_snippet; eassumption.
  - rewrite (search_not_text _ req e Eq) in H. discriminate.
Qed.

Lemma result_snippets_witness :
  sound (searchIndex built) /\
  exists resp,
    search (searchIndex built) (query "sauce") = Normal resp /\
    List.map snippet (results resp) = ["apple sauce"] /\
    Forall (fun r => Exists (fun t => includes (snippet r) t = true)
                       (queryTokens_of (query "sauce")))
      (results resp).
Proof.
  assert (sound (searchIndex built)) as Hb
    by (apply reachable_sound, reachable_build, reachable_initial).
  split; [exact Hb|].
  exists (paginate [result_item (stored apple_sauce) ["sauce"] 1] (Integer 1) (Integer 10)).
  assert (search (searchIndex built) (query "sauce") =
          Normal (paginate [result_item (stored apple_sauce) ["sauce"] 1]
                    (Integer 1) (Integer 10))) as Hv by (vm_compute; reflexivity).
  split; [exact Hv|]. split; [vm_compute; reflexivity|].
  exact (result_snippets (searchIndex built) (query "sauce") _ Hb Hv).
Defined.

End SearchExtras.
(** * Further properties of the router *)

Section RouterMoreFacts.

Import JS Publishing Http RouteCache Relay MoreRequests.

Local Ltac crunch :=
  unfold try_catch, await, axios, throw, res_status, res_send, res_end, res_setHeader,
    modify, mbind, Eff_bind, mret, Eff_ret; simpl.

Lemma populate_snoc contents content cache :
  populate (contents ++ [content]) cache =
  assign (path content) (route_of content) (populate contents cache).
Proof. unfold populate. rewrite fold_left_app. reflexivity. Qed.

(** Starting without an own [__proto__], populating makes none, and every
    item with that path replaces the prototype. *)
Lemma populate_lookup contents cache :
  entries cache !! "__proto__" = None ->
  entries (populate contents cache) !! "__proto__" = None
  /\ (forall p, p <> "__proto__" ->
        entries (populate contents cache) !! p =
        match listed_route p contents with
        | Some route => Some route
        | None => entries cache !! p
        end)
  /\ prototype (populate contents cache) =
       match listed_route "__proto__" contents with
       | Some route => Some route
       | None => prototype cache
       end.
Proof.
  intros Hc. unfold listed_route.
  induction contents as [|c contents (IH1 & IH2 & IH3)] using rev_ind.
  - split; [exact Hc|]. split; [intros; reflexivity|reflexivity].
  - rewrite populate_snoc, rev_unit. unfold assign. cbn [List.find].
    destruct (String.eqb (path c) "__proto__") eqn:E.
    + apply String.eqb_eq in E. rewrite E, IH1.
      rewrite (bool_decide_eq_false_2 (is_Some None)) by (intros [? ?]; discriminate).
      cbn [negb andb entries prototype fmap option_fmap option_map].
      split; [exact IH1|]. split; [|reflexivity].
      intros p Hp. rewrite (proj2 (String.eqb_neq _ _)) by congruence. apply IH2, Hp.
    + apply String.eqb_neq in E. cbn [andb entries prototype]. split; [|split].
      * rewrite lookup_insert_ne by exact E. exact IH1.
      * intros p Hp. destruct (String.eqb (path c) p) eqn:Ep.
        -- apply String.eqb_eq in Ep. subst p. apply lookup_insert_eq.
        -- apply String.eqb_neq in Ep. rewrite lookup_insert_ne by exact Ep. apply IH2, Hp.
      * exact IH3.
Qed.

(** What the admin branch of [router/index.js] leaves, in every case. *)
Lemma admin_proxy_run frontend req res :
  Router.admin_proxy frontend req res =
  (Normal tt,
   match admin_request req with
   | Some out =>
       match frontend out with
       | Answered response =>
           if Router.admin_validateStatus (status response) then relayed response res
           else sent 500 "Error processing admin request" res
       | Unreachable _ => sent 500 "Error processing admin request" res
       end
   | None => sent 500 "Error processing admin request" res
   end).
Proof.
  destruct (admin_request req) as [out|] eqn:Eout.
  - destruct (frontend out) as [m|response] eqn:Ef.
    + unfold admin_request in Eout. unfold Router.admin_proxy. fold (proxied_headers req).
      destruct (String.eqb (method req) "GET");
        [|destruct (String.eqb (method req) "POST"); [|discriminate]];
        injection Eout as <-; crunch; rewrite Ef; reflexivity.
    + rewrite (admin_proxy_answered frontend req res out response Eout Ef).
      destruct (Router.admin_validateStatus (status response)); reflexivity.
  - unfold admin_request in Eout. unfold Router.admin_proxy.
    destruct (String.eqb (method req) "GET"); [discriminate|].
    destruct (String.eqb (method req) "POST"); [discriminate|]. reflexivity.
Qed.

Lemma admin_proxy2_run frontend req res :
  Router2.admin_proxy frontend req res =
  (Normal tt,
   match admin_request2 req with
   | Some out =>
       match frontend out with
       | Answered response =>
           if Router2.admin_validateStatus (status response) then relayed response res
           else sent 500 "Error processing admin request" res
       | Unreachable _ => sent 500 "Error processing admin request" res
       end
   | None => sent 500 "Error processing admin request" res
   end).
Proof.
  destruct (admin_request2 req) as [out|] eqn:Eout.
  - destruct (frontend out) as [m|response] eqn:Ef.
    + unfold admin_request2 in Eout. unfold Router2.admin_proxy. fold (proxied_headers req).
      destruct (String.eqb (method req) "GET");
        [|destruct (String.eqb (method req) "POST"); [|discriminate];
          destruct (includes _ "application/x-www-form-urlencoded")];
        injection Eout as <-; crunch; rewrite Ef; reflexivity.
    + rewrite (admin_proxy2_answered frontend req res out response Eout Ef).
      destruct (Router2.admin_validateStatus (status response)); reflexivity.
  - unfold admin_request2 in Eout. unfold Router2.admin_proxy.
    destruct (String.eqb (method req) "GET"); [discriminate|].
    destruct (String.eqb (method req) "POST"); [|reflexivity].
    destruct (includes _ "application/x-www-form-urlencoded"); discriminate.
Qed.

(** What the [GET] handler of [router/index.js] leaves: a finished
    response with a body, the headers it found, and the status it found,
    404 or 500. *)
Lemma get_path_shape frontend routeCache req res :
  exists code body,
    Router.get_path frontend routeCache req res = (Normal tt, sent code body res) /\
    (code = statusCode res \/ code = 404%Z \/ code = 500%Z).
Proof.
  unfold Router.get_path.
  destruct (startsWith (default "" (params_path req)) "search").
  - crunch. destruct (Router.get_plain frontend _) as [r|m]; simpl;
      eexists _, _; (split; [reflexivity|]); tauto.
  - destruct (String.eqb (default "" (params_path req)) "").
    + crunch. destruct (Router.get_plain frontend _) as [r|m]; simpl;
        eexists _, _; (split; [reflexivity|]); tauto.
    + destruct (found routeCache (default "" (params_path req))); crunch;
        destruct (Router.get_plain frontend _) as [answer|m]; simpl;
        eexists _, _; (split; [reflexivity|]); tauto.
Qed.

Lemma get_path2_run frontend req res :
  Router2.get_path frontend req res =
  (Normal tt,
   match frontend (get_request (Router2.targetUrl_of req)) with
   | Answered response => forwarded response res
   | Unreachable _ => sent 500 "Service communication error" res
   end).
Proof.
  unfold Router2.get_path. fold (get_request (Router2.targetUrl_of req)). crunch.
  destruct (frontend (get_request (Router2.targetUrl_of req))) as [m|response]; simpl;
    [reflexivity|].
  unfold forwarded. destruct (headers response !! "content-type") as [value|]; [|reflexivity].
  destruct (String.eqb value ""); reflexivity.
Qed.

Lemma indexOf_char p c rest :
  includes p (String c EmptyString) = false ->
  indexOf (p ++ String c rest) (String c EmptyString) = Z.of_nat (String.length p).
Proof.
  induction p as [|x p IH]; intros H.
  - rewrite append_nil. simpl. rewrite Ascii.eqb_refl. reflexivity.
  - rewrite append_cons. simpl in H. apply orb_false_iff in H as [H1 H2].
    cbn [indexOf startsWith]. destruct (Ascii.eqb x c) eqn:E.
    + discriminate.
    + rewrite (IH H2).
      destruct (Z.of_nat (String.length p) =? -1)%Z eqn:E2; [apply Z.eqb_eq in E2; lia|].
      simpl String.length. lia.
Qed.

Lemma substring_all (r : string) : String.substring 0 (String.length r) r = r.
Proof. induction r as [|c r' IH]; simpl; [reflexivity|]. f_equal. exact IH. Qed.

Lemma substring_suffix p r :
  String.substring (String.length p) (String.length r) (p ++ r) = r.
Proof.
  induction p as [|c p IH]; [rewrite append_nil; apply substring_all|].
  rewrite append_cons. simpl. exact IH.
Qed.

End RouterMoreFacts.

Section RouterExtras.

Import JS Publishing Http RouteCache Relay RouterExamples MoreRequests Forwarding.

Local Ltac crunch :=
  unfold try_catch, await, axios, throw, res_status, res_send, res_end, res_setHeader,
    modify, mbind, Eff_bind, mret, Eff_ret; simpl.

(** X11. A refresh whose fetch succeeds returns normally and leaves as
    entries of the route cache, for every path but [__proto__], the route
    of the last listed item with that path, and no entry for a path that
    no listed item has, whatever entries the cache held before. A listed
    item with the path [__proto__] makes no entry: its route becomes the
    prototype of the cache object, which otherwise stays what it was.
    While the prototype has not been replaced, a lookup finds the listed
    paths and the names of the inherited members. *)
Theorem route_cache_refresh contents st p :
  let cache := routeCache (snd (refreshRoutes (Resolved contents) st)) in
  fst (refreshRoutes (Resolved contents) st) = Normal tt
  /\ entries cache !! p =
       (if String.eqb p "__proto__" then None else listed_route p contents)
  /\ prototype cache =
       match listed_route "__proto__" contents with
       | Some route => Some route
       | None => prototype (routeCache st)
       end
  /\ (prototype cache = None ->
      found cache p = true <-> is_Some (entries cache !! p) \/ inherited p = true).
Proof.
  cbv zeta. destruct (refreshRoutes_resolved contents st) as [Hc Hr].
  split; [exact Hr|]. rewrite Hc.
  destruct (populate_lookup contents {| entries := ∅; prototype := prototype (routeCache st) |})
    as (H1 & H2 & H3); [apply lookup_empty|].
  split; [|split; [exact H3|]].
  - destruct (String.eqb p "__proto__") eqn:E.
    + apply String.eqb_eq in E. subst p. exact H1.
    + apply String.eqb_neq in E. rewrite (H2 p E). simpl. rewrite lookup_empty.
      destruct (listed_route p contents); reflexivity.
  - intros Hp. unfold found. rewrite Hp.
    destruct (entries (populate contents _) !! p) as [route|].
    + split; [intros _; left; eexists; reflexivity|reflexivity].
    + split; [intros H; now right|]. intros [[route H]|H]; [discriminate|exact H].
Qed.

Lemma route_cache_refresh_witness :
  entries (routeCache (snd (refreshRoutes (Resolved [listed "c1" "about"]) old_cache)))
    !! "gone" = None
  /\ found (routeCache (snd (refreshRoutes (Resolved [listed "c1" "about"]) old_cache)))
       "about" = true
  /\ found (routeCache (snd (refreshRoutes (Resolved [listed "c1" "about"]) old_cache)))
       "gone" = false
  /\ found (routeCache (snd (refreshRoutes (Resolved [listed "c1" "about"]) old_cache)))
       "constructor" = true.
Proof.
  destruct (route_cache_refresh [listed "c1" "about"] old_cache "gone") as (_ & Hgone & _).
  destruct (route_cache_refresh [listed "c1" "about"] old_cache "about")
    as (_ & _ & _ & Habout).
  destruct (route_cache_refresh [listed "c1" "about"] old_cache "constructor")
    as (_ & _ & _ & Hctor).
  split; [rewrite Hgone; reflexivity|]. split; [|split].
  - apply Habout; [reflexivity|]. left. vm_compute. eexists. reflexivity.
  - vm_compute. reflexivity.
  - apply Hctor; [reflexivity|]. right. reflexivity.
Defined.

(** X12. Both revisions of the router answer every request: the handler
    returns normally with the response finished, whatever the frontend
    does. *)
Theorem router_always_answers frontend routeCache req res :
  (exists res',
     Router.app frontend routeCache req res = (Normal tt, res') /\ finished res' = true)
  /\ (exists res',
        Router2.app frontend routeCache req res = (Normal tt, res') /\ finished res' = true).
Proof.
  split.
  - unfold Router.app. destruct (startsWith (originalUrl req) "/admin").
    + rewrite admin_proxy_run. eexists. split; [reflexivity|].
      destruct (admin_request req) as [out|]; [|reflexivity].
      destruct (frontend out) as [m|response]; [reflexivity|].
      destruct (Router.admin_validateStatus (status response)); reflexivity.
    + destruct (String.eqb (method req) "GET" || String.eqb (method req) "HEAD").
      * destruct (get_path_shape frontend routeCache req res) as (code & body & H & _).
        rewrite H. eexists. split; reflexivity.
      * crunch. eexists. split; reflexivity.
  - unfold Router2.app. destruct (startsWith (originalUrl req) "/admin").
    + rewrite admin_proxy2_run. eexists. split; [reflexivity|].
      destruct (admin_request2 req) as [out|]; [|reflexivity].
      destruct (frontend out) as [m|response]; [reflexivity|].
      destruct (Router2.admin_validateStatus (status response)); reflexivity.
    + destruct (String.eqb (method req) "GET" || String.eqb (method req) "HEAD").
      * rewrite get_path2_run. eexists. split; [reflexivity|].
        destruct (frontend _); reflexivity.
      * crunch. eexists. split; reflexivity.
Qed.

(** X13. On the admin path of either revision the client gets status 500
    with the fixed text, and none of the headers of the frontend, in
    three cases: the method is neither [GET] nor [POST], so that nothing
    is sent to the frontend; the frontend cannot be reached; the frontend
    answers with a status below 200 or of 500 and above. *)
Theorem admin_failures frontend routeCache req res :
  startsWith (originalUrl req) "/admin" = true ->
  (method req <> "GET" -> method req <> "POST" ->
   Router.app frontend routeCache req res =
     (Normal tt, sent 500 "Error processing admin request" res) /\
   Router2.app frontend routeCache req res =
     (Normal tt, sent 500 "Error processing admin request" res))
  /\ (forall out message,
        admin_request req = Some out -> frontend out = Unreachable message ->
        Router.app frontend routeCache req res =
          (Normal tt, sent 500 "Error processing admin request" res))
  /\ (forall out message,
        admin_request2 req = Some out -> frontend out = Unreachable message ->
        Router2.app frontend routeCache req res =
          (Normal tt, sent 500 "Error processing admin request" res))
  /\ (forall out response,
        admin_request req = Some out -> frontend out = Answered response ->
        (status response < 200 \/ 500 <= status response)%Z ->
        Router.app frontend routeCache req res =
          (Normal tt, sent 500 "Error processing admin request" res))
  /\ (forall out response,
        admin_request2 req = Some out -> frontend out = Answered response ->
        (status response < 200 \/ 500 <= status response)%Z ->
        Router2.app frontend routeCache req res =
          (Normal tt, sent 500 "Error processing admin request" res)).
Proof.
  intros Hadmin.
  assert (forall response, (status response < 200 \/ 500 <= status response)%Z ->
            Router.admin_validateStatus (status response) = false) as Hbad.
  { intros response H. unfold Router.admin_validateStatus. apply andb_false_iff.
    rewrite Z.leb_gt, Z.ltb_ge. lia. }
  unfold Router.app, Router2.app. rewrite Hadmin, admin_proxy_run, admin_proxy2_run.
  split; [|split; [|split; [|split]]].
  - intros Hg Hp. apply String.eqb_neq in Hg, Hp.
    unfold admin_request, admin_request2. rewrite Hg, Hp. split; reflexivity.
  - intros out message -> ->. reflexivity.
  - intros out message -> ->. reflexivity.
  - intros out response -> -> H. rewrite (Hbad response H). reflexivity.
  - intros out response -> -> H. unfold Router2.admin_validateStatus.
    unfold Router.admin_validateStatus in Hbad. rewrite (Hbad response H). reflexivity.
Qed.

Lemma admin_failures_witness :
  Router.app down ∅ get_admin fresh =
    (Normal tt, sent 500 "Error processing admin request" fresh)
  /\ Router2.app (answers 200 etag "deleted") ∅ delete_admin fresh =
    (Normal tt, sent 500 "Error processing admin request" fresh)
  /\ Router2.app (answers 503 etag "busy") ∅ get_admin fresh =
    (Normal tt, sent 500 "Error processing admin request" fresh).
Proof.
  split; [|split].
  - destruct (admin_failures down ∅ get_admin fresh eq_refl) as (_ & H & _).
    apply (H _ "connect ECONNREFUSED" eq_refl eq_refl).
  - destruct (admin_failures (answers 200 etag "deleted") ∅ delete_admin fresh eq_refl)
      as (H & _).
    apply H; discriminate.
  - destruct (admin_failures (answers 503 etag "busy") ∅ get_admin fresh eq_refl)
      as (_ & _ & _ & _ & H).
    apply (H _ {| status := 503; headers := etag; data := "busy" |} eq_refl eq_refl).
    simpl. lia.
Defined.

(** X14. What the admin branch forwards. A [GET] goes out as a [GET]
    of the same URL on the frontend without a body, a [POST] as a [POST]
    of the same URL; the headers are those of the request with [host]
    set to the frontend. [router/index.js] posts the parsed body as it
    is; the revised router does so too unless the content type names a
    URL-encoded form, which it posts as [URLSearchParams]. The response is
    decided by what the frontend does with that one request. *)
Theorem admin_forwarding frontend req res :
  let target := "http://frontend:3001" ++ originalUrl req in
  let forwarded_headers := <["host" := "frontend:3001"]> (req_headers req) in
  let outbound m payload :=
    {| out_method := m; out_url := target; out_headers := forwarded_headers;
       out_payload := payload |} in
  (method req = "GET" ->
   Router.admin_proxy frontend req res =
     (Normal tt, admin_outcome (frontend (outbound "GET" NoPayload)) res) /\
   Router2.admin_proxy frontend req res =
     (Normal tt, admin_outcome (frontend (outbound "GET" NoPayload)) res))
  /\ (method req = "POST" ->
      Router.admin_proxy frontend req res =
        (Normal tt, admin_outcome (frontend (outbound "POST" (Parsed (req_body req)))) res) /\
      Router2.admin_proxy frontend req res =
        (Normal tt,
         admin_outcome
           (frontend
              (outbound "POST"
                 (if includes (default "" (req_headers req !! "content-type"))
                       "application/x-www-form-urlencoded"
                  then SearchParams (Router2.form_pairs (req_body req))
                  else Parsed (req_body req)))) res))
  /\ forwarded_headers !! "host" = Some "frontend:3001"
  /\ (forall k, k <> "host" -> forwarded_headers !! k = req_headers req !! k).
Proof.
  cbv zeta. rewrite admin_proxy_run, admin_proxy2_run.
  unfold admin_request, admin_request2, proxied_headers, admin_outcome.
  split; [|split; [|split]].
  - intros ->. split; reflexivity.
  - intros ->. split; [reflexivity|].
    destruct (includes _ "application/x-www-form-urlencoded"); reflexivity.
  - apply lookup_insert_eq.
  - intros k Hk. apply lookup_insert_ne. congruence.
Qed.

Lemma admin_forwarding_witness :
  Router2.admin_proxy echo save_guide fresh =
    (Normal tt,
     {| statusCode := 200; sent_headers := ∅;
        sent_body := Some "http://frontend:3001/admin/save/guide"; finished := true |})
  /\ Router.admin_proxy echo get_admin fresh =
    (Normal tt,
     {| statusCode := 200; sent_headers := ∅;
        sent_body := Some "http://frontend:3001/admin"; finished := true |}).
Proof.
  split.
  - destruct (admin_forwarding echo save_guide fresh) as (_ & H & _).
    destruct (H eq_refl) as [_ H2]. rewrite H2. reflexivity.
  - destruct (admin_forwarding echo get_admin fresh) as (H & _).
    destruct (H eq_refl) as [H1 _]. rewrite H1. reflexivity.
Defined.

(** X15. Re-encoding a parsed form keeps, for every key, all its values
    in their order, a field with several values giving one pair for
    each; a field whose value is an empty array gives no pair at all. *)
Theorem form_values_kept fields key :
  pairs_for key (Router2.form_pairs fields) = values_for key fields
  /\ List.length (Router2.form_pairs fields) =
       List.length (flat_map (fun '(_, value) => values_of value) fields)
  /\ (values_for key fields = [] -> ~ In key (List.map fst (Router2.form_pairs fields))).
Proof.
  assert (forall fs, pairs_for key (Router2.form_pairs fs) = values_for key fs) as Hvals.
  { unfold pairs_for, values_for, Router2.form_pairs.
    induction fs as [|[k value] fs IH]; [reflexivity|].
    cbn [flat_map]. rewrite List.filter_app, List.map_app, IH. f_equal.
    destruct value as [v|items]; simpl.
    - destruct (String.eqb k key); reflexivity.
    - induction items as [|item items IHi]; simpl.
      + destruct (String.eqb k key); reflexivity.
      + destruct (String.eqb k key) eqn:E; simpl in *; [f_equal|]; exact IHi. }
  split; [apply Hvals|]. split.
  - clear Hvals. unfold Router2.form_pairs.
    induction fields as [|[k value] fields IH]; [reflexivity|].
    cbn [flat_map]. rewrite !length_app, IH. f_equal.
    destruct value; simpl; [reflexivity|apply length_map].
  - intros Hnone Hin. rewrite <- Hvals in Hnone. unfold pairs_for in Hnone.
    apply in_map_iff in Hin as ([k v] & Hk & Hin). simpl in Hk. subst k.
    assert (In (key, v) (List.filter (fun '(k, _) => String.eqb k key)
                           (Router2.form_pairs fields))) as Hf.
    { apply filter_In. split; [exact Hin|apply String.eqb_refl]. }
    destruct (List.filter _ _); [destruct Hf|discriminate].
Qed.

Lemma form_values_kept_witness :
  values_for "partTitles" [("title", One "Tax"); ("partTitles", Many [])] = [] /\
  ~ In "partTitles"
      (List.map fst (Router2.form_pairs [("title", One "Tax"); ("partTitles", Many [])])).
Proof.
  split; [reflexivity|].
  apply (proj2 (proj2 (form_values_kept
                         [("title", One "Tax"); ("partTitles", Many [])] "partTitles"))).
  reflexivity.
Defined.

(** X16. The revised router passes the query string of a search on as it
    is: for a [GET] outside [/admin] whose path starts with [search],
    it asks the frontend for [/search] followed by the request URL from
    its first question mark on, or for [/search] alone when the URL has
    no question mark, and answers with the status and body it gets. *)
Theorem search_query_forwarded frontend routeCache req res path :
  startsWith (originalUrl req) "/admin" = false ->
  method req = "GET" ->
  params_path req = Some path ->
  startsWith path "search" = true ->
  (forall before query response,
     url req = before ++ "?" ++ query ->
     includes before "?" = false ->
     frontend (get_request ("http://frontend:3001/search?" ++ query)) = Answered response ->
     Router2.app frontend routeCache req res = (Normal tt, forwarded response res))
  /\ (forall response,
        includes (url req) "?" = false ->
        frontend (get_request "http://frontend:3001/search") = Answered response ->
        Router2.app frontend routeCache req res = (Normal tt, forwarded response res)).
Proof.
  intros Hadmin Hget Hp Hs.
  rewrite (app2_get _ routeCache _ Hadmin Hget). rewrite get_path2_run.
  assert (String.eqb path "" = false) as Hne.
  { destruct path; [discriminate Hs|reflexivity]. }
  split.
  - intros before query response Hurl Hclean Hans.
    assert (Router2.targetUrl_of req = "http://frontend:3001/search?" ++ query) as ->.
    { unfold Router2.targetUrl_of. rewrite Hp.
      change (default "" (Some path)) with path. cbv zeta. rewrite Hne, Hs, Hurl.
      rewrite (includes_app before "?" query).
      change ("?" ++ query) with (String "?"%char query).
      rewrite (indexOf_char before "?"%char query Hclean), Nat2Z.id.
      unfold substring. rewrite length_append.
      replace (String.length before + String.length (String "?"%char query)
               - String.length before)%nat
        with (String.length (String "?"%char query)) by lia.
      rewrite substring_suffix. reflexivity. }
    rewrite Hans. reflexivity.
  - intros response Hclean Hans.
    assert (Router2.targetUrl_of req = "http://frontend:3001/search") as ->.
    { unfold Router2.targetUrl_of. rewrite Hp.
      change (default "" (Some path)) with path. cbv zeta. rewrite Hne, Hs, Hclean.
      reflexivity. }
    rewrite Hans. reflexivity.
Qed.

Lemma search_query_forwarded_witness :
  Router2.app echo ∅ get_search fresh =
    (Normal tt,
     {| statusCode := 200; sent_headers := ∅;
        sent_body := Some "http://frontend:3001/search?q=tax&page=2"; finished := true |}).
Proof.
  destruct (search_query_forwarded echo ∅ get_search fresh "search"
              eq_refl eq_refl eq_refl eq_refl) as [H _].
  rewrite (H "/search" "q=tax&page=2" _ eq_refl eq_refl eq_refl). reflexivity.
Defined.

(** X17. For a [GET] outside [/admin], [router/index.js] sets no header,
    always sends a body, and leaves the status as it was or sets 404 or
    500: a status of the frontend is never passed on. *)
Theorem plain_routes_statuses frontend routeCache req res :
  startsWith (originalUrl req) "/admin" = false ->
  method req = "GET" ->
  exists code body,
    Router.app frontend routeCache req res =
      (Normal tt,
       {| statusCode := code; sent_headers := sent_headers res; sent_body := Some body;
          finished := true |}) /\
    (code = statusCode res \/ code = 404%Z \/ code = 500%Z).
Proof.
  intros Hadmin Hget. rewrite (app_get _ _ _ Hadmin Hget).
  destruct (get_path_shape frontend routeCache req res) as (code & body & H & Hcode).
  exists code, body. split; [exact H|exact Hcode].
Qed.

Lemma plain_routes_statuses_witness :
  exists code body,
    Router.app (answers 201 etag "made") about_cached get_about fresh =
      (Normal tt,
       {| statusCode := code; sent_headers := sent_headers fresh; sent_body := Some body;
          finished := true |}) /\
    (code = statusCode fresh \/ code = 404%Z \/ code = 500%Z).
Proof.
  exact (plain_routes_statuses (answers 201 etag "made") about_cached get_about fresh
           eq_refl eq_refl).
Defined.

End RouterExtras.

Section FindableExtras.

Import JS Publishing SearchApi Runs Invariants IndexMaps Fields Examples.

(** X18. After the indexing of a listing into the empty index has
    returned, as in a full build that succeeds, a search for any one
    token of the title of a listed item, or of its other searchable
    fields, without a type filter finds that item, provided it is the
    last one listed under its id. *)
Theorem listed_item_findable contents content idx t :
  indexAll contents empty_index = (Normal tt, idx) ->
  latest (_id content) contents = Some content ->
  In t (tokenizeText (title content)) \/ In t (field_tokens content) ->
  exists rs,
    rankedResults idx None [t] = Normal rs /\
    In (_id content) (List.map res_id rs).
Proof.
  intros Hrun Hl Ht. apply indexAll_Normal in Hrun. subst idx.
  pose proof (indexed_all_consistent contents _ consistent_empty) as Hc.
  assert (documents (indexed_all contents empty_index) !! _id content =
          Some (document_of content)) as Hd
    by (rewrite indexed_all_documents, Hl; reflexivity).
  assert (In t (tokenizeText (doc_text (document_of content)))) as Htok.
  { simpl. rewrite tokenizeText_toLowerCase, searchableText_tokens.
    apply in_app_iff. exact Ht. }
  destruct (rankedResults_total (indexed_all contents empty_index) None [t]
              (consistent_sound _ Hc)) as [rs Hr].
  { intros u [<-|[]] Hi. apply get_property_Inherited in Hi as [Hi _].
    assert (In (_id content) (postings (tokenizedIndex (indexed_all contents empty_index)) t))
      as Hin by (apply (posted_iff _ Hc); exists (document_of content); split; assumption).
    unfold postings in Hin. rewrite Hi in Hin. destruct Hin. }
  exists rs. split; [exact Hr|].
  apply in_map_iff.
  exists (result_item (document_of content) [t] (relevance_of (document_of content) [t])).
  split; [reflexivity|].
  apply (rankedResults_documents _ _ _ _ _ _ Hc Hr).
  exists (_id content), (document_of content). repeat split.
  - exact Hd.
  - intros u [<-|[]]. exact Htok.
Qed.

Lemma listed_item_findable_witness :
  indexAll [crumble; tart] empty_index = (Normal tt, desserts)
  /\ exists rs,
       rankedResults desserts None ["crumble"] = Normal rs /\
       In "B" (List.map res_id rs).
Proof.
  assert (indexAll [crumble; tart] empty_index = (Normal tt, desserts)) as Hrun
    by (vm_compute; reflexivity).
  split; [exact Hrun|].
  apply (listed_item_findable [crumble; tart] crumble desserts "crumble" Hrun).
  - reflexivity.
  - right. vm_compute. tauto.
Defined.

End FindableExtras.
